(** * NodeID arithmetic of [storage/tree/node.go]

    A shallow embedding of the Merkle-tree node identifiers of
    [storage/tree/node.go] and the properties of their constructors,
    masking, sibling and prefix/suffix operations.

    Conventions of the embedding.
    - [int] and [int64] are 64-bit two's complement ([bits.UintSize = 64]);
      every [+], [-], [*] and conversion of the source is written with its
      wrap-around ([+!], [-!], [*!], [to_uint64], [to_byte]).  [/] and [%]
      truncate towards zero ([Z.quot], [Z.rem]).
    - a [byte] is a [Z] in [0, 256); a [[]byte] is a [list Z].  The
      capacity of a slice is taken equal to its length.
    - a run-time panic is [None]; a function that returns normally gives
      [Some].
    - the [Suffix] type of the package, with its constructor and its empty
      sentinel, lives in another file: it is modelled as a record of a bit
      count and a buffer. *)

From Stdlib Require Import ZArith Lia String Ascii DecimalString DecimalZ.
From stdpp Require Import base option list list_numbers.

Local Open Scope Z_scope.

(** ** Machine integers *)

Definition min_int : Z := - 2 ^ 63.
Definition max_int : Z := 2 ^ 63 - 1.

(** Conversion to [int] / [int64]: wrap-around into [-2^63, 2^63). *)
Definition to_int (z : Z) : Z := (z + 2 ^ 63) mod 2 ^ 64 - 2 ^ 63.
(** Conversion to [uint] / [uint64]. *)
Definition to_uint64 (z : Z) : Z := z mod 2 ^ 64.
(** Conversion to [byte]. *)
Definition to_byte (z : Z) : Z := z mod 2 ^ 8.

Definition int_add (a b : Z) : Z := to_int (a + b).
Definition int_sub (a b : Z) : Z := to_int (a - b).
Definition int_mul (a b : Z) : Z := to_int (a * b).

Infix "+!" := int_add (at level 50, left associativity).
Infix "-!" := int_sub (at level 50, left associativity).
Infix "*!" := int_mul (at level 40, left associativity).

(** [x << s] on a [uint64], [s] an unsigned count: counts of 64 and more
    shift every bit out. *)
Definition shl_uint64 (x s : Z) : Z :=
  if 64 <=? s then 0 else to_uint64 (Z.shiftl x s).
(** [x << s] on an [int64]. *)
Definition shl_int64 (x s : Z) : Z :=
  if 64 <=? s then 0 else to_int (Z.shiftl x s).
(** [x << s] and [x >> s] on a [byte]. *)
Definition shl_byte (x s : Z) : Z :=
  if 8 <=? s then 0 else to_byte (Z.shiftl x s).
Definition shr_byte (x s : Z) : Z :=
  if 8 <=? s then 0 else Z.shiftr x s.

(** [bits.Len64]: the number of bits needed to represent [x]. *)
Definition Len64 (x : Z) : Z := if x =? 0 then 0 else Z.log2 x + 1.

(** ** Slices *)

Definition len {A} (s : list A) : Z := Z.of_nat (length s).

(** [make([]byte, n)]. *)
Definition make (n : Z) : option (list Z) :=
  if n <? 0 then None else Some (replicate (Z.to_nat n) 0).

(** [s[i]]. *)
Definition load {A} (s : list A) (i : Z) : option A :=
  if i <? 0 then None else s !! Z.to_nat i.

(** [s[i] = v]. *)
Definition store {A} (s : list A) (i : Z) (v : A) : option (list A) :=
  if (0 <=? i) && (i <? len s) then Some (<[Z.to_nat i := v]> s) else None.

(** [s[lo:hi]], [s[:hi]] and [s[lo:]]. *)
Definition slice {A} (s : list A) (lo hi : Z) : option (list A) :=
  if (0 <=? lo) && (lo <=? hi) && (hi <=? len s)
  then Some (take (Z.to_nat (hi - lo)) (drop (Z.to_nat lo) s)) else None.
Definition slice_to {A} (s : list A) (hi : Z) : option (list A) := slice s 0 hi.
Definition slice_from {A} (s : list A) (lo : Z) : option (list A) :=
  slice s lo (len s).

(** [copy(dst, src)]: the first [min(len(dst), len(src))] elements of [dst]
    are overwritten; the updated [dst] is returned. *)
Definition copy {A} (dst src : list A) : list A :=
  take (length dst) src ++ drop (length src) dst.

(** [copy(dst[lo:], src)]: the copy goes through the sub-slice into [dst]. *)
Definition copy_from {A} (dst : list A) (lo : Z) (src : list A) : option (list A) :=
  tl ← slice_from dst lo;
  Some (take (Z.to_nat lo) dst ++ copy tl src).

(** ** The data model *)

Record NodeID : Type := mkNodeID { Path : list Z; PrefixLenBits : Z }.

(** Modelled from the spec: the [Suffix] type, which is declared outside
    this source file: "a bit-count plus a small byte buffer";
    [NewNodeIDFromPrefixSuffix] reads its fields [bits] (a [byte]) and
    [path]. *)
Record suffix : Type := mkSuffix { bits : Z; path : list Z }.

(** Modelled from the spec: the constructor of [Suffix], which is declared
    outside this source file; it records the bit count and the buffer. *)
Definition NewSuffix (b : Z) (p : list Z) : suffix := mkSuffix b p.

(** Modelled from the spec: the "distinguished empty-suffix sentinel", which
    is declared outside this source file: the suffix of zero bits, over a
    buffer of one zero byte. *)
Definition EmptySuffix : suffix := NewSuffix 0 [0].

Definition hexChars : string := "0123456789abcdef".

Definition leftmask : list Z := [0xFF; 0x80; 0xC0; 0xE0; 0xF0; 0xF8; 0xFC; 0xFE].

(** ** Operations *)

Definition PathLenBits (n : NodeID) : Z := len (Path n) *! 8.

Definition bytesForBits (numBits : Z) : Z := Z.shiftr (numBits +! 7) 3.

Definition NewNodeIDFromHash (h : list Z) : NodeID :=
  {| Path := h; PrefixLenBits := len h *! 8 |}.

(** [binary.Write(buf, binary.BigEndian, x)] for a [uint64]: eight bytes,
    most significant first. *)
Definition put_uint64_be (x : Z) : list Z :=
  (fun k => to_byte (Z.shiftr x (8 * k))) <$> [7; 6; 5; 4; 3; 2; 1; 0].

Definition NewNodeIDFromPrefix (prefix : list Z) (depth index : Z)
    (subDepth totalDepth : Z) : option NodeID :=
  if negb (Z.rem totalDepth 8 =? 0) || (Z.rem totalDepth 8 <? 0) then None else
  if negb (Z.rem subDepth 8 =? 0) || (Z.rem subDepth 8 <? 0) then None else
  if depth <? 0 then None else
  path ← make (Z.quot totalDepth 8);
  let path := copy path prefix in
  let height := subDepth -! depth in
  let subIndex := shl_int64 index (to_uint64 height) in
  let subPath := put_uint64_be (to_uint64 subIndex) in
  let unusedHighBytes := Z.quot 64 8 -! Z.quot subDepth 8 in
  src ← slice_from subPath unusedHighBytes;
  path ← copy_from path (len prefix) src;
  Some {| Path := path; PrefixLenBits := len prefix *! 8 +! depth |}.

(** A [big.Int]: a sign and the magnitude as little-endian 64-bit words;
    [Bits] returns the words of the magnitude. *)
Record big_Int : Type := mkBigInt { neg : bool; abs : list Z }.
Definition Bits (x : big_Int) : list Z := abs x.

(** The inner loop of [NewNodeIDFromBigInt] over the [_S = 8] bytes of one
    word [d]; [j] counts the remaining iterations.  The result carries the
    flag of [break loop]. *)
Fixpoint word_loop (j : nat) (d i : Z) (path : list Z) : Z * list Z * bool :=
  match j with
  | O => (i, path, false)
  | S j' =>
      let i := i -! 1 in
      if i <? 0 then (i, path, true)
      else word_loop j' (Z.shiftr d 8) i (<[Z.to_nat i := to_byte d]> path)
  end.

(** The outer loop over the words of [index.Bits()]. *)
Fixpoint words_loop (iBits : list Z) (i : Z) (path : list Z) : list Z :=
  match iBits with
  | [] => path
  | d :: rest =>
      match word_loop 8 d i path with
      | (_, path, true) => path
      | (i, path, false) => words_loop rest i path
      end
  end.

Definition NewNodeIDFromBigInt (depth : Z) (index : big_Int) (totalDepth : Z)
    : option NodeID :=
  if negb (Z.rem totalDepth 8 =? 0) then None else
  if totalDepth =? 0 then None else
  path ← make (Z.quot totalDepth 8);
  let iBits := Bits index in
  let i := len path in
  let path := words_loop iBits i path in
  Some {| Path := path; PrefixLenBits := depth |}.

(** The error value of [NewNodeIDForTreeCoords], with the arguments its
    message prints. *)
Inductive error : Type :=
| nil_error
| Errorf (depth index maxPathBits : Z).

(** The loop [for i := len(r.Path) - 1; uidx > 0 && i >= 0; i--] of
    [NewNodeIDForTreeCoords]; [k] is [i + 1]. *)
Fixpoint coords_loop (k : nat) (uidx : Z) (p : list Z) : list Z :=
  match k with
  | O => p
  | S i =>
      if 0 <? uidx
      then coords_loop i (Z.shiftr uidx 8) (<[i := Z.land uidx 0xff]> p)
      else p
  end.

Definition NewNodeIDForTreeCoords (depth index maxPathBits : Z)
    : option (NodeID * error) :=
  let bl := Len64 (to_uint64 index) in
  if (index <? 0) || (depth <? 0)
     || (maxPathBits -! depth <? bl)
     || negb (Z.rem maxPathBits 8 =? 0)
  then Some ({| Path := []; PrefixLenBits := 0 |}, Errorf depth index maxPathBits)
  else
    let uidx := shl_uint64 (to_uint64 index) (to_uint64 depth) in
    p ← make (Z.quot maxPathBits 8);
    let p := coords_loop (length p) uidx p in
    Some ({| Path := p; PrefixLenBits := maxPathBits -! depth |}, nil_error).

Definition Bit (n : NodeID) (i : Z) : option Z :=
  if PathLenBits n -! 1 <? i then None else
  let bIndex := Z.quot (PathLenBits n -! i -! 1) 8 in
  x ← load (Path n) bIndex;
  Some (Z.land (shr_byte x (to_uint64 (Z.rem i 8))) 0x01).

(** [strconv.Itoa]: the decimal rendering of an [int]. *)
Definition Itoa (i : Z) : string := NilZero.string_of_int (Z.to_int i).

(** [hexChars[i]]. *)
Definition hex_char (i : Z) : option ascii :=
  if i <? 0 then None else String.get (Z.to_nat i) hexChars.

(** [hex.Encode]: two lower-case digits per byte (the table of
    [encoding/hex] is the same string as [hexChars]). *)
Fixpoint hex_Encode (src : list Z) : option string :=
  match src with
  | [] => Some EmptyString
  | v :: rest =>
      hi ← hex_char (Z.shiftr v 4);
      lo ← hex_char (Z.land v 0x0f);
      s ← hex_Encode rest;
      Some (String hi (String lo s))
  end.

Definition AsKey (n : NodeID) : option string :=
  let fullBytes := Z.quot (PrefixLenBits n) 8 in
  let bitsLeft := Z.rem (PrefixLenBits n) 8 in
  let b := (Itoa (PrefixLenBits n) ++ ":")%string in
  b ← (if 0 <? fullBytes then
         src ← slice_to (Path n) fullBytes;
         buf ← hex_Encode src;
         Some (b ++ buf)%string
       else Some b);
  if 0 <? bitsLeft then
    x ← load (Path n) fullBytes;
    m ← load leftmask bitsLeft;
    let bits := Z.land x m in
    hi ← hex_char (Z.shiftr bits 4);
    lo ← hex_char (Z.land bits 0xf);
    Some (b ++ String hi (String lo EmptyString))%string
  else Some b.

Definition MaskLeft (n : NodeID) (depth : Z) : option NodeID :=
  r ← make (len (Path n));
  r ← (if 0 <? depth then
         let depthBytes := bytesForBits depth in
         src ← slice_to (Path n) depthBytes;
         let r := copy r src in
         x ← load r (depthBytes -! 1);
         m ← load leftmask (Z.rem depth 8);
         store r (depthBytes -! 1) (Z.land x m)
       else Some r);
  let b := if depth <? PrefixLenBits n then depth else PrefixLenBits n in
  Some {| PrefixLenBits := b; Path := r |}.

Definition Neighbor (n : NodeID) (depth : Z) : option NodeID :=
  node ← MaskLeft n depth;
  let height := PathLenBits node -! PrefixLenBits node in
  let bIndex := Z.quot (PathLenBits node -! height -! 1) 8 in
  x ← load (Path node) bIndex;
  p ← store (Path node) bIndex (Z.lxor x (shl_byte 1 (to_uint64 (Z.rem height 8))));
  Some {| Path := p; PrefixLenBits := PrefixLenBits node |}.

(** The loop [for height := range sibs] of [Siblings]. *)
Fixpoint siblings_loop (n : NodeID) (heights : list Z) (sibs : list NodeID)
    : option (list NodeID) :=
  match heights with
  | [] => Some sibs
  | height :: rest =>
      let depth := PrefixLenBits n -! height in
      s ← Neighbor n depth;
      sibs ← store sibs height s;
      siblings_loop n rest sibs
  end.

Definition Siblings (n : NodeID) : option (list NodeID) :=
  if PrefixLenBits n <? 0 then None else
  let sibs := replicate (Z.to_nat (PrefixLenBits n)) {| Path := []; PrefixLenBits := 0 |} in
  siblings_loop n (seqZ 0 (len sibs)) sibs.

Definition NewNodeIDFromPrefixSuffix (prefix : list Z) (sfx : suffix)
    (maxPathBits : Z) : option NodeID :=
  p ← make (Z.quot maxPathBits 8);
  let p := copy p prefix in
  p ← copy_from p (len prefix) (path sfx);
  Some {| Path := p; PrefixLenBits := len prefix *! 8 +! bits sfx |}.

Definition Suffix (n : NodeID) (prefixBytes suffixBits : Z) : option suffix :=
  if PrefixLenBits n =? 0 then Some EmptySuffix else
  let b := PrefixLenBits n -! prefixBytes *! 8 in
  if suffixBits <? b then None else
  if b <=? 0 then None else
  let suffixBytes := bytesForBits b in
  let maskIndex := Z.quot (b -! 1) 8 in
  let maskLowBits := Z.rem (b -! 1) 8 +! 1 in
  sfxPath ← make suffixBytes;
  src ← slice (Path n) prefixBytes (prefixBytes +! suffixBytes);
  let sfxPath := copy sfxPath src in
  x ← load sfxPath maskIndex;
  let m := shl_byte (to_byte (shl_byte 0x01 (to_uint64 maskLowBits) - 1))
                    (to_uint64 (8 -! maskLowBits)) in
  sfxPath ← store sfxPath maskIndex (Z.land x m);
  Some (NewSuffix (to_byte b) sfxPath).

Definition Prefix (n : NodeID) (prefixBytes : Z) : option (list Z) :=
  if PrefixLenBits n =? 0 then Some [] else
  a ← make prefixBytes;
  src ← slice_to (Path n) prefixBytes;
  Some (copy a src).

Definition Split (n : NodeID) (prefixBytes suffixBits : Z)
    : option (list Z * suffix) :=
  if PrefixLenBits n =? 0 then Some ([], EmptySuffix) else
  p ← Prefix n prefixBytes;
  s ← Suffix n prefixBytes suffixBits;
  Some (p, s).

(** [bytes.Equal]. *)
Definition bytes_Equal (a b : list Z) : bool := bool_decide (a = b).

Definition Equivalent (n other : NodeID) : option bool :=
  if negb (PrefixLenBits n =? PrefixLenBits other) then Some false else
  let depthBytes := Z.quot (PrefixLenBits n) 8 in
  a ← slice_to (Path n) depthBytes;
  b ← slice_to (Path other) depthBytes;
  if negb (bytes_Equal a b) then Some false else
  if Z.rem (PrefixLenBits n) 8 =? 0 then Some true else
  mask ← load leftmask (Z.rem (PrefixLenBits n) 8);
  x ← load (Path n) depthBytes;
  y ← load (Path other) depthBytes;
  Some (Z.land x mask =? Z.land y mask).

(** ** Notions used to state the properties *)

(** A Go [byte] value. *)
Definition is_byte (b : Z) : Prop := 0 <= b < 256.

(** Bit [i] of a path, counted from the most significant end: bit 0 is the
    most significant bit of [p[0]]. *)
Definition bitAt (p : list Z) (i : Z) : bool :=
  Z.testbit (default 0 (p !! Z.to_nat (i / 8))) (7 - i mod 8).

(** Two paths carry the same bits in positions [[0, k)]. *)
Definition agree (p q : list Z) (k : Z) : Prop :=
  forall i, 0 <= i < k -> bitAt p i = bitAt q i.

(** Every bit of [p] from position [k] on is zero. *)
Definition zero_from (p : list Z) (k : Z) : Prop :=
  forall i, k <= i -> bitAt p i = false.

(** [leftmask[r]], zero outside the table. *)
Definition mask_of (r : Z) : Z := default 0 (leftmask !! Z.to_nat r).

(** What masking to [d] bits leaves of byte [x] at index [j]: bytes before
    the last kept byte are untouched, the last kept byte is masked, later
    bytes are cleared. *)
Definition maskAt (d : Z) (j : nat) (x : Z) : Z :=
  if 8 * Z.of_nat j + 8 <? d then x
  else if 8 * Z.of_nat j <? d then Z.land x (mask_of (d mod 8))
  else 0.

(** Flipping, in the byte that holds it, the bit at position [k] of a path. *)
Definition flip_bit (k : Z) (x : Z) : Z := Z.lxor x (2 ^ (7 - k mod 8)).

(** The significant bytes of a path with [k] significant bits: the full
    bytes, then the partial byte under its mask. *)
Definition significant (p : list Z) (k : Z) : list Z :=
  take (Z.to_nat (Z.quot k 8)) p ++
  (if 0 <? Z.rem k 8
   then [Z.land (default 0 (p !! Z.to_nat (Z.quot k 8))) (mask_of (Z.rem k 8))]
   else []).

(** [Split] followed by [NewNodeIDFromPrefixSuffix] with
    [maxPathBits = n.PathLenBits()]. *)
Definition split_join (n : NodeID) (prefixBytes suffixBits : Z) : option NodeID :=
  ps ← Split n prefixBytes suffixBits;
  NewNodeIDFromPrefixSuffix ps.1 ps.2 (PathLenBits n).

(** The [k] bytes of [v] written big-endian, right-aligned. *)
Definition big_endian (k : nat) (v : Z) : list Z :=
  (fun j : nat => (v / 256 ^ (Z.of_nat (k - 1 - j))) mod 256) <$> seq 0 k.

(** The digit [hexChars[i]] of a nibble, and the two-digit rendering of a
    byte sequence. *)
Definition hex_digit (i : Z) : ascii := default "0"%char (hex_char i).

Fixpoint hex_string (l : list Z) : string :=
  match l with
  | [] => EmptyString
  | v :: rest =>
      String (hex_digit (Z.shiftr v 4))
        (String (hex_digit (Z.land v 0x0f)) (hex_string rest))
  end.

(** A string without the separator [':']. *)
Fixpoint colon_free (s : string) : Prop :=
  match s with
  | EmptyString => True
  | String c rest => c <> ":"%char /\ colon_free rest
  end.

(** ** The remaining operations of the file *)

(** [x >> s] on a [uint64]. *)
Definition shr_uint64 (x s : Z) : Z :=
  if 64 <=? s then 0 else Z.shiftr x s.

(** The values [hi, hi - 1, ..., lo] taken by [i] in a loop
    [for i := hi; i >= lo; i--]. *)
Definition down_range (hi lo : Z) : list Z := reverse (seqZ lo (hi - lo + 1)).

(** The byte [WriteRune] appends for a rune below [0x80]. *)
Definition rune_char (r : Z) : ascii := ascii_of_N (Z.to_N r).

(** The loop of [String]: one character ['0' + n.Bit(i)] per index. *)
Fixpoint String_loop (n : NodeID) (idx : list Z) (r : string) : option string :=
  match idx with
  | [] => Some r
  | i :: rest =>
      b ← Bit n i;
      String_loop n rest (r ++ String (rune_char (48 + b)) EmptyString)%string
  end.

(** The method [String] of [NodeID]. *)
Definition NodeID_String (n : NodeID) : option string :=
  let limit := PathLenBits n -! PrefixLenBits n in
  String_loop n (down_range (PathLenBits n -! 1) limit) EmptyString.

Definition CoordString (n : NodeID) : string :=
  let d := to_uint64 (PathLenBits n -! PrefixLenBits n) in
  let i := foldl (fun i p => to_uint64 (shl_uint64 i (to_uint64 8) + to_uint64 p))
                 (to_uint64 0) (Path n) in
  ("[d:" ++ Itoa d ++ ", i:" ++ Itoa (shr_uint64 i d) ++ "]")%string.

(** The conversion [string(b)] of a byte slice. *)
Definition string_of_bytes (b : list Z) : string :=
  string_of_list_ascii ((fun x => ascii_of_N (Z.to_N x)) <$> b).

Definition PrefixAsKey (n : NodeID) (prefixBytes : Z) : option string :=
  if PrefixLenBits n =? 0 then Some EmptyString else
  p ← slice_to (Path n) prefixBytes;
  Some (string_of_bytes p).

(** The value of a byte sequence read as a big-endian unsigned integer, and
    of a word sequence read little-endian. *)
Definition be_value (buf : list Z) : Z := foldl (fun acc b => acc * 256 + b) 0 buf.
Definition le_value (ws : list Z) : Z := foldr (fun w acc => w + 2 ^ 64 * acc) 0 ws.

(** The [k] low 64-bit words of [v], least significant first. *)
Definition le_words (k : nat) (v : Z) : list Z :=
  (fun j : nat => (v / 2 ^ (64 * Z.of_nat j)) mod 2 ^ 64) <$> seq 0 k.

(** [nat.norm] of [math/big]: the words without the zero words at the
    most significant end. *)
Fixpoint norm (ws : list Z) : list Z :=
  match ws with
  | [] => []
  | w :: rest =>
      match norm rest with
      | [] => if w =? 0 then [] else [w]
      | rest' => w :: rest'
      end
  end.

(** [SetBytes] on a [big.Int] of [math/big]: "interprets buf as the bytes of a
    big-endian unsigned integer"; the magnitude takes
    [(len(buf) + 7) / 8] words before normalisation. *)
Definition SetBytes (buf : list Z) : big_Int :=
  {| neg := false;
     abs := norm (le_words (Z.to_nat ((len buf + 7) / 8)) (be_value buf)) |}.

Definition BigInt (n : NodeID) : big_Int := SetBytes (Path n).

(** The characters ['0'] and ['1'] of the first [k] bits of a path. *)
Definition bits_string (p : list Z) (k : Z) : string :=
  string_of_list_ascii
    ((fun i => if bitAt p i then "1"%char else "0"%char) <$> seqZ 0 k).

(** Decides the comparisons of a goal by linear arithmetic. *)
Ltac zb :=
  repeat match goal with
  | |- context [?a <? ?b] =>
      first [rewrite (proj2 (Z.ltb_lt a b)) by lia
            |rewrite (proj2 (Z.ltb_ge a b)) by lia]
  | |- context [?a <=? ?b] =>
      first [rewrite (proj2 (Z.leb_le a b)) by lia
            |rewrite (proj2 (Z.leb_gt a b)) by lia]
  | |- context [?a =? ?b] =>
      first [rewrite (proj2 (Z.eqb_eq a b)) by lia
            |rewrite (proj2 (Z.eqb_neq a b)) by lia]
  end.

(** ** Machine integers: basic facts *)

Lemma to_int_id z : min_int <= z <= max_int -> to_int z = z.
Proof.
  unfold min_int, max_int, to_int. intros H.
  rewrite Z.mod_small by lia. lia.
Qed.

Lemma to_int_range z : min_int <= to_int z <= max_int.
Proof.
  unfold min_int, max_int, to_int.
  pose proof (Z.mod_pos_bound (z + 2 ^ 63) (2 ^ 64)). lia.
Qed.

Lemma to_int_mod8 z : to_int z mod 8 = z mod 8.
Proof.
  unfold to_int. rewrite (Z.mod_eq (z + 2 ^ 63) (2 ^ 64)) by lia.
  replace (z + 2 ^ 63 - 2 ^ 64 * ((z + 2 ^ 63) / 2 ^ 64) - 2 ^ 63)
    with (z + (- (2 ^ 61 * ((z + 2 ^ 63) / 2 ^ 64))) * 8) by lia.
  apply Z.mod_add. lia.
Qed.

Lemma to_int_le z : 0 <= z -> to_int z <= z.
Proof.
  unfold to_int. intros H.
  destruct (Z.lt_ge_cases z (2 ^ 63)).
  - rewrite Z.mod_small by lia. lia.
  - pose proof (Z.mod_pos_bound (z + 2 ^ 63) (2 ^ 64)). lia.
Qed.

Lemma len_nonneg {A} (s : list A) : 0 <= len s.
Proof. unfold len. lia. Qed.

Lemma PathLenBits_le n : PathLenBits n <= 8 * len (Path n).
Proof.
  unfold PathLenBits, int_mul. pose proof (len_nonneg (Path n)).
  pose proof (to_int_le (len (Path n) * 8)). lia.
Qed.

Lemma PathLenBits_mod8 n : PathLenBits n mod 8 = 0.
Proof.
  unfold PathLenBits, int_mul. rewrite to_int_mod8. apply Z.mod_mul. lia.
Qed.

Lemma PathLenBits_max n : PathLenBits n <= max_int - 7.
Proof.
  pose proof (PathLenBits_mod8 n) as Hm.
  pose proof (to_int_range (len (Path n) * 8)) as Hr.
  fold (int_mul (len (Path n)) 8) in Hr. fold (PathLenBits n) in Hr.
  apply Z.mod_divide in Hm; [|lia]. destruct Hm as [q Hq].
  unfold min_int, max_int in *. lia.
Qed.

Lemma PathLenBits_exact n :
  8 * len (Path n) <= max_int -> PathLenBits n = 8 * len (Path n).
Proof.
  intros H. unfold PathLenBits, int_mul. pose proof (len_nonneg (Path n)).
  rewrite to_int_id; unfold min_int, max_int in *; lia.
Qed.

(** ** Slices: when the primitives succeed *)

Lemma make_Some n : 0 <= n -> make n = Some (replicate (Z.to_nat n) 0).
Proof. intros. unfold make. by zb. Qed.

Lemma make_len {A} (s : list A) : make (len s) = Some (replicate (length s) 0).
Proof. rewrite make_Some by apply len_nonneg. unfold len. by rewrite Nat2Z.id. Qed.

Lemma load_nat {A} (s : list A) i : 0 <= i -> load s i = s !! Z.to_nat i.
Proof. intros. unfold load. by zb. Qed.

Lemma store_Some {A} (s : list A) i v :
  0 <= i < len s -> store s i v = Some (<[Z.to_nat i := v]> s).
Proof. intros. unfold store. by zb. Qed.

Lemma slice_Some {A} (s : list A) lo hi :
  0 <= lo <= hi -> hi <= len s ->
  slice s lo hi = Some (take (Z.to_nat (hi - lo)) (drop (Z.to_nat lo) s)).
Proof. intros. unfold slice. by zb. Qed.

Lemma slice_to_Some {A} (s : list A) hi :
  0 <= hi <= len s -> slice_to s hi = Some (take (Z.to_nat hi) s).
Proof.
  intros. unfold slice_to. rewrite slice_Some by lia.
  by rewrite Z.sub_0_r.
Qed.

Lemma slice_from_Some {A} (s : list A) lo :
  0 <= lo <= len s -> slice_from s lo = Some (drop (Z.to_nat lo) s).
Proof.
  intros. unfold slice_from. rewrite slice_Some by lia.
  f_equal. apply take_ge. rewrite length_drop. unfold len in *. lia.
Qed.

Lemma lookup_copy {A} (dst src : list A) (j : nat) :
  copy dst src !! j =
    if decide (j < length dst)%nat
    then (if decide (j < length src)%nat then src !! j else dst !! j)
    else None.
Proof.
  unfold copy. rewrite lookup_app, lookup_take, length_take, lookup_drop.
  repeat case_decide; try lia.
  - destruct (src !! j) eqn:E; [done|]. apply lookup_ge_None in E. lia.
  - rewrite (lookup_ge_None_2 src) by lia. f_equal. lia.
  - apply lookup_ge_None_2. lia.
Qed.

Lemma length_copy {A} (dst src : list A) : length (copy dst src) = length dst.
Proof. unfold copy. rewrite length_app, length_take, length_drop. lia. Qed.

(** ** [MaskLeft] in closed form *)

Lemma bytesForBits_div d : 0 <= d <= max_int - 7 -> bytesForBits d = (d + 7) / 8.
Proof.
  intros. unfold bytesForBits, int_add.
  rewrite to_int_id by (unfold min_int, max_int in *; lia).
  by rewrite Z.shiftr_div_pow2.
Qed.

Lemma MaskLeft_eq n d :
  0 <= d <= PathLenBits n ->
  MaskLeft n d =
    Some {| Path := imap (maskAt d) (Path n);
            PrefixLenBits := Z.min d (PrefixLenBits n) |}.
Proof.
  intros Hd. pose proof (PathLenBits_le n) as Hle.
  pose proof (PathLenBits_max n) as Hmax.
  unfold MaskLeft. rewrite make_len. simpl.
  assert (Hb : (if d <? PrefixLenBits n then d else PrefixLenBits n)
               = Z.min d (PrefixLenBits n)).
  { destruct (Z.ltb_spec d (PrefixLenBits n)); lia. }
  rewrite Hb. clear Hb.
  destruct (Z.ltb_spec 0 d) as [Hpos|Hz].
  - rewrite bytesForBits_div by lia.
    set (k := (d + 7) / 8).
    assert (Hk : 8 * (k - 1) < d <= 8 * k).
    { unfold k. pose proof (Z.div_mod (d + 7) 8 ltac:(lia)).
      pose proof (Z.mod_pos_bound (d + 7) 8 ltac:(lia)). lia. }
    assert (Hkl : 1 <= k <= len (Path n)) by lia.
    rewrite slice_to_Some by lia. simpl.
    assert (Hs : k -! 1 = k - 1).
    { unfold int_sub. apply to_int_id. unfold min_int, max_int in *. lia. }
    rewrite Hs. rewrite (load_nat _ (k - 1)) by lia.
    assert (Hlt : (Z.to_nat (k - 1) < length (Path n))%nat) by (unfold len in *; lia).
    destruct (lookup_lt_is_Some_2 _ _ Hlt) as [x Hx].
    rewrite lookup_copy, length_replicate, length_take.
    rewrite decide_True by lia. rewrite decide_True by lia.
    rewrite lookup_take_lt by lia. rewrite Hx. simpl.
    rewrite Z.rem_mod_nonneg by lia.
    pose proof (Z.mod_pos_bound d 8 ltac:(lia)).
    rewrite load_nat by lia.
    assert (Hm : (Z.to_nat (d mod 8) < length leftmask)%nat) by (simpl; lia).
    destruct (lookup_lt_is_Some_2 _ _ Hm) as [m Hmk].
    rewrite Hmk. simpl.
    rewrite store_Some by (unfold len in *; rewrite length_copy, length_replicate; lia).
    simpl. do 2 f_equal. apply list_eq. intros j.
    rewrite list_lookup_imap, list_lookup_insert, lookup_copy.
    rewrite length_copy, length_replicate, length_take.
    unfold maskAt, mask_of. rewrite Hmk. simpl.
    destruct (decide (Z.to_nat (k - 1) = j)) as [<-|Hne].
    + rewrite decide_True by lia. rewrite Hx. simpl. by zb.
    + rewrite decide_False by tauto.
      destruct (decide (j < length (Path n))%nat) as [Hj|Hj].
      * destruct (lookup_lt_is_Some_2 _ _ Hj) as [y Hy]. rewrite Hy. simpl.
        destruct (decide (j < Z.to_nat k `min` length (Path n))%nat).
        -- rewrite lookup_take_lt by lia. rewrite Hy. f_equal. by zb.
        -- rewrite lookup_replicate_2 by lia. f_equal. by zb.
      * rewrite (lookup_ge_None_2 (Path n)) by lia. done.
  - assert (d = 0) by lia. subst d. simpl. do 2 f_equal.
    apply list_eq. intros j. rewrite list_lookup_imap.
    destruct (decide (j < length (Path n))%nat) as [Hj|Hj].
    + destruct (lookup_lt_is_Some_2 _ _ Hj) as [y Hy]. rewrite Hy. simpl.
      rewrite lookup_replicate_2 by lia. unfold maskAt. by zb.
    + rewrite (lookup_ge_None_2 (Path n)) by lia.
      rewrite lookup_ge_None_2 by (rewrite length_replicate; lia). done.
Qed.

(** ** Bits of bytes and of paths *)

Lemma testbit_byte_high x t : is_byte x -> 8 <= t -> Z.testbit x t = false.
Proof.
  intros [H0 H1] Ht. destruct (Z.eq_dec x 0) as [->|Hx].
  - apply Z.bits_0.
  - apply Z.bits_above_log2; [lia|].
    assert (Z.log2 x < 8); [|lia]. apply Z.log2_lt_pow2; lia.
Qed.

Lemma byte_eq_bits x y :
  is_byte x -> is_byte y ->
  (forall c, 0 <= c < 8 -> Z.testbit x (7 - c) = Z.testbit y (7 - c)) -> x = y.
Proof.
  intros Hx Hy H. apply Z.bits_inj'. intros t Ht.
  destruct (Z.lt_ge_cases t 8).
  - replace t with (7 - (7 - t)) by lia. apply H. lia.
  - by rewrite !testbit_byte_high.
Qed.

Lemma land_is_byte x m : is_byte m -> is_byte (Z.land x m).
Proof.
  intros [H0 H1]. unfold is_byte.
  assert (0 <= Z.land x m) by (apply Z.land_nonneg; lia).
  split; [done|].
  destruct (Z.eq_dec (Z.land x m) 0) as [->|Hne]; [lia|].
  change 256 with (2 ^ 8). apply Z.log2_lt_pow2; [lia|].
  destruct (Z.lt_ge_cases (Z.log2 (Z.land x m)) 8) as [|Hge]; [done|].
  pose proof (Z.bit_log2 (Z.land x m) ltac:(lia)) as Hb.
  rewrite Z.land_spec, (testbit_byte_high m) in Hb by (done || lia).
  by rewrite andb_false_r in Hb.
Qed.

Lemma mask_of_bits r c :
  0 <= r < 8 -> 0 <= c < 8 ->
  Z.testbit (mask_of r) (7 - c) = (r =? 0) || (c <? r).
Proof.
  intros Hr Hc.
  assert (r = 0 \/ r = 1 \/ r = 2 \/ r = 3 \/ r = 4 \/ r = 5 \/ r = 6 \/ r = 7)
    as Er by lia.
  assert (c = 0 \/ c = 1 \/ c = 2 \/ c = 3 \/ c = 4 \/ c = 5 \/ c = 6 \/ c = 7)
    as Ec by lia.
  repeat destruct Er as [->|Er]; try subst r;
    repeat destruct Ec as [->|Ec]; try subst c; reflexivity.
Qed.

Lemma mask_of_is_byte r : is_byte (mask_of r).
Proof.
  unfold mask_of, is_byte.
  destruct (Z.to_nat r) as [|[|[|[|[|[|[|[|k]]]]]]]]; simpl; lia.
Qed.

Lemma mask_of_Some r : 0 <= r < 8 -> load leftmask r = Some (mask_of r).
Proof.
  intros. rewrite load_nat by lia. unfold mask_of.
  assert (Hm : (Z.to_nat r < length leftmask)%nat) by (simpl; lia).
  destruct (lookup_lt_is_Some_2 _ _ Hm) as [m ->]. done.
Qed.

Lemma bitAt_byte p q c :
  0 <= q -> 0 <= c < 8 ->
  bitAt p (8 * q + c) = Z.testbit (default 0 (p !! Z.to_nat q)) (7 - c).
Proof.
  intros Hq Hc. unfold bitAt.
  replace ((8 * q + c) / 8) with q by (apply Z.div_unique with c; lia).
  replace ((8 * q + c) mod 8) with c by (apply Z.mod_unique with q; lia).
  done.
Qed.

Lemma bit_position i :
  0 <= i -> exists q c, i = 8 * q + c /\ 0 <= q /\ 0 <= c < 8.
Proof.
  intros. exists (i / 8), (i mod 8).
  pose proof (Z.div_mod i 8 ltac:(lia)).
  pose proof (Z.mod_pos_bound i 8 ltac:(lia)).
  pose proof (Z.div_pos i 8 ltac:(lia) ltac:(lia)). lia.
Qed.

Lemma bitAt_outside p i : 8 * len p <= i -> bitAt p i = false.
Proof.
  intros Hi. pose proof (len_nonneg p).
  destruct (bit_position i ltac:(lia)) as (q & c & -> & Hq & Hc).
  rewrite bitAt_byte by lia.
  rewrite lookup_ge_None_2 by (unfold len in *; lia). apply Z.bits_0.
Qed.

(** A path of bytes is determined by its bits. *)
Lemma path_eq_bits p q :
  Forall is_byte p -> Forall is_byte q -> length p = length q ->
  agree p q (8 * len p) -> p = q.
Proof.
  intros Hp Hq Hl Ha. apply list_eq_same_length with (length p); [done..|].
  intros j x y Hj Hx Hy.
  apply byte_eq_bits.
  - exact (Forall_lookup_1 _ _ _ _ Hp Hx).
  - exact (Forall_lookup_1 _ _ _ _ Hq Hy).
  - intros c Hc. specialize (Ha (8 * Z.of_nat j + c)).
    rewrite !bitAt_byte, Nat2Z.id, Hx, Hy in Ha by lia.
    apply Ha. unfold len. lia.
Qed.

Lemma maskAt_bits d p i :
  0 <= i -> bitAt (imap (maskAt d) p) i = (i <? d) && bitAt p i.
Proof.
  intros Hi. destruct (bit_position i Hi) as (q & c & -> & Hq & Hc).
  rewrite !bitAt_byte by lia. rewrite list_lookup_imap.
  destruct (p !! Z.to_nat q) as [x|]; simpl.
  2:{ rewrite Z.bits_0. by rewrite andb_false_r. }
  unfold maskAt. rewrite Z2Nat.id by lia.
  destruct (Z.ltb_spec (8 * q + 8) d).
  - by zb.
  - destruct (Z.ltb_spec (8 * q) d).
    + pose proof (Z.mod_pos_bound d 8 ltac:(lia)).
      rewrite Z.land_spec, mask_of_bits by lia.
      rewrite andb_comm. f_equal.
      assert (Hd : d = 8 * q + 8 \/ (d = 8 * q + d mod 8 /\ d mod 8 <> 0)).
      { pose proof (Z.div_mod d 8 ltac:(lia)).
        assert (d / 8 = q \/ d / 8 = q + 1) as [E|E] by lia.
        - right. lia.
        - left. lia. }
      destruct Hd as [Hd|[Hd Hne]].
      * replace (d mod 8) with 0.
        -- simpl. symmetry. apply Z.ltb_lt. lia.
        -- subst d. apply Z.mod_unique with (q + 1); lia.
      * rewrite (proj2 (Z.eqb_neq _ _) Hne). simpl.
        destruct (Z.ltb_spec c (d mod 8)); symmetry;
          [apply Z.ltb_lt | apply Z.ltb_ge]; lia.
    + rewrite Z.bits_0. zb. done.
Qed.

Lemma maskAt_is_byte d j x : is_byte x -> is_byte (maskAt d j x).
Proof.
  intros Hx. unfold maskAt. repeat case_match; try done.
  apply land_is_byte, mask_of_is_byte.
Qed.

Lemma maskAt_bytes d p : Forall is_byte p -> Forall is_byte (imap (maskAt d) p).
Proof.
  intros Hp. apply Forall_lookup_2. intros j y.
  rewrite list_lookup_imap. intros Hy.
  apply fmap_Some in Hy as (x & Hx & ->).
  apply maskAt_is_byte. exact (Forall_lookup_1 _ _ _ _ Hp Hx).
Qed.

Lemma maskAt_idemp d j x : maskAt d j (maskAt d j x) = maskAt d j x.
Proof.
  unfold maskAt. repeat case_match; try done.
  by rewrite <- Z.land_assoc, Z.land_diag.
Qed.

Lemma imap_maskAt_idemp d p :
  imap (maskAt d) (imap (maskAt d) p) = imap (maskAt d) p.
Proof.
  apply list_eq. intros j. rewrite !list_lookup_imap.
  destruct (p !! j); simpl; [|done]. by rewrite maskAt_idemp.
Qed.

(** ** [Neighbor] in closed form *)

Lemma PathLenBits_length n m :
  length (Path n) = length (Path m) -> PathLenBits n = PathLenBits m.
Proof. unfold PathLenBits, len. by intros ->. Qed.

Lemma insert_as_alter {A} (f : A -> A) (l : list A) j x :
  l !! j = Some x -> <[j := f x]> l = alter f j l.
Proof.
  intros Hx. apply list_eq. intros i.
  rewrite list_lookup_insert, list_lookup_alter.
  pose proof (lookup_lt_Some _ _ _ Hx).
  destruct (decide (j = i)) as [<-|].
  - rewrite decide_True by done. by rewrite Hx.
  - by rewrite decide_False by tauto.
Qed.

Lemma last_bit_shift pl d :
  pl mod 8 = 0 -> (pl - d) mod 8 = 7 - (d - 1) mod 8.
Proof.
  intros Hpl.
  pose proof (Z.div_mod pl 8 ltac:(lia)).
  pose proof (Z.div_mod (d - 1) 8 ltac:(lia)).
  pose proof (Z.mod_pos_bound (d - 1) 8 ltac:(lia)).
  symmetry. apply Z.mod_unique with (pl / 8 - (d - 1) / 8 - 1); lia.
Qed.

Lemma Neighbor_eq n d :
  1 <= d <= PathLenBits n -> d <= PrefixLenBits n ->
  Neighbor n d =
    Some {| Path := alter (flip_bit (d - 1)) (Z.to_nat ((d - 1) / 8))
                      (imap (maskAt d) (Path n));
            PrefixLenBits := d |}.
Proof.
  intros Hd HP. pose proof (PathLenBits_le n) as Hle.
  pose proof (PathLenBits_max n) as Hmax.
  pose proof (PathLenBits_mod8 n) as Hm8.
  unfold Neighbor. rewrite MaskLeft_eq by lia. simpl.
  rewrite Z.min_l by lia.
  set (m := {| Path := imap (maskAt d) (Path n); PrefixLenBits := d |}).
  assert (Hpl : PathLenBits m = PathLenBits n).
  { apply PathLenBits_length. simpl. apply length_imap. }
  rewrite Hpl. set (pl := PathLenBits n) in *.
  assert (Hh : pl -! d = pl - d).
  { unfold int_sub. apply to_int_id. unfold min_int, max_int in *. lia. }
  rewrite Hh.
  assert (Hi : pl -! (pl - d) -! 1 = d - 1).
  { unfold int_sub, min_int, max_int in *.
    rewrite (to_int_id (pl - (pl - d))) by (unfold min_int, max_int; lia).
    rewrite to_int_id by (unfold min_int, max_int; lia). lia. }
  rewrite Hi. rewrite Z.quot_div_nonneg by lia.
  pose proof (Z.div_mod (d - 1) 8 ltac:(lia)).
  pose proof (Z.mod_pos_bound (d - 1) 8 ltac:(lia)).
  assert (Hj : 0 <= (d - 1) / 8 < len (Path n)) by lia.
  rewrite load_nat by lia.
  assert (Hlt : (Z.to_nat ((d - 1) / 8) < length (imap (maskAt d) (Path n)))%nat).
  { rewrite length_imap. unfold len in *. lia. }
  destruct (lookup_lt_is_Some_2 _ _ Hlt) as [x Hx]. rewrite Hx. simpl.
  rewrite store_Some by (unfold len in *; rewrite length_imap in *; lia).
  simpl. do 2 f_equal.
  rewrite Z.rem_mod_nonneg by lia.
  rewrite (last_bit_shift pl d Hm8).
  unfold to_uint64. rewrite Z.mod_small by lia.
  unfold shl_byte. zb. rewrite Z.shiftl_1_l.
  unfold to_byte. rewrite Z.mod_small.
  - by apply (insert_as_alter (flip_bit (d - 1))).
  - split; [lia|]. apply Z.pow_lt_mono_r; lia.
Qed.

Lemma flip_bit_bits k l i :
  0 <= i -> 0 <= k -> (Z.to_nat (k / 8) < length l)%nat ->
  bitAt (alter (flip_bit k) (Z.to_nat (k / 8)) l) i
  = xorb (bitAt l i) (i =? k).
Proof.
  intros Hi Hk Hl. destruct (bit_position i Hi) as (q & c & -> & Hq & Hc).
  rewrite !bitAt_byte by lia.
  pose proof (Z.div_mod k 8 ltac:(lia)).
  pose proof (Z.mod_pos_bound k 8 ltac:(lia)).
  rewrite list_lookup_alter.
  destruct (decide (Z.to_nat (k / 8) = Z.to_nat q)) as [E|E].
  - assert (k / 8 = q) by lia. rewrite <- E.
    destruct (lookup_lt_is_Some_2 _ _ Hl) as [x ->]. simpl.
    unfold flip_bit. rewrite Z.lxor_spec, Z.pow2_bits_eqb by lia. f_equal.
    destruct (Z.eqb_spec (7 - k mod 8) (7 - c));
      symmetry; [apply Z.eqb_eq | apply Z.eqb_neq]; lia.
  - assert (k / 8 <> q) by lia.
    rewrite (proj2 (Z.eqb_neq _ _)) by lia. by rewrite xorb_false_r.
Qed.

Lemma last_bit_in_mask d :
  1 <= d -> Z.testbit (mask_of (d mod 8)) (7 - (d - 1) mod 8) = true.
Proof.
  intros Hd.
  pose proof (Z.mod_pos_bound d 8 ltac:(lia)).
  pose proof (Z.mod_pos_bound (d - 1) 8 ltac:(lia)).
  rewrite mask_of_bits by lia.
  destruct (Z.eqb_spec (d mod 8) 0) as [|Hne]; [done|]. simpl.
  apply Z.ltb_lt.
  pose proof (Z.div_mod d 8 ltac:(lia)).
  assert ((d - 1) mod 8 = d mod 8 - 1); [|lia].
  symmetry. apply Z.mod_unique with (d / 8); lia.
Qed.

Lemma flip_mask_flip d x :
  1 <= d ->
  flip_bit (d - 1) (Z.land (flip_bit (d - 1) (Z.land x (mask_of (d mod 8))))
                           (mask_of (d mod 8)))
  = Z.land x (mask_of (d mod 8)).
Proof.
  intros Hd. apply Z.bits_inj'. intros t Ht. unfold flip_bit.
  pose proof (Z.mod_pos_bound (d - 1) 8 ltac:(lia)).
  rewrite Z.lxor_spec, Z.land_spec, Z.lxor_spec, !Z.land_spec.
  rewrite Z.pow2_bits_eqb by lia.
  destruct (Z.eqb_spec (7 - (d - 1) mod 8) t) as [<-|Hne].
  - rewrite last_bit_in_mask by done.
    by destruct (Z.testbit x (7 - (d - 1) mod 8)).
  - destruct (Z.testbit x t), (Z.testbit (mask_of (d mod 8)) t); done.
Qed.

Lemma unflip d p :
  1 <= d ->
  alter (flip_bit (d - 1)) (Z.to_nat ((d - 1) / 8))
    (imap (maskAt d)
       (alter (flip_bit (d - 1)) (Z.to_nat ((d - 1) / 8)) (imap (maskAt d) p)))
  = imap (maskAt d) p.
Proof.
  intros Hd. apply list_eq. intros i.
  pose proof (Z.div_mod (d - 1) 8 ltac:(lia)).
  pose proof (Z.mod_pos_bound (d - 1) 8 ltac:(lia)).
  pose proof (Z.div_pos (d - 1) 8 ltac:(lia) ltac:(lia)).
  destruct (decide (Z.to_nat ((d - 1) / 8) = i)) as [<-|Hne].
  - rewrite list_lookup_alter_eq, list_lookup_imap, list_lookup_alter_eq,
      list_lookup_imap.
    destruct (p !! Z.to_nat ((d - 1) / 8)) as [x|]; simpl; [|done].
    f_equal. unfold maskAt. rewrite Z2Nat.id by lia. zb.
    by apply flip_mask_flip.
  - rewrite list_lookup_alter_ne, list_lookup_imap, list_lookup_alter_ne,
      list_lookup_imap by done.
    destruct (p !! i) as [x|]; simpl; [|done]. by rewrite maskAt_idemp.
Qed.

(** ** [Siblings] *)

Lemma siblings_loop_spec n hs sibs :
  (forall h, h ∈ hs ->
     0 <= h < len sibs /\ is_Some (Neighbor n (PrefixLenBits n -! h))) ->
  exists r,
    siblings_loop n hs sibs = Some r /\ length r = length sibs /\
    (forall j : nat, Z.of_nat j ∈ hs ->
       r !! j = Neighbor n (PrefixLenBits n -! Z.of_nat j)) /\
    (forall j : nat, Z.of_nat j ∉ hs -> r !! j = sibs !! j).
Proof.
  revert sibs. induction hs as [|h rest IH]; intros sibs Hall.
  - exists sibs. simpl. split; [done|]. split; [done|]. split; [|done].
    intros j Hj. by apply elem_of_nil in Hj.
  - destruct (Hall h ltac:(left)) as [Hh [s Hs]].
    simpl. rewrite Hs. simpl. rewrite store_Some by done. simpl.
    destruct (IH (<[Z.to_nat h := s]> sibs)) as (r & Hr & Hlen & Hin & Hout).
    { intros h' Hh'. unfold len. rewrite length_insert. apply Hall. by right. }
    exists r. rewrite length_insert in Hlen.
    split; [done|]. split; [done|]. split.
    + intros j Hj. destruct (decide (Z.of_nat j ∈ rest)) as [Hr'|Hr'].
      * by apply Hin.
      * apply elem_of_cons in Hj as [Hj|Hj]; [|done].
        rewrite Hout by done. subst h. rewrite Nat2Z.id.
        rewrite list_lookup_insert_eq by (unfold len in *; lia). done.
    + intros j Hj. apply not_elem_of_cons in Hj as [Hne Hj].
      rewrite Hout by done. apply list_lookup_insert_ne. lia.
Qed.

Lemma Siblings_spec n :
  0 <= PrefixLenBits n <= PathLenBits n ->
  exists sibs,
    Siblings n = Some sibs /\ len sibs = PrefixLenBits n /\
    forall h, 0 <= h < PrefixLenBits n ->
      sibs !! Z.to_nat h = Neighbor n (PrefixLenBits n - h) /\
      Neighbor n (PrefixLenBits n - h) =
        Some {| Path := alter (flip_bit (PrefixLenBits n - h - 1))
                          (Z.to_nat ((PrefixLenBits n - h - 1) / 8))
                          (imap (maskAt (PrefixLenBits n - h)) (Path n));
                PrefixLenBits := PrefixLenBits n - h |}.
Proof.
  intros HP. pose proof (PathLenBits_max n) as Hmax.
  assert (Hsub : forall h, 0 <= h < PrefixLenBits n ->
            PrefixLenBits n -! h = PrefixLenBits n - h).
  { intros h Hh. unfold int_sub. apply to_int_id.
    unfold min_int, max_int in *. lia. }
  assert (Hnb : forall h, 0 <= h < PrefixLenBits n ->
            Neighbor n (PrefixLenBits n - h) =
              Some {| Path := alter (flip_bit (PrefixLenBits n - h - 1))
                          (Z.to_nat ((PrefixLenBits n - h - 1) / 8))
                          (imap (maskAt (PrefixLenBits n - h)) (Path n));
                      PrefixLenBits := PrefixLenBits n - h |}).
  { intros h Hh. apply Neighbor_eq; lia. }
  unfold Siblings. zb.
  set (sibs0 := replicate (Z.to_nat (PrefixLenBits n))
                  {| Path := []; PrefixLenBits := 0 |}).
  assert (Hl0 : len sibs0 = PrefixLenBits n).
  { unfold len, sibs0. rewrite length_replicate. lia. }
  destruct (siblings_loop_spec n (seqZ 0 (len sibs0)) sibs0)
    as (r & Hr & Hlen & Hin & _).
  { intros h Hh. apply elem_of_seqZ in Hh. split; [lia|].
    rewrite Hsub by lia. rewrite Hnb by lia. eauto. }
  exists r. split; [done|]. split; [unfold len in *; lia|].
  intros h Hh. split; [|by apply Hnb].
  rewrite Hin.
  - rewrite Z2Nat.id by lia. by rewrite Hsub.
  - apply elem_of_seqZ. lia.
Qed.

(** ** Significant bytes and significant bits *)

Lemma bitAt_take p a i :
  0 <= i < 8 * a -> bitAt (take (Z.to_nat a) p) i = bitAt p i.
Proof.
  intros Hi. destruct (bit_position i ltac:(lia)) as (q & c & -> & Hq & Hc).
  rewrite !bitAt_byte by lia. by rewrite lookup_take_lt by lia.
Qed.

Lemma agree_take p q a :
  Forall is_byte p -> Forall is_byte q ->
  0 <= a <= len p -> a <= len q ->
  agree p q (8 * a) <-> take (Z.to_nat a) p = take (Z.to_nat a) q.
Proof.
  intros Hp Hq Ha Ha'. unfold len in *. split.
  - intros Hag. apply path_eq_bits.
    + by apply Forall_take.
    + by apply Forall_take.
    + rewrite !length_take. lia.
    + intros i Hi. unfold len in Hi. rewrite length_take in Hi.
      rewrite !bitAt_take by lia. apply Hag. lia.
  - intros Heq i Hi.
    rewrite <- (bitAt_take p a i), <- (bitAt_take q a i) by lia.
    by rewrite Heq.
Qed.

Lemma agree_partial x y r :
  0 < r < 8 ->
  (forall c, 0 <= c < r -> Z.testbit x (7 - c) = Z.testbit y (7 - c)) <->
  Z.land x (mask_of r) = Z.land y (mask_of r).
Proof.
  intros Hr. split.
  - intros H. apply Z.bits_inj'. intros t Ht. rewrite !Z.land_spec.
    destruct (Z.lt_ge_cases t 8).
    + replace t with (7 - (7 - t)) by lia.
      rewrite mask_of_bits by lia.
      rewrite (proj2 (Z.eqb_neq r 0)) by lia. simpl.
      destruct (Z.ltb_spec (7 - t) r).
      * rewrite H by lia. done.
      * by rewrite !andb_false_r.
    + rewrite (testbit_byte_high (mask_of r)) by (apply mask_of_is_byte || lia).
      by rewrite !andb_false_r.
  - intros H c Hc.
    apply (f_equal (fun z => Z.testbit z (7 - c))) in H.
    rewrite !Z.land_spec, mask_of_bits in H by lia.
    rewrite (proj2 (Z.ltb_lt c r)) in H by lia.
    by rewrite orb_true_r, !andb_true_r in H.
Qed.

Lemma significant_nonpos p k : k <= 0 -> significant p k = [].
Proof.
  intros Hk. unfold significant.
  pose proof (Z.quot_opp_l (- k) 8 ltac:(lia)) as Hq.
  pose proof (Z.rem_opp_l (- k) 8 ltac:(lia)) as Hr.
  rewrite Z.opp_involutive in Hq, Hr.
  pose proof (Z.quot_pos (- k) 8 ltac:(lia) ltac:(lia)).
  pose proof (Z.rem_nonneg (- k) 8 ltac:(lia) ltac:(lia)).
  replace (Z.to_nat (Z.quot k 8)) with 0%nat by lia.
  rewrite (proj2 (Z.ltb_ge 0 (Z.rem k 8))) by lia. done.
Qed.

Lemma significant_pos p k :
  0 <= k ->
  significant p k =
    take (Z.to_nat (k / 8)) p ++
    (if 0 <? k mod 8
     then [Z.land (default 0 (p !! Z.to_nat (k / 8))) (mask_of (k mod 8))]
     else []).
Proof.
  intros. unfold significant.
  by rewrite Z.quot_div_nonneg, Z.rem_mod_nonneg by lia.
Qed.

Lemma agree_significant p q k :
  Forall is_byte p -> Forall is_byte q ->
  k <= 8 * len p -> k <= 8 * len q ->
  agree p q k <-> significant p k = significant q k.
Proof.
  intros Hp Hq Hkp Hkq.
  destruct (Z.le_gt_cases k 0) as [Hk|Hk].
  { rewrite !significant_nonpos by done. split; [done|].
    intros _ i Hi. lia. }
  rewrite !significant_pos by lia.
  pose proof (Z.div_mod k 8 ltac:(lia)) as Hdm.
  pose proof (Z.mod_pos_bound k 8 ltac:(lia)) as Hm.
  pose proof (Z.div_pos k 8 ltac:(lia) ltac:(lia)) as Hd.
  set (a := k / 8) in *. set (r := k mod 8) in *.
  transitivity (agree p q (8 * a) /\
    (forall c, 0 <= c < r ->
       Z.testbit (default 0 (p !! Z.to_nat a)) (7 - c)
       = Z.testbit (default 0 (q !! Z.to_nat a)) (7 - c))).
  - split.
    + intros H. split.
      * intros i Hi. apply H. lia.
      * intros c Hc. rewrite <- !bitAt_byte by lia. apply H. lia.
    + intros [H1 H2] i Hi.
      destruct (Z.lt_ge_cases i (8 * a)); [by apply H1; lia|].
      replace i with (8 * a + (i - 8 * a)) by lia.
      rewrite !bitAt_byte by lia. apply H2. lia.
  - rewrite (agree_take p q a Hp Hq) by lia.
    destruct (Z.ltb_spec 0 r) as [Hr|Hr].
    + rewrite agree_partial by lia. split.
      * by intros [-> ->].
      * intros H. apply app_inj_1 in H as [H1 H2].
        -- split; [done|]. by injection H2.
        -- unfold len in *. rewrite !length_take. lia.
    + rewrite !app_nil_r. split; [by intros [? _]|].
      intros H. split; [done|]. intros c Hc. lia.
Qed.

(** ** [Equivalent] in closed form *)

Lemma Equivalent_eq n m :
  0 <= PrefixLenBits n <= 8 * len (Path n) ->
  0 <= PrefixLenBits m <= 8 * len (Path m) ->
  Equivalent n m =
    Some (bool_decide (PrefixLenBits n = PrefixLenBits m /\
                       significant (Path n) (PrefixLenBits n)
                       = significant (Path m) (PrefixLenBits n))).
Proof.
  intros Hn Hm. unfold Equivalent.
  destruct (Z.eqb_spec (PrefixLenBits n) (PrefixLenBits m)) as [E|E]; simpl.
  2:{ f_equal. symmetry. apply bool_decide_eq_false_2. tauto. }
  rewrite <- E in Hm. set (k := PrefixLenBits n) in *.
  rewrite !significant_pos by lia.
  rewrite Z.quot_div_nonneg, Z.rem_mod_nonneg by lia.
  pose proof (Z.div_mod k 8 ltac:(lia)) as Hdm.
  pose proof (Z.mod_pos_bound k 8 ltac:(lia)) as Hmod.
  pose proof (Z.div_pos k 8 ltac:(lia) ltac:(lia)) as Hd.
  set (a := k / 8) in *. set (r := k mod 8) in *.
  rewrite !slice_to_Some by lia. simpl. unfold bytes_Equal.
  assert (Hlen : length (take (Z.to_nat a) (Path n))
                 = length (take (Z.to_nat a) (Path m))).
  { unfold len in *. rewrite !length_take. lia. }
  destruct (decide (take (Z.to_nat a) (Path n) = take (Z.to_nat a) (Path m)))
    as [Et|Et].
  2:{ rewrite bool_decide_eq_false_2 by done. simpl. f_equal. symmetry.
      apply bool_decide_eq_false_2. intros [_ H].
      apply app_inj_1 in H as [H _]; done. }
  rewrite bool_decide_eq_true_2 by done. simpl.
  destruct (Z.eqb_spec r 0) as [Hr|Hr].
  - f_equal. symmetry. apply bool_decide_eq_true_2.
    rewrite Hr. simpl. by rewrite Et.
  - rewrite mask_of_Some by lia. simpl.
    rewrite !load_nat by lia.
    assert (Hx : (Z.to_nat a < length (Path n))%nat) by (unfold len in *; lia).
    assert (Hy : (Z.to_nat a < length (Path m))%nat) by (unfold len in *; lia).
    destruct (lookup_lt_is_Some_2 _ _ Hx) as [x ->].
    destruct (lookup_lt_is_Some_2 _ _ Hy) as [y ->]. simpl.
    rewrite (proj2 (Z.ltb_lt 0 r)) by lia. f_equal.
    destruct (Z.eqb_spec (Z.land x (mask_of r)) (Z.land y (mask_of r))) as [El|El];
      symmetry.
    + apply bool_decide_eq_true_2. by rewrite Et, El.
    + apply bool_decide_eq_false_2. intros [_ H].
      apply app_inj_2 in H as [_ H]; [|done]. by injection H.
Qed.

(** ** [AsKey] in closed form *)

Lemma append_assoc_s (a b c : string) :
  ((a ++ b) ++ c = a ++ (b ++ c))%string.
Proof. induction a as [|x a IH]; simpl; [done|]. by rewrite IH. Qed.

Lemma append_empty_r (a : string) : (a ++ "")%string = a.
Proof. induction a as [|x a IH]; simpl; [done|]. by rewrite IH. Qed.

Lemma hex_string_app a b :
  hex_string (a ++ b) = (hex_string a ++ hex_string b)%string.
Proof. induction a as [|v a IH]; simpl; [done|]. by rewrite IH. Qed.

Lemma nibble_cases i :
  0 <= i < 16 ->
  i = 0 \/ i = 1 \/ i = 2 \/ i = 3 \/ i = 4 \/ i = 5 \/ i = 6 \/ i = 7 \/
  i = 8 \/ i = 9 \/ i = 10 \/ i = 11 \/ i = 12 \/ i = 13 \/ i = 14 \/ i = 15.
Proof. lia. Qed.

Lemma hex_char_nibble i : 0 <= i < 16 -> hex_char i = Some (hex_digit i).
Proof.
  intros H. apply nibble_cases in H.
  repeat destruct H as [->|H]; try subst i; reflexivity.
Qed.

Lemma hex_digit_inj i j : 0 <= i < 16 -> 0 <= j < 16 -> hex_digit i = hex_digit j -> i = j.
Proof.
  intros Hi Hj. apply nibble_cases in Hi, Hj.
  repeat destruct Hi as [->|Hi]; try subst i;
    repeat destruct Hj as [->|Hj]; try subst j;
    (reflexivity || (intros H; discriminate H)).
Qed.

Lemma byte_nibbles v :
  is_byte v ->
  0 <= Z.shiftr v 4 < 16 /\ 0 <= Z.land v 0x0f < 16 /\
  v = 16 * Z.shiftr v 4 + Z.land v 0x0f.
Proof.
  intros [H0 H1]. rewrite Z.shiftr_div_pow2 by lia.
  change 0x0f with (Z.ones 4). rewrite Z.land_ones by lia.
  change (2 ^ 4) with 16.
  pose proof (Z.div_mod v 16 ltac:(lia)).
  pose proof (Z.mod_pos_bound v 16 ltac:(lia)).
  pose proof (Z.div_pos v 16 ltac:(lia) ltac:(lia)).
  assert (v / 16 < 16) by (apply Z.div_lt_upper_bound; lia). lia.
Qed.

Lemma hex_Encode_bytes l :
  Forall is_byte l -> hex_Encode l = Some (hex_string l).
Proof.
  induction 1 as [|v l Hv Hl IH]; simpl; [done|].
  destruct (byte_nibbles v Hv) as (Hhi & Hlo & _).
  rewrite !hex_char_nibble by done. simpl. by rewrite IH.
Qed.

Lemma hex_string_inj l1 l2 :
  Forall is_byte l1 -> Forall is_byte l2 ->
  hex_string l1 = hex_string l2 -> l1 = l2.
Proof.
  intros H1. revert l2. induction H1 as [|v l1 Hv Hl IH]; intros l2 H2 Heq.
  - destruct l2; [done|discriminate].
  - destruct H2 as [|w l2 Hw Hl2]; [discriminate|].
    simpl in Heq. injection Heq as Ehi Elo Erest.
    destruct (byte_nibbles v Hv) as (? & ? & Ev).
    destruct (byte_nibbles w Hw) as (? & ? & Ew).
    apply hex_digit_inj in Ehi; [|done..].
    apply hex_digit_inj in Elo; [|done..].
    f_equal; [lia|]. by apply IH.
Qed.

Lemma uint_colon_free d : colon_free (NilEmpty.string_of_uint d).
Proof. induction d; simpl; (done || (split; [discriminate|done])). Qed.

Lemma Itoa_colon_free z : colon_free (Itoa z).
Proof.
  unfold Itoa. destruct (Z.to_int z) as [d|d]; simpl.
  - destruct d; simpl; try (split; [discriminate|]); try apply uint_colon_free; done.
  - split; [discriminate|].
    destruct d; simpl; try (split; [discriminate|]); try apply uint_colon_free; done.
Qed.

Lemma Itoa_inj a b : Itoa a = Itoa b -> a = b.
Proof.
  unfold Itoa. intros H. apply DecimalZ.to_int_inj.
  assert (Hnn : forall z, Z.to_int z <> Decimal.Pos Decimal.Nil /\
                          Z.to_int z <> Decimal.Neg Decimal.Nil).
  { intros [|q|q]; simpl; split; try discriminate;
      intros [= E]; by apply DecimalPos.Unsigned.to_uint_nonnil in E. }
  destruct (Hnn a), (Hnn b).
  apply (f_equal NilZero.int_of_string) in H.
  rewrite !NilZero.isi in H by done. by injection H.
Qed.

Lemma colon_split s1 s2 t1 t2 :
  colon_free s1 -> colon_free s2 ->
  (s1 ++ String ":" t1 = s2 ++ String ":" t2)%string -> s1 = s2 /\ t1 = t2.
Proof.
  revert s2. induction s1 as [|c s1 IH]; intros [|c' s2]; simpl.
  - intros _ _ [= ->]. done.
  - intros _ [Hc _] [= E _]. by destruct Hc.
  - intros [Hc _] _ [= E _]. by destruct Hc.
  - intros [_ H1] [_ H2] [= -> E].
    destruct (IH s2 H1 H2 E) as [-> ->]. done.
Qed.

Lemma AsKey_eq n :
  Forall is_byte (Path n) -> PrefixLenBits n <= 8 * len (Path n) ->
  AsKey n = Some (Itoa (PrefixLenBits n) ++
                  String ":" (hex_string (significant (Path n) (PrefixLenBits n))))%string.
Proof.
  intros Hb Hk. unfold AsKey. set (k := PrefixLenBits n) in *.
  destruct (Z.le_gt_cases k 0) as [Hneg|Hpos].
  { rewrite significant_nonpos by done.
    pose proof (Z.quot_opp_l (- k) 8 ltac:(lia)) as Hq.
    pose proof (Z.rem_opp_l (- k) 8 ltac:(lia)) as Hr.
    rewrite Z.opp_involutive in Hq, Hr.
    pose proof (Z.quot_pos (- k) 8 ltac:(lia) ltac:(lia)).
    pose proof (Z.rem_nonneg (- k) 8 ltac:(lia) ltac:(lia)).
    rewrite (proj2 (Z.ltb_ge 0 (Z.quot k 8))) by lia.
    rewrite (proj2 (Z.ltb_ge 0 (Z.rem k 8))) by lia. done. }
  rewrite significant_pos by lia.
  rewrite Z.quot_div_nonneg, Z.rem_mod_nonneg by lia.
  pose proof (Z.div_mod k 8 ltac:(lia)) as Hdm.
  pose proof (Z.mod_pos_bound k 8 ltac:(lia)) as Hmod.
  pose proof (Z.div_pos k 8 ltac:(lia) ltac:(lia)) as Hd.
  set (a := k / 8) in *. set (r := k mod 8) in *.
  assert (Hfull :
    (if 0 <? a
     then src ← slice_to (Path n) a; buf ← hex_Encode src;
          Some ((Itoa k ++ ":") ++ buf)%string
     else Some (Itoa k ++ ":")%string)
    = Some (Itoa k ++ String ":" (hex_string (take (Z.to_nat a) (Path n))))%string).
  { destruct (Z.ltb_spec 0 a).
    - rewrite slice_to_Some by lia. simpl.
      rewrite hex_Encode_bytes by by apply Forall_take. simpl.
      by rewrite append_assoc_s.
    - replace (Z.to_nat a) with 0%nat by lia. done. }
  rewrite Hfull. simpl.
  destruct (Z.ltb_spec 0 r) as [Hr|Hr].
  - rewrite mask_of_Some by lia. rewrite load_nat by lia.
    assert (Hx : (Z.to_nat a < length (Path n))%nat) by (unfold len in *; lia).
    destruct (lookup_lt_is_Some_2 _ _ Hx) as [x ->]. simpl.
    assert (Hbits : is_byte (Z.land x (mask_of r)))
      by apply land_is_byte, mask_of_is_byte.
    destruct (byte_nibbles _ Hbits) as (Hhi & Hlo & _).
    rewrite !hex_char_nibble by done. simpl.
    rewrite append_assoc_s. simpl. by rewrite hex_string_app.
  - by rewrite app_nil_r.
Qed.

(** ** [Split] and [NewNodeIDFromPrefixSuffix] in closed form *)

Lemma copy_same_length {A} (dst src : list A) :
  length dst = length src -> copy dst src = src.
Proof.
  intros H. unfold copy. rewrite H, take_ge, drop_ge by lia.
  apply app_nil_r.
Qed.

Lemma copy_zeros_prefix (L : nat) (prefix : list Z) :
  (length prefix <= L)%nat ->
  copy (replicate L 0) prefix = prefix ++ replicate (L - length prefix) 0.
Proof.
  intros H. unfold copy. rewrite length_replicate, take_ge by lia.
  by rewrite drop_replicate.
Qed.

Lemma Prefix_eq n pb :
  PrefixLenBits n <> 0 -> 0 <= pb <= len (Path n) ->
  Prefix n pb = Some (take (Z.to_nat pb) (Path n)).
Proof.
  intros HP Hpb. unfold Prefix. zb.
  rewrite make_Some, slice_to_Some by lia. simpl. f_equal.
  apply copy_same_length. rewrite length_replicate, length_take.
  unfold len in *. lia.
Qed.

Lemma suffix_mask ml :
  1 <= ml <= 8 ->
  shl_byte (to_byte (shl_byte 0x01 (to_uint64 ml) - 1)) (to_uint64 (8 -! ml))
  = mask_of (ml mod 8).
Proof.
  intros H.
  assert (ml = 1 \/ ml = 2 \/ ml = 3 \/ ml = 4 \/ ml = 5 \/ ml = 6 \/ ml = 7 \/ ml = 8)
    as E by lia.
  repeat destruct E as [->|E]; try subst ml; reflexivity.
Qed.

Lemma Suffix_eq n pb sb :
  8 * len (Path n) <= max_int ->
  0 <= pb -> 8 * pb < PrefixLenBits n <= 8 * len (Path n) ->
  PrefixLenBits n - 8 * pb <= sb -> PrefixLenBits n - 8 * pb <= 255 ->
  Suffix n pb sb =
    Some {| bits := PrefixLenBits n - 8 * pb;
            path := alter (fun x => Z.land x (mask_of (PrefixLenBits n mod 8)))
                      (Z.to_nat ((PrefixLenBits n - 8 * pb - 1) / 8))
                      (take (Z.to_nat ((PrefixLenBits n - 8 * pb + 7) / 8))
                         (drop (Z.to_nat pb) (Path n))) |}.
Proof.
  intros Hal Hpb HP Hsb H255. pose proof (len_nonneg (Path n)) as Hlen.
  unfold Suffix. zb.
  assert (Hb : PrefixLenBits n -! pb *! 8 = PrefixLenBits n - 8 * pb).
  { unfold int_sub, int_mul.
    rewrite (to_int_id (pb * 8)) by (unfold min_int, max_int in *; lia).
    rewrite to_int_id by (unfold min_int, max_int in *; lia). lia. }
  rewrite Hb. set (b := PrefixLenBits n - 8 * pb) in *. zb.
  rewrite bytesForBits_div by (unfold max_int; lia).
  assert (Hb1 : b -! 1 = b - 1).
  { unfold int_sub. apply to_int_id. unfold min_int, max_int. lia. }
  rewrite Hb1. rewrite Z.quot_div_nonneg, Z.rem_mod_nonneg by lia.
  pose proof (Z.div_mod (b - 1) 8 ltac:(lia)) as Hdm.
  pose proof (Z.mod_pos_bound (b - 1) 8 ltac:(lia)) as Hmod.
  pose proof (Z.div_pos (b - 1) 8 ltac:(lia) ltac:(lia)) as Hdiv.
  assert (Hsb' : (b + 7) / 8 = (b - 1) / 8 + 1).
  { symmetry. apply Z.div_unique with ((b - 1) mod 8); lia. }
  rewrite Hsb'. set (q := (b - 1) / 8) in *.
  assert (Hml : (b - 1) mod 8 +! 1 = (b - 1) mod 8 + 1).
  { unfold int_add. apply to_int_id. unfold min_int, max_int. lia. }
  rewrite Hml. rewrite suffix_mask by lia.
  assert (Hmm : ((b - 1) mod 8 + 1) mod 8 = PrefixLenBits n mod 8).
  { rewrite Z.add_mod_idemp_l by lia. replace (b - 1 + 1) with b by lia.
    unfold b. replace (PrefixLenBits n - 8 * pb)
      with (PrefixLenBits n + (- pb) * 8) by lia.
    apply Z.mod_add. lia. }
  rewrite Hmm.
  rewrite make_Some by lia. simpl.
  assert (Hps : pb +! (q + 1) = pb + (q + 1)).
  { unfold int_add. apply to_int_id. unfold min_int, max_int in *. lia. }
  rewrite Hps. rewrite slice_Some by lia. simpl.
  replace (pb + (q + 1) - pb) with (q + 1) by lia.
  rewrite copy_same_length.
  2:{ rewrite length_replicate, length_take, length_drop. unfold len in *. lia. }
  set (src := take (Z.to_nat (q + 1)) (drop (Z.to_nat pb) (Path n))).
  assert (Hsl : length src = Z.to_nat (q + 1)).
  { unfold src. rewrite length_take, length_drop. unfold len in *. lia. }
  rewrite load_nat by lia.
  assert (Hx : (Z.to_nat q < length src)%nat) by lia.
  destruct (lookup_lt_is_Some_2 _ _ Hx) as [x Ex]. rewrite Ex. simpl.
  rewrite store_Some by (unfold len; lia). simpl.
  unfold NewSuffix, to_byte. rewrite Z.mod_small by lia.
  do 2 f_equal.
  by apply (insert_as_alter (fun x => Z.land x (mask_of (PrefixLenBits n mod 8)))).
Qed.

Lemma NewNodeIDFromPrefixSuffix_eq prefix sfx maxPathBits :
  0 <= maxPathBits -> len prefix <= maxPathBits / 8 ->
  NewNodeIDFromPrefixSuffix prefix sfx maxPathBits =
    Some {| Path := prefix ++
                    copy (replicate (Z.to_nat (maxPathBits / 8) - length prefix) 0)
                         (path sfx);
            PrefixLenBits := len prefix *! 8 +! bits sfx |}.
Proof.
  intros Hm Hp. pose proof (len_nonneg prefix).
  unfold NewNodeIDFromPrefixSuffix.
  rewrite Z.quot_div_nonneg by lia.
  rewrite make_Some by lia. simpl.
  rewrite copy_zeros_prefix by (unfold len in *; lia).
  unfold copy_from. rewrite slice_from_Some.
  2:{ unfold len in *. rewrite length_app, length_replicate. lia. }
  simpl. unfold len. rewrite Nat2Z.id.
  by rewrite take_app_length, drop_app_length.
Qed.

Lemma split_join_eq n pb sb :
  8 * len (Path n) <= max_int ->
  PrefixLenBits n = 0 \/
    (0 <= pb /\ 8 * pb < PrefixLenBits n <= 8 * len (Path n) /\
     PrefixLenBits n - 8 * pb <= sb /\ PrefixLenBits n - 8 * pb <= 255) ->
  split_join n pb sb =
    Some {| Path := imap (maskAt (PrefixLenBits n)) (Path n);
            PrefixLenBits := PrefixLenBits n |}.
Proof.
  intros Hal Hcase. pose proof (len_nonneg (Path n)) as Hlen.
  unfold split_join. rewrite (PathLenBits_exact n Hal).
  assert (Hq : 8 * len (Path n) / 8 = len (Path n)).
  { rewrite Z.mul_comm. apply Z.div_mul. lia. }
  destruct Hcase as [Hz|(Hpb & HP & Hsb & H255)].
  - unfold Split. rewrite Hz. simpl.
    rewrite NewNodeIDFromPrefixSuffix_eq by (unfold len in *; simpl; lia).
    rewrite Hq. simpl. do 2 f_equal.
    apply list_eq. intros j. rewrite lookup_copy, list_lookup_imap.
    rewrite length_replicate. unfold len. rewrite Nat2Z.id, Nat.sub_0_r. simpl.
    destruct (decide (j < length (Path n))%nat) as [Hj|Hj].
    + destruct (lookup_lt_is_Some_2 _ _ Hj) as [y ->]. simpl.
      unfold maskAt. zb. case_decide.
      * by replace j with 0%nat by lia.
      * by rewrite lookup_replicate_2.
    + by rewrite (lookup_ge_None_2 (Path n)) by lia.
  - unfold Split.
    rewrite (proj2 (Z.eqb_neq (PrefixLenBits n) 0)) by lia.
    rewrite Prefix_eq by lia. simpl.
    rewrite Suffix_eq by done. simpl.
    set (b := PrefixLenBits n - 8 * pb) in *.
    pose proof (Z.div_mod (b - 1) 8 ltac:(lia)) as Hdm.
    pose proof (Z.mod_pos_bound (b - 1) 8 ltac:(lia)) as Hmod.
    pose proof (Z.div_pos (b - 1) 8 ltac:(lia) ltac:(lia)) as Hdiv.
    assert (Hsb' : (b + 7) / 8 = (b - 1) / 8 + 1).
    { symmetry. apply Z.div_unique with ((b - 1) mod 8); lia. }
    rewrite Hsb'. set (q := (b - 1) / 8) in *.
    assert (Hlt : (length (take (Z.to_nat pb) (Path n)) = Z.to_nat pb)).
    { rewrite length_take. unfold len in *. lia. }
    rewrite NewNodeIDFromPrefixSuffix_eq.
    2: lia.
    2:{ rewrite Hq. unfold len in *. lia. }
    rewrite Hq. simpl. f_equal.
    assert (HPl : len (take (Z.to_nat pb) (Path n)) *! 8 +! b = PrefixLenBits n).
    { unfold len. rewrite Hlt. unfold int_add, int_mul.
      rewrite (to_int_id (_ * 8)) by (unfold min_int, max_int in *; lia).
      rewrite to_int_id by (unfold min_int, max_int in *; lia). lia. }
    rewrite HPl. f_equal.
    apply list_eq. intros j. rewrite list_lookup_imap.
    rewrite lookup_app, lookup_take, Hlt.
    destruct (decide (j < Z.to_nat pb)%nat) as [Hj|Hj].
    + assert (Hjl : (j < length (Path n))%nat) by (unfold len in *; lia).
      destruct (lookup_lt_is_Some_2 _ _ Hjl) as [y ->]. simpl.
      f_equal. unfold maskAt. by zb.
    + rewrite lookup_copy, length_replicate, length_alter, length_take, length_drop.
      unfold len. rewrite Nat2Z.id.
      destruct (decide (j < length (Path n))%nat) as [Hjl|Hjl].
      2:{ rewrite decide_False by lia.
          by rewrite (lookup_ge_None_2 (Path n)) by lia. }
      rewrite decide_True by lia.
      destruct (lookup_lt_is_Some_2 _ _ Hjl) as [y Ey]. rewrite Ey. simpl.
      case_decide as Hin.
      * assert (Hsrc : take (Z.to_nat (q + 1)) (drop (Z.to_nat pb) (Path n))
                         !! (j - Z.to_nat pb)%nat = Some y).
        { rewrite lookup_take_lt, lookup_drop by lia. rewrite <- Ey. f_equal. lia. }
        destruct (decide (Z.to_nat q = (j - Z.to_nat pb)%nat)) as [Hjq|Hjq].
        -- rewrite Hjq, list_lookup_alter_eq, Hsrc. simpl. f_equal.
           assert (Z.of_nat j = pb + q) by lia. unfold maskAt. by zb.
        -- rewrite list_lookup_alter_ne, Hsrc by done. f_equal.
           assert (Z.of_nat j < pb + q) by lia. unfold maskAt. by zb.
      * rewrite lookup_replicate_2 by lia. f_equal.
        unfold len in *. unfold maskAt. by zb.
Qed.

(** ** [Bit] and the bits of a path *)

(** [Bit] counts from the least significant end of the whole buffer:
    [Bit(i)] is the bit at position [PathLenBits() - 1 - i] from the most
    significant end. *)
Lemma Bit_bitAt n i :
  0 <= i < PathLenBits n ->
  Bit n i = Some (Z.b2z (bitAt (Path n) (PathLenBits n - 1 - i))).
Proof.
  intros Hi. pose proof (PathLenBits_le n) as Hle.
  pose proof (PathLenBits_max n) as Hmax.
  pose proof (PathLenBits_mod8 n) as Hm8.
  unfold Bit. set (pl := PathLenBits n) in *.
  assert (E1 : pl -! 1 = pl - 1).
  { unfold int_sub. apply to_int_id. unfold min_int, max_int in *. lia. }
  assert (E2 : pl -! i -! 1 = pl - 1 - i).
  { unfold int_sub.
    rewrite (to_int_id (pl - i)) by (unfold min_int, max_int in *; lia).
    rewrite to_int_id by (unfold min_int, max_int in *; lia). lia. }
  rewrite E1, E2. rewrite (proj2 (Z.ltb_ge (pl - 1) i)) by lia.
  rewrite Z.quot_div_nonneg, Z.rem_mod_nonneg by lia.
  pose proof (Z.div_mod (pl - 1 - i) 8 ltac:(lia)) as Hdm.
  pose proof (Z.mod_pos_bound (pl - 1 - i) 8 ltac:(lia)) as Hmod.
  pose proof (Z.div_pos (pl - 1 - i) 8 ltac:(lia) ltac:(lia)) as Hdiv.
  pose proof (Z.mod_pos_bound i 8 ltac:(lia)) as Hi8.
  rewrite load_nat by lia.
  assert (Hlt : (Z.to_nat ((pl - 1 - i) / 8) < length (Path n))%nat)
    by (unfold len in *; lia).
  destruct (lookup_lt_is_Some_2 _ _ Hlt) as [x Hx]. rewrite Hx. simpl.
  f_equal. unfold bitAt. rewrite Hx. simpl.
  assert (Hsh : 7 - (pl - 1 - i) mod 8 = i mod 8).
  { pose proof (last_bit_shift pl (pl - i) Hm8) as H.
    replace (pl - (pl - i)) with i in H by lia.
    replace (pl - i - 1) with (pl - 1 - i) in H by lia. lia. }
  rewrite Hsh. unfold to_uint64. rewrite (Z.mod_small (i mod 8)) by lia.
  unfold shr_byte. rewrite (proj2 (Z.leb_gt 8 (i mod 8))) by lia.
  change 1 with (Z.ones 1). rewrite Z.land_ones by lia. change (2 ^ 1) with 2.
  rewrite Z.shiftr_div_pow2 by lia. symmetry. apply Z.testbit_spec'. lia.
Qed.

(** ** Properties of masked identifiers *)

Lemma NodeID_eq n m :
  Path n = Path m -> PrefixLenBits n = PrefixLenBits m -> n = m.
Proof. destruct n, m. simpl. by intros -> ->. Qed.

Lemma masked_agree d p : agree (imap (maskAt d) p) p d.
Proof.
  intros i Hi. rewrite maskAt_bits by lia.
  by rewrite (proj2 (Z.ltb_lt i d)) by lia.
Qed.

Lemma masked_zero_from d p : 0 <= d -> zero_from (imap (maskAt d) p) d.
Proof.
  intros Hd i Hi. rewrite maskAt_bits by lia.
  by rewrite (proj2 (Z.ltb_ge i d)) by lia.
Qed.

Lemma masked_fixpoint d p :
  Forall is_byte p -> 0 <= d -> zero_from p d -> imap (maskAt d) p = p.
Proof.
  intros Hp Hd Hz. apply path_eq_bits.
  - by apply maskAt_bytes.
  - done.
  - apply length_imap.
  - intros i Hi. rewrite maskAt_bits by lia.
    destruct (Z.ltb_spec i d); [done|]. simpl. symmetry. by apply Hz.
Qed.

Lemma masked_same d p q :
  Forall is_byte p -> Forall is_byte q -> length p = length q -> 0 <= d ->
  agree p q d -> imap (maskAt d) p = imap (maskAt d) q.
Proof.
  intros Hp Hq Hl Hd Ha. apply path_eq_bits.
  - by apply maskAt_bytes.
  - by apply maskAt_bytes.
  - by rewrite !length_imap.
  - intros i Hi. rewrite !maskAt_bits by lia.
    destruct (Z.ltb_spec i d); [|done]. simpl. apply Ha. lia.
Qed.

Lemma masked_tail_zero d p (j : nat) x :
  (d + 7) / 8 <= Z.of_nat j -> imap (maskAt d) p !! j = Some x -> x = 0.
Proof.
  intros Hj. rewrite list_lookup_imap. intros Hx.
  apply fmap_Some in Hx as (y & _ & ->).
  pose proof (Z.div_mod (d + 7) 8 ltac:(lia)).
  pose proof (Z.mod_pos_bound (d + 7) 8 ltac:(lia)).
  unfold maskAt. by zb.
Qed.

(** C3 (amended): for every identifier [n] and depth [0 <= d <=
    n.PathLenBits()], [MaskLeft] is idempotent:
    [n.MaskLeft(d).MaskLeft(d)] equals [n.MaskLeft(d)].  For
    [0 <= PrefixLenBits <= PathLenBits()], [n.MaskLeft(n.PrefixLenBits)]
    returns an identifier [Equivalent] to [n], with the same
    [PrefixLenBits] and the same [Path] length, whose bits beyond
    [PrefixLenBits] are all zero; it is equal to [n] exactly when the bits
    of [n] beyond [PrefixLenBits] are already zero. *)
Theorem C3_MaskLeft_idempotent n d :
  Forall is_byte (Path n) ->
  0 <= d <= PathLenBits n ->
  (exists m, MaskLeft n d = Some m /\ MaskLeft m d = Some m) /\
  (0 <= PrefixLenBits n <= PathLenBits n ->
   exists m, MaskLeft n (PrefixLenBits n) = Some m /\
     PrefixLenBits m = PrefixLenBits n /\
     length (Path m) = length (Path n) /\
     Equivalent m n = Some true /\
     zero_from (Path m) (PrefixLenBits n) /\
     (m = n <-> zero_from (Path n) (PrefixLenBits n))).
Proof.
  intros Hb Hd. split.
  - eexists. split; [by apply MaskLeft_eq|].
    rewrite MaskLeft_eq.
    + simpl. rewrite imap_maskAt_idemp. do 2 f_equal. lia.
    + rewrite (PathLenBits_length _ n); [done|]. simpl. apply length_imap.
  - intros HP. pose proof (PathLenBits_le n) as Hle.
    eexists. split; [by apply MaskLeft_eq|]. simpl.
    rewrite Z.min_id.
    split; [done|]. split; [apply length_imap|]. split; [|split].
    + rewrite Equivalent_eq; simpl.
      * f_equal. apply bool_decide_eq_true_2. split; [done|].
        apply agree_significant.
        -- by apply maskAt_bytes.
        -- done.
        -- unfold len. rewrite length_imap. fold (len (Path n)). lia.
        -- lia.
        -- apply masked_agree.
      * unfold len. rewrite length_imap. fold (len (Path n)). lia.
      * lia.
    + apply masked_zero_from. lia.
    + split.
      * intros <-. simpl. apply masked_zero_from. lia.
      * intros Hz. apply NodeID_eq; simpl; [|done].
        apply masked_fixpoint; [done|lia|done].
Qed.

(** C3, witness: masking the nine-bit identifier [ab|ff] to 9 bits. *)
Lemma C3_MaskLeft_idempotent_witness :
  Forall is_byte [0xAB; 0xFF] /\
  0 <= 9 <= PathLenBits {| Path := [0xAB; 0xFF]; PrefixLenBits := 9 |} /\
  (exists m, MaskLeft {| Path := [0xAB; 0xFF]; PrefixLenBits := 9 |} 9 = Some m /\
             MaskLeft m 9 = Some m).
Proof.
  assert (Hb : Forall is_byte [0xAB; 0xFF])
    by (repeat constructor; unfold is_byte; lia).
  assert (Hd : 0 <= 9 <= PathLenBits {| Path := [0xAB; 0xFF]; PrefixLenBits := 9 |})
    by (vm_compute; split; discriminate).
  split; [exact Hb|]. split; [exact Hd|].
  exact (proj1 (C3_MaskLeft_idempotent
                  {| Path := [0xAB; 0xFF]; PrefixLenBits := 9 |} 9 Hb Hd)).
Defined.

(** C3, counterexample to the claim as stated: on the four-bit identifier
    with path [ff], [MaskLeft(PrefixLenBits)] clears the padding and so
    returns an identifier that is not equal to the receiver. *)
Lemma C3_MaskLeft_noop_counterexample :
  0 <= 4 <= PathLenBits {| Path := [0xFF]; PrefixLenBits := 4 |} /\
  MaskLeft {| Path := [0xFF]; PrefixLenBits := 4 |} 4
    = Some {| Path := [0xF0]; PrefixLenBits := 4 |} /\
  MaskLeft {| Path := [0xFF]; PrefixLenBits := 4 |} 4
    <> Some {| Path := [0xFF]; PrefixLenBits := 4 |}.
Proof.
  split; [vm_compute; split; discriminate|].
  split; [reflexivity|]. vm_compute. discriminate.
Qed.

(** C10 (amended): for every identifier [n] and depth [0 <= d <=
    n.PathLenBits()], [n.MaskLeft(d)] keeps the length of [Path] and is
    canonical beyond the kept prefix: every bit at position [>= d] is zero
    and every byte past the first [ceil(d/8)] bytes is zero.  Any two
    identifiers with [Path]s of the same length and the same
    [PrefixLenBits = d] that agree on their first [d] bits have
    byte-identical [Path]s after [MaskLeft(d)]. *)
Theorem C10_MaskLeft_canonical n n' d :
  0 <= d <= PathLenBits n ->
  exists m, MaskLeft n d = Some m /\
    length (Path m) = length (Path n) /\
    zero_from (Path m) d /\
    (forall (j : nat) x,
       (d + 7) / 8 <= Z.of_nat j -> Path m !! j = Some x -> x = 0) /\
    (Forall is_byte (Path n) -> Forall is_byte (Path n') ->
     length (Path n') = length (Path n) ->
     PrefixLenBits n = d -> PrefixLenBits n' = d ->
     agree (Path n) (Path n') d ->
     exists m', MaskLeft n' d = Some m' /\ Path m' = Path m).
Proof.
  intros Hd. eexists. split; [by apply MaskLeft_eq|]. simpl.
  split; [apply length_imap|]. split; [apply masked_zero_from; lia|].
  split; [apply masked_tail_zero|].
  intros Hb Hb' Hl _ _ Ha. eexists. split.
  - apply MaskLeft_eq. by rewrite (PathLenBits_length n' n).
  - simpl. symmetry. apply masked_same; [done..|lia|done].
Qed.

(** C10, witness. *)
Lemma C10_MaskLeft_canonical_witness :
  0 <= 9 <= PathLenBits {| Path := [0xAB; 0xFF]; PrefixLenBits := 9 |} /\
  exists m, MaskLeft {| Path := [0xAB; 0xFF]; PrefixLenBits := 9 |} 9 = Some m /\
    zero_from (Path m) 9.
Proof.
  assert (Hd : 0 <= 9 <= PathLenBits {| Path := [0xAB; 0xFF]; PrefixLenBits := 9 |})
    by (vm_compute; split; discriminate).
  split; [exact Hd|].
  destruct (C10_MaskLeft_canonical
              {| Path := [0xAB; 0xFF]; PrefixLenBits := 9 |}
              {| Path := [0xAB; 0x80]; PrefixLenBits := 9 |} 9 Hd)
    as (m & Hm & _ & Hz & _).
  exists m. split; [exact Hm | exact Hz].
Defined.

(** C10, counterexample to the claim as stated: two identifiers with
    [PrefixLenBits = 8] and the same first 8 bits, but [Path]s of one and
    two bytes, keep different [Path]s under [MaskLeft(8)]. *)
Lemma C10_MaskLeft_length_counterexample :
  PrefixLenBits {| Path := [0xAB]; PrefixLenBits := 8 |}
    = PrefixLenBits {| Path := [0xAB; 0x00]; PrefixLenBits := 8 |} /\
  agree [0xAB] [0xAB; 0x00] 8 /\
  MaskLeft {| Path := [0xAB]; PrefixLenBits := 8 |} 8
    = Some {| Path := [0xAB]; PrefixLenBits := 8 |} /\
  MaskLeft {| Path := [0xAB; 0x00]; PrefixLenBits := 8 |} 8
    = Some {| Path := [0xAB; 0x00]; PrefixLenBits := 8 |} /\
  [0xAB] <> [0xAB; 0x00].
Proof.
  split; [reflexivity|]. split.
  - intros i Hi.
    assert (i = 0 \/ i = 1 \/ i = 2 \/ i = 3 \/ i = 4 \/ i = 5 \/ i = 6 \/ i = 7)
      as E by lia.
    repeat destruct E as [->|E]; try subst i; reflexivity.
  - split; [reflexivity|]. split; [reflexivity|]. discriminate.
Qed.

(** ** Neighbours and siblings *)

(** C4: for every identifier [n] and depth [1 <= d <= min(PrefixLenBits,
    PathLenBits())], [Neighbor] at depth [d] returns [n.MaskLeft(d)] with
    exactly the bit at position [d - 1] (counted from the most significant
    end) flipped, and applying [Neighbor] at depth [d] to that result gives
    back [n.MaskLeft(d)]. *)
Theorem C4_Neighbor_involution n d :
  1 <= d <= Z.min (PrefixLenBits n) (PathLenBits n) ->
  exists m s,
    MaskLeft n d = Some m /\ Neighbor n d = Some s /\
    Neighbor s d = Some m /\
    PrefixLenBits s = PrefixLenBits m /\
    length (Path s) = length (Path m) /\
    Path s = alter (flip_bit (d - 1)) (Z.to_nat ((d - 1) / 8)) (Path m) /\
    forall i, 0 <= i -> bitAt (Path s) i = xorb (bitAt (Path m) i) (i =? d - 1).
Proof.
  intros Hd. pose proof (PathLenBits_le n) as Hle.
  eexists _, _. split; [apply MaskLeft_eq; lia|].
  split; [apply Neighbor_eq; lia|]. simpl.
  rewrite Z.min_l by lia.
  pose proof (Z.div_mod (d - 1) 8 ltac:(lia)).
  pose proof (Z.mod_pos_bound (d - 1) 8 ltac:(lia)).
  split; [|split; [done|split; [by rewrite length_alter|split; [done|]]]].
  - rewrite Neighbor_eq; simpl.
    + by rewrite unflip by lia.
    + rewrite (PathLenBits_length _ n); [lia|].
      simpl. by rewrite length_alter, length_imap.
    + lia.
  - intros i Hi. apply flip_bit_bits; [done|lia|].
    rewrite length_imap. unfold len in *. lia.
Qed.

(** C4, witness: the sibling at depth 10 of a 12-bit identifier. *)
Lemma C4_Neighbor_involution_witness :
  1 <= 10 <= Z.min 12 (PathLenBits {| Path := [0xAB; 0xCD]; PrefixLenBits := 12 |}) /\
  exists m s,
    MaskLeft {| Path := [0xAB; 0xCD]; PrefixLenBits := 12 |} 10 = Some m /\
    Neighbor {| Path := [0xAB; 0xCD]; PrefixLenBits := 12 |} 10 = Some s /\
    Neighbor s 10 = Some m.
Proof.
  assert (Hd : 1 <= 10 <=
            Z.min (PrefixLenBits {| Path := [0xAB; 0xCD]; PrefixLenBits := 12 |})
                  (PathLenBits {| Path := [0xAB; 0xCD]; PrefixLenBits := 12 |}))
    by (vm_compute; split; discriminate).
  split; [exact Hd|].
  destruct (C4_Neighbor_involution
              {| Path := [0xAB; 0xCD]; PrefixLenBits := 12 |} 10 Hd)
    as (m & s & Hm & Hs & Hss & _).
  exists m, s. split; [exact Hm|]. split; [exact Hs | exact Hss].
Defined.

(** C5 (amended): for every identifier [n] with [0 <= PrefixLenBits <=
    PathLenBits()], [Siblings()] returns a sequence of length exactly
    [PrefixLenBits], whose element at index [h] is
    [n.Neighbor(PrefixLenBits - h)] (leaf to root); when the sequence is not
    empty, its first element has the [PrefixLenBits] and [Path] length of
    [n] and carries the significant bits of [n] with only the last one,
    at position [PrefixLenBits - 1], flipped.  Its bits beyond
    [PrefixLenBits] are zero whatever those of [n] are, so it is [n] with
    that single bit flipped exactly when the padding of [n] is zero. *)
Theorem C5_Siblings n :
  0 <= PrefixLenBits n <= PathLenBits n ->
  exists sibs,
    Siblings n = Some sibs /\
    len sibs = PrefixLenBits n /\
    (forall h, 0 <= h < PrefixLenBits n ->
       exists s, sibs !! Z.to_nat h = Some s /\
                 Neighbor n (PrefixLenBits n - h) = Some s) /\
    (1 <= PrefixLenBits n ->
       exists s0, sibs !! 0%nat = Some s0 /\
         PrefixLenBits s0 = PrefixLenBits n /\
         length (Path s0) = length (Path n) /\
         (forall i, 0 <= i < PrefixLenBits n ->
            bitAt (Path s0) i
            = xorb (bitAt (Path n) i) (i =? PrefixLenBits n - 1)) /\
         zero_from (Path s0) (PrefixLenBits n) /\
         (Forall is_byte (Path n) ->
          (zero_from (Path n) (PrefixLenBits n) <->
           Path s0 = alter (flip_bit (PrefixLenBits n - 1))
                       (Z.to_nat ((PrefixLenBits n - 1) / 8)) (Path n)))).
Proof.
  intros HP. pose proof (PathLenBits_le n) as Hle.
  destruct (Siblings_spec n HP) as (sibs & Hs & Hl & Hel).
  exists sibs. split; [done|]. split; [done|]. split.
  - intros h Hh. destruct (Hel h Hh) as [E1 E2].
    eexists. rewrite E1. split; exact E2.
  - intros H1. destruct (Hel 0 ltac:(lia)) as [E1 E2].
    rewrite Z.sub_0_r in E1, E2. rewrite E2 in E1.
    eexists. split; [exact E1|]. simpl.
    split; [done|]. split; [by rewrite length_alter, length_imap|].
    pose proof (Z.div_mod (PrefixLenBits n - 1) 8 ltac:(lia)).
    pose proof (Z.mod_pos_bound (PrefixLenBits n - 1) 8 ltac:(lia)).
    assert (Hlt : (Z.to_nat ((PrefixLenBits n - 1) / 8)
                   < length (imap (maskAt (PrefixLenBits n)) (Path n)))%nat).
    { rewrite length_imap. unfold len in *. lia. }
    assert (Hz0 : zero_from
                    (alter (flip_bit (PrefixLenBits n - 1))
                       (Z.to_nat ((PrefixLenBits n - 1) / 8))
                       (imap (maskAt (PrefixLenBits n)) (Path n)))
                    (PrefixLenBits n)).
    { intros i Hi. rewrite flip_bit_bits by (done || lia).
      rewrite masked_zero_from by lia.
      by rewrite (proj2 (Z.eqb_neq i (PrefixLenBits n - 1))) by lia. }
    split; [|split; [done|]].
    + intros i Hi. rewrite flip_bit_bits by (done || lia).
      f_equal. apply masked_agree. lia.
    + intros Hb. split.
      * intros Hz. by rewrite masked_fixpoint by (done || lia).
      * intros E i Hi. rewrite E in Hz0. specialize (Hz0 i Hi).
        rewrite length_imap in Hlt.
        rewrite flip_bit_bits in Hz0 by (done || lia).
        rewrite (proj2 (Z.eqb_neq i (PrefixLenBits n - 1))) in Hz0 by lia.
        by rewrite xorb_false_r in Hz0.
Qed.

(** C5, witness: the siblings of a 12-bit identifier. *)
Lemma C5_Siblings_witness :
  0 <= 12 <= PathLenBits {| Path := [0xAB; 0xCD]; PrefixLenBits := 12 |} /\
  exists sibs,
    Siblings {| Path := [0xAB; 0xCD]; PrefixLenBits := 12 |} = Some sibs /\
    len sibs = 12.
Proof.
  assert (HP : 0 <= PrefixLenBits {| Path := [0xAB; 0xCD]; PrefixLenBits := 12 |}
               <= PathLenBits {| Path := [0xAB; 0xCD]; PrefixLenBits := 12 |})
    by (vm_compute; split; discriminate).
  split; [exact HP|].
  destruct (C5_Siblings {| Path := [0xAB; 0xCD]; PrefixLenBits := 12 |} HP)
    as (sibs & Hs & Hl & _).
  exists sibs. split; [exact Hs | exact Hl].
Defined.

(** C5, counterexample to the last clause as stated: on the four-bit
    identifier with path [ff], the first sibling has path [e0]; it differs
    from the identifier in the final significant bit, position 3, and in
    the four padding bits as well. *)
Lemma C5_Siblings_counterexample :
  PrefixLenBits {| Path := [0xFF]; PrefixLenBits := 4 |}
    <= 8 * len (Path {| Path := [0xFF]; PrefixLenBits := 4 |}) /\
  Siblings {| Path := [0xFF]; PrefixLenBits := 4 |}
    = Some [ {| Path := [0xE0]; PrefixLenBits := 4 |};
             {| Path := [0xC0]; PrefixLenBits := 3 |};
             {| Path := [0x80]; PrefixLenBits := 2 |};
             {| Path := [0x00]; PrefixLenBits := 1 |} ] /\
  List.filter (fun i => xorb (bitAt [0xE0] i) (bitAt [0xFF] i)) (seqZ 0 8)
    = [3; 4; 5; 6; 7].
Proof. split; [vm_compute; discriminate|]. split; reflexivity. Qed.

(** ** Equivalence and keys *)

(** C8: for identifiers [n] and [m] of 8-bit bytes with [0 <=
    PrefixLenBits <= 8*len(Path)], [Equivalent] returns, and returns true
    if and only if both have the same [PrefixLenBits] and the same bits in
    positions [[0, PrefixLenBits)]; it is reflexive, symmetric, and does
    not depend on the bits beyond [PrefixLenBits]. *)
Theorem C8_Equivalent n m :
  Forall is_byte (Path n) -> Forall is_byte (Path m) ->
  0 <= PrefixLenBits n <= 8 * len (Path n) ->
  0 <= PrefixLenBits m <= 8 * len (Path m) ->
  (exists b, Equivalent n m = Some b /\
     (b = true <->
      PrefixLenBits n = PrefixLenBits m /\
      agree (Path n) (Path m) (PrefixLenBits n))) /\
  Equivalent n n = Some true /\
  Equivalent m n = Equivalent n m /\
  (forall n', Forall is_byte (Path n') ->
     PrefixLenBits n' = PrefixLenBits n ->
     PrefixLenBits n' <= 8 * len (Path n') ->
     agree (Path n') (Path n) (PrefixLenBits n) ->
     Equivalent n' m = Equivalent n m).
Proof.
  intros Hbn Hbm Hn Hm. split; [|split; [|split]].
  - eexists. split; [by apply Equivalent_eq|].
    rewrite bool_decide_eq_true. split.
    + intros [E Hs]. split; [done|]. apply agree_significant; [done..|lia|lia|done].
    + intros [E Ha]. split; [done|]. apply agree_significant; [done..|lia|lia|done].
  - rewrite Equivalent_eq by done. f_equal. by apply bool_decide_eq_true_2.
  - rewrite !Equivalent_eq by done. f_equal. apply bool_decide_ext.
    split; intros [E Hs]; (split; [done|]); congruence.
  - intros n' Hb' E Hle Ha.
    rewrite !Equivalent_eq by (done || lia). f_equal.
    rewrite E. apply bool_decide_ext.
    apply agree_significant in Ha; [|done|done|lia|lia].
    by rewrite Ha.
Qed.

(** C8, witness: two nine-bit identifiers that differ in padding only. *)
Lemma C8_Equivalent_witness :
  Forall is_byte [0xAB; 0xFF] /\ Forall is_byte [0xAB; 0x80; 0x07] /\
  Equivalent {| Path := [0xAB; 0xFF]; PrefixLenBits := 9 |}
             {| Path := [0xAB; 0x80; 0x07]; PrefixLenBits := 9 |}
  = Equivalent {| Path := [0xAB; 0x80; 0x07]; PrefixLenBits := 9 |}
               {| Path := [0xAB; 0xFF]; PrefixLenBits := 9 |}.
Proof.
  assert (Hn : Forall is_byte [0xAB; 0xFF])
    by (repeat constructor; unfold is_byte; lia).
  assert (Hm : Forall is_byte [0xAB; 0x80; 0x07])
    by (repeat constructor; unfold is_byte; lia).
  split; [exact Hn|]. split; [exact Hm|].
  refine (proj1 (proj2 (proj2
    (C8_Equivalent {| Path := [0xAB; 0x80; 0x07]; PrefixLenBits := 9 |}
                   {| Path := [0xAB; 0xFF]; PrefixLenBits := 9 |}
                   Hm Hn _ _)))); vm_compute; split; discriminate.
Defined.

(** C9: for identifiers [n] and [m] of 8-bit bytes with [PrefixLenBits <=
    8*len(Path)], [AsKey] returns, and the keys are equal if and only if
    both have the same [PrefixLenBits] and the same bits in positions
    [[0, PrefixLenBits)].  The key is the decimal [PrefixLenBits], a colon,
    and the lower-case hex of the significant bytes: the full bytes and, if
    [PrefixLenBits] is not a multiple of 8, the partial byte under its
    mask; for [PrefixLenBits = 9] and [Path = [ab, c0]] it is ["9:ab80"]. *)
Theorem C9_AsKey n m :
  Forall is_byte (Path n) -> Forall is_byte (Path m) ->
  PrefixLenBits n <= 8 * len (Path n) ->
  PrefixLenBits m <= 8 * len (Path m) ->
  exists kn km,
    AsKey n = Some kn /\ AsKey m = Some km /\
    (kn = km <->
     PrefixLenBits n = PrefixLenBits m /\
     agree (Path n) (Path m) (PrefixLenBits n)) /\
    kn = (Itoa (PrefixLenBits n) ++ ":" ++
          hex_string (significant (Path n) (PrefixLenBits n)))%string /\
    AsKey {| Path := [0xAB; 0xC0]; PrefixLenBits := 9 |} = Some "9:ab80"%string.
Proof.
  intros Hbn Hbm Hn Hm. eexists _, _.
  split; [by apply AsKey_eq|]. split; [by apply AsKey_eq|].
  split; [|split; reflexivity].
  assert (Hsig : forall (p : list Z) k,
            Forall is_byte p -> Forall is_byte (significant p k)).
  { intros p k Hp. unfold significant. apply Forall_app. split.
    - by apply Forall_take.
    - case_match; [|constructor].
      constructor; [apply land_is_byte, mask_of_is_byte | constructor]. }
  split.
  - intros Heq. apply colon_split in Heq as [Ek Eh]; [|apply Itoa_colon_free..].
    apply Itoa_inj in Ek. split; [done|].
    apply hex_string_inj in Eh; [|by apply Hsig..].
    apply agree_significant; [done..|lia|]. by rewrite Eh, Ek.
  - intros [E Ha]. apply agree_significant in Ha; [|done|done|lia|lia].
    by rewrite <- E, Ha.
Qed.

(** C9, witness: the keys of two nine-bit identifiers that differ in
    padding only. *)
Lemma C9_AsKey_witness :
  Forall is_byte [0xAB; 0xFF] /\ Forall is_byte [0xAB; 0x80; 0x07] /\
  exists kn km,
    AsKey {| Path := [0xAB; 0xFF]; PrefixLenBits := 9 |} = Some kn /\
    AsKey {| Path := [0xAB; 0x80; 0x07]; PrefixLenBits := 9 |} = Some km.
Proof.
  assert (Hn : Forall is_byte [0xAB; 0xFF])
    by (repeat constructor; unfold is_byte; lia).
  assert (Hm : Forall is_byte [0xAB; 0x80; 0x07])
    by (repeat constructor; unfold is_byte; lia).
  split; [exact Hn|]. split; [exact Hm|].
  assert (H1 : PrefixLenBits {| Path := [0xAB; 0xFF]; PrefixLenBits := 9 |}
               <= 8 * len (Path {| Path := [0xAB; 0xFF]; PrefixLenBits := 9 |}))
    by (vm_compute; discriminate).
  assert (H2 : PrefixLenBits {| Path := [0xAB; 0x80; 0x07]; PrefixLenBits := 9 |}
               <= 8 * len (Path {| Path := [0xAB; 0x80; 0x07]; PrefixLenBits := 9 |}))
    by (vm_compute; discriminate).
  destruct (C9_AsKey {| Path := [0xAB; 0xFF]; PrefixLenBits := 9 |}
                     {| Path := [0xAB; 0x80; 0x07]; PrefixLenBits := 9 |}
                     Hn Hm H1 H2) as (kn & km & E1 & E2 & _).
  exists kn, km. split; [exact E1 | exact E2].
Defined.

(** ** The round trip through [Split] *)

(** C1 (amended): for every identifier [n] of 8-bit bytes whose buffer
    length in bits fits an [int], and [prefixBytes], [suffixBits] with
    either [PrefixLenBits = 0], or [0 <= prefixBytes],
    [8*prefixBytes < PrefixLenBits <= 8*len(Path)] and
    [PrefixLenBits - 8*prefixBytes <= min(suffixBits, 255)]:
    [Split(prefixBytes, suffixBits)] followed by
    [NewNodeIDFromPrefixSuffix] with [maxPathBits = n.PathLenBits()]
    returns an identifier with the [PrefixLenBits] and the [Path] length
    of [n], the bits of [n] in positions [[0, PrefixLenBits)] and zero
    bits from [PrefixLenBits] on; it is [n] itself exactly when the bits
    of [n] from [PrefixLenBits] on are zero. *)
Theorem C1_split_join n prefixBytes suffixBits :
  Forall is_byte (Path n) -> 8 * len (Path n) <= max_int ->
  PrefixLenBits n = 0 \/
    (0 <= prefixBytes /\
     8 * prefixBytes < PrefixLenBits n <= 8 * len (Path n) /\
     PrefixLenBits n - 8 * prefixBytes <= suffixBits /\
     PrefixLenBits n - 8 * prefixBytes <= 255) ->
  exists m,
    split_join n prefixBytes suffixBits = Some m /\
    PrefixLenBits m = PrefixLenBits n /\
    length (Path m) = length (Path n) /\
    agree (Path m) (Path n) (PrefixLenBits n) /\
    zero_from (Path m) (PrefixLenBits n) /\
    (m = n <-> zero_from (Path n) (PrefixLenBits n)).
Proof.
  intros Hb Hal Hcase.
  assert (HP : 0 <= PrefixLenBits n) by lia.
  eexists. split; [by apply split_join_eq|]. simpl.
  split; [done|]. split; [apply length_imap|].
  split; [apply masked_agree|]. split; [by apply masked_zero_from|].
  split.
  - intros <-. simpl. by apply masked_zero_from.
  - intros Hz. apply NodeID_eq; simpl; [|done]. by apply masked_fixpoint.
Qed.

(** C1, witness: splitting a nine-bit identifier after its first byte. *)
Lemma C1_split_join_witness :
  Forall is_byte [0xAB; 0xFF] /\
  exists m,
    split_join {| Path := [0xAB; 0xFF]; PrefixLenBits := 9 |} 1 8 = Some m /\
    PrefixLenBits m = 9.
Proof.
  assert (Hb : Forall is_byte [0xAB; 0xFF])
    by (repeat constructor; unfold is_byte; lia).
  split; [exact Hb|].
  destruct (C1_split_join {| Path := [0xAB; 0xFF]; PrefixLenBits := 9 |} 1 8 Hb)
    as (m & Hm & HP & _).
  - vm_compute. discriminate.
  - right. vm_compute. repeat split; discriminate.
  - exists m. split; [exact Hm | exact HP].
Defined.

(** C1, counterexample to the claim as stated.  The nine-bit identifier
    with path [ab ff] satisfies [PrefixLenBits >= 8*prefixBytes] for
    [prefixBytes = 1], and the round trip returns path [ab 80]: the padding
    is not restored.  With [PrefixLenBits = 8*prefixBytes > 0], with fewer
    [suffixBits] than remaining bits, and with a negative [prefixBytes],
    [Split] panics; with 256 remaining bits the bit count of the suffix
    wraps around to 0. *)
Lemma C1_split_join_counterexample :
  PrefixLenBits {| Path := [0xAB; 0xFF]; PrefixLenBits := 9 |} >= 8 * 1 /\
  split_join {| Path := [0xAB; 0xFF]; PrefixLenBits := 9 |} 1 8
    = Some {| Path := [0xAB; 0x80]; PrefixLenBits := 9 |} /\
  split_join {| Path := [0xAB; 0xFF]; PrefixLenBits := 9 |} 1 8
    <> Some {| Path := [0xAB; 0xFF]; PrefixLenBits := 9 |} /\
  Split {| Path := [0xAB; 0xFF]; PrefixLenBits := 8 |} 1 8 = None /\
  Split {| Path := [0xAB; 0xFF]; PrefixLenBits := 16 |} 1 4 = None /\
  Split {| Path := [0xAB; 0xFF]; PrefixLenBits := 16 |} (-1) 64 = None /\
  split_join {| Path := replicate 32 0; PrefixLenBits := 256 |} 0 256
    = Some {| Path := replicate 32 0; PrefixLenBits := 0 |}.
Proof.
  split; [vm_compute; discriminate|]. split; [reflexivity|].
  split; [vm_compute; discriminate|]. repeat split; reflexivity.
Qed.

(** ** Tree coordinates *)

(** C7: the tree-coordinate constructions of the documentation: leaf 19 of
    a 16-level tree, the rightmost node at level 2 of that tree, leaf 95 of
    an 8-level tree and its ancestor two levels up. *)
Theorem C7_tree_coords_examples :
  NewNodeIDForTreeCoords 0 19 16
    = Some ({| Path := [0x00; 0x13]; PrefixLenBits := 16 |}, nil_error) /\
  NewNodeIDForTreeCoords 2 16383 16
    = Some ({| Path := [0xFF; 0xFC]; PrefixLenBits := 14 |}, nil_error) /\
  NewNodeIDForTreeCoords 0 95 8
    = Some ({| Path := [0x5F]; PrefixLenBits := 8 |}, nil_error) /\
  NewNodeIDForTreeCoords 2 23 8
    = Some ({| Path := [0x5C]; PrefixLenBits := 6 |}, nil_error).
Proof. repeat split; reflexivity. Qed.

(** ** The constructors and the invariant [PrefixLenBits <= 8*len(Path)] *)

Lemma coords_loop_length k u p : length (coords_loop k u p) = length p.
Proof.
  revert u p. induction k as [|i IH]; intros u p; simpl; [done|].
  destruct (0 <? u); [|done]. by rewrite IH, length_insert.
Qed.

Lemma word_loop_length j d i p :
  length (word_loop j d i p).1.2 = length p.
Proof.
  revert d i p. induction j as [|j IH]; intros d i p; cbn [word_loop]; [done|].
  destruct (i -! 1 <? 0); cbn [fst snd]; [done|]. by rewrite IH, length_insert.
Qed.

Lemma words_loop_length ws i p : length (words_loop ws i p) = length p.
Proof.
  revert i p. induction ws as [|d ws IH]; intros i p; cbn [words_loop]; [done|].
  pose proof (word_loop_length 8 d i p) as Hl.
  destruct (word_loop 8 d i p) as [[i' p'] [|]]; cbn [fst snd] in *; [done|].
  by rewrite IH.
Qed.

Lemma copy_from_length {A} (dst : list A) lo src r :
  copy_from dst lo src = Some r -> length r = length dst.
Proof.
  unfold copy_from, slice_from, slice.
  destruct ((0 <=? lo) && (lo <=? len dst) && (len dst <=? len dst)) eqn:E;
    simpl; [|done].
  intros [= <-].
  apply andb_true_iff in E as [E _]. apply andb_true_iff in E as [E1 E2].
  apply Z.leb_le in E1, E2. unfold len in *.
  rewrite length_app, length_take, length_copy, length_take, !length_drop. lia.
Qed.

Lemma make_inv n p : make n = Some p -> 0 <= n /\ p = replicate (Z.to_nat n) 0.
Proof.
  unfold make. destruct (Z.ltb_spec n 0); [done|]. by intros [= <-].
Qed.

Lemma quot8_exact z : Z.rem z 8 = 0 -> 8 * Z.quot z 8 = z.
Proof. intros H. pose proof (Z.quot_rem' z 8). lia. Qed.

Lemma Len64_nonneg x : 0 <= Len64 x.
Proof.
  unfold Len64. destruct (x =? 0); [done|].
  pose proof (Z.log2_nonneg x). lia.
Qed.

Lemma NewNodeIDFromHash_invariant h :
  PrefixLenBits (NewNodeIDFromHash h) <= 8 * len (Path (NewNodeIDFromHash h)).
Proof.
  simpl. unfold int_mul. pose proof (len_nonneg h).
  pose proof (to_int_le (len h * 8)). lia.
Qed.

Lemma NewNodeIDForTreeCoords_invariant depth index maxPathBits n e :
  min_int <= depth <= max_int -> min_int <= maxPathBits <= max_int ->
  NewNodeIDForTreeCoords depth index maxPathBits = Some (n, e) ->
  0 <= PrefixLenBits n <= 8 * len (Path n).
Proof.
  intros Hd Hm. unfold NewNodeIDForTreeCoords.
  destruct ((index <? 0) || (depth <? 0)
            || (maxPathBits -! depth <? Len64 (to_uint64 index))
            || negb (Z.rem maxPathBits 8 =? 0)) eqn:G.
  - intros [= <- _]. simpl. unfold len. simpl. lia.
  - apply orb_false_iff in G as [G G4]. apply orb_false_iff in G as [G G3].
    apply orb_false_iff in G as [G1 G2].
    apply Z.ltb_ge in G2, G3. apply negb_false_iff, Z.eqb_eq in G4.
    destruct (make (Z.quot maxPathBits 8)) as [p|] eqn:Ep; simpl; [|done].
    intros [= <- _]. simpl.
    apply make_inv in Ep as [Hq ->].
    pose proof (quot8_exact _ G4). pose proof (Len64_nonneg (to_uint64 index)).
    unfold len. rewrite coords_loop_length, length_replicate.
    assert (maxPathBits -! depth = maxPathBits - depth) as E.
    { unfold int_sub. apply to_int_id. unfold min_int, max_int in *. lia. }
    rewrite E in *. lia.
Qed.

Lemma NewNodeIDFromBigInt_shape depth index totalDepth n :
  NewNodeIDFromBigInt depth index totalDepth = Some n ->
  8 * len (Path n) = totalDepth /\ PrefixLenBits n = depth.
Proof.
  unfold NewNodeIDFromBigInt.
  destruct (Z.eqb_spec (Z.rem totalDepth 8) 0) as [Hr|]; simpl; [|done].
  destruct (totalDepth =? 0); [done|].
  destruct (make (Z.quot totalDepth 8)) as [p|] eqn:Ep; simpl; [|done].
  intros [= <-]. simpl. apply make_inv in Ep as [Hq ->].
  unfold len. rewrite words_loop_length, length_replicate.
  pose proof (quot8_exact _ Hr). lia.
Qed.

Lemma NewNodeIDFromPrefix_shape prefix depth index subDepth totalDepth n :
  NewNodeIDFromPrefix prefix depth index subDepth totalDepth = Some n ->
  8 * len (Path n) = totalDepth /\
  PrefixLenBits n = len prefix *! 8 +! depth.
Proof.
  unfold NewNodeIDFromPrefix.
  destruct (Z.eqb_spec (Z.rem totalDepth 8) 0) as [Hr|]; simpl; [|done].
  destruct (Z.rem totalDepth 8 <? 0); [done|].
  destruct (negb (Z.rem subDepth 8 =? 0) || (Z.rem subDepth 8 <? 0)); [done|].
  destruct (depth <? 0); [done|].
  destruct (make (Z.quot totalDepth 8)) as [p|] eqn:Ep; simpl; [|done].
  destruct (slice_from _ _) as [src|]; simpl; [|done].
  destruct (copy_from _ _ _) as [r|] eqn:Er; simpl; [|done].
  intros [= <-]. simpl. apply make_inv in Ep as [Hq ->].
  apply copy_from_length in Er.
  unfold len at 1. rewrite Er, length_copy, length_replicate.
  pose proof (quot8_exact _ Hr). lia.
Qed.

Lemma NewNodeIDFromPrefixSuffix_shape prefix sfx maxPathBits n :
  NewNodeIDFromPrefixSuffix prefix sfx maxPathBits = Some n ->
  len (Path n) = Z.quot maxPathBits 8 /\
  PrefixLenBits n = len prefix *! 8 +! bits sfx.
Proof.
  unfold NewNodeIDFromPrefixSuffix.
  destruct (make (Z.quot maxPathBits 8)) as [p|] eqn:Ep; simpl; [|done].
  destruct (copy_from _ _ _) as [r|] eqn:Er; simpl; [|done].
  intros [= <-]. simpl. apply make_inv in Ep as [Hq ->].
  apply copy_from_length in Er.
  unfold len at 1. rewrite Er, length_copy, length_replicate. lia.
Qed.

(** ** [NewNodeIDForTreeCoords] *)

Lemma coords_loop_lookup k u p (j : nat) :
  0 <= u -> (k <= length p)%nat ->
  (forall i : nat, (i < k)%nat -> p !! i = Some 0) ->
  coords_loop k u p !! j =
    if decide (j < k)%nat
    then Some ((u / 256 ^ Z.of_nat (k - 1 - j)) mod 256)
    else p !! j.
Proof.
  revert u p. induction k as [|i IH]; intros u p Hu Hk Hz; cbn [coords_loop].
  - by rewrite decide_False by lia.
  - destruct (Z.ltb_spec 0 u) as [Hpos|Hzero].
    + rewrite IH.
      * destruct (decide (j < i)%nat) as [Hj|Hj].
        -- rewrite decide_True by lia. f_equal.
           rewrite Z.shiftr_div_pow2 by lia. change (2 ^ 8) with 256.
           rewrite Z.div_div by lia. do 2 f_equal.
           replace (Z.of_nat (S i - 1 - j)) with (Z.succ (Z.of_nat (i - 1 - j))) by lia.
           rewrite Z.pow_succ_r by lia. done.
        -- destruct (decide (j = i)) as [->|Hne].
           ++ rewrite decide_True by lia.
              rewrite list_lookup_insert_eq by lia. f_equal.
              replace (S i - 1 - i)%nat with 0%nat by lia.
              change (256 ^ Z.of_nat 0) with 1. rewrite Z.div_1_r.
              change 255 with (Z.ones 8). by rewrite Z.land_ones by lia.
           ++ rewrite decide_False by lia. apply list_lookup_insert_ne. lia.
      * rewrite Z.shiftr_div_pow2 by lia. apply Z.div_pos; lia.
      * rewrite length_insert. lia.
      * intros i' Hi'. rewrite list_lookup_insert_ne by lia. apply Hz. lia.
    + assert (u = 0) as -> by lia.
      destruct (decide (j < S i)%nat) as [Hj|Hj]; [|done].
      rewrite Hz by lia. by rewrite Z.div_0_l, Z.mod_0_l by lia.
Qed.

Lemma coords_loop_big_endian (L : nat) u :
  0 <= u -> coords_loop L u (replicate L 0) = big_endian L u.
Proof.
  intros Hu. apply list_eq. intros j.
  rewrite coords_loop_lookup.
  - unfold big_endian. rewrite list_lookup_fmap.
    destruct (decide (j < L)%nat) as [Hj|Hj].
    + by rewrite lookup_seq_lt by done.
    + rewrite lookup_seq_ge by lia.
      apply lookup_ge_None_2. rewrite length_replicate. lia.
  - done.
  - by rewrite length_replicate.
  - intros i Hi. by apply lookup_replicate_2.
Qed.

Lemma Len64_bound x : 0 <= x -> x < 2 ^ Len64 x.
Proof.
  intros Hx. unfold Len64. destruct (Z.eqb_spec x 0) as [->|Hne]; [done|].
  replace (Z.log2 x + 1) with (Z.succ (Z.log2 x)) by lia.
  apply Z.log2_spec. lia.
Qed.

(** Where the shifted index fits 64 bits, [NewNodeIDForTreeCoords]
    succeeds on the inputs the documentation allows and returns the index
    shifted left by [depth], big-endian, right-aligned. *)
Lemma NewNodeIDForTreeCoords_fits depth index maxPathBits :
  0 <= depth <= max_int -> 0 <= index <= max_int -> maxPathBits <= max_int ->
  maxPathBits mod 8 = 0 ->
  Len64 index <= maxPathBits - depth ->
  Len64 index + depth <= 64 ->
  NewNodeIDForTreeCoords depth index maxPathBits =
    Some ({| Path := big_endian (Z.to_nat (maxPathBits / 8)) (index * 2 ^ depth);
             PrefixLenBits := maxPathBits - depth |}, nil_error).
Proof.
  intros Hd Hi Hm Hm8 Hbl Hfit.
  pose proof (Len64_nonneg index) as Hl0.
  pose proof (Len64_bound index ltac:(lia)) as Hlb.
  assert (Hu : to_uint64 index = index).
  { unfold to_uint64. apply Z.mod_small. unfold max_int in *. lia. }
  assert (Hs : maxPathBits -! depth = maxPathBits - depth).
  { unfold int_sub. apply to_int_id. unfold min_int, max_int in *. lia. }
  assert (Hr : Z.rem maxPathBits 8 = 0).
  { rewrite Z.rem_mod_nonneg; lia. }
  unfold NewNodeIDForTreeCoords. rewrite Hu, Hs, Hr.
  rewrite (proj2 (Z.ltb_ge index 0)) by lia.
  rewrite (proj2 (Z.ltb_ge depth 0)) by lia.
  rewrite (proj2 (Z.ltb_ge (maxPathBits - depth) (Len64 index))) by lia.
  cbn [orb negb Z.eqb].
  rewrite Z.quot_div_nonneg by lia.
  pose proof (Z.div_pos maxPathBits 8 ltac:(lia) ltac:(lia)).
  rewrite make_Some by lia. cbn [mbind option_bind].
  rewrite length_replicate.
  assert (Hshift : shl_uint64 index (to_uint64 depth) = index * 2 ^ depth).
  { unfold to_uint64. rewrite (Z.mod_small depth) by (unfold max_int in *; lia).
    unfold shl_uint64. destruct (Z.leb_spec 64 depth) as [Hge|Hlt].
    - assert (Len64 index = 0) as E by lia.
      rewrite E in Hlb. change (2 ^ 0) with 1 in Hlb. lia.
    - rewrite Z.shiftl_mul_pow2 by lia. apply Z.mod_small.
      split; [apply Z.mul_nonneg_nonneg; lia|].
      apply Z.lt_le_trans with (2 ^ Len64 index * 2 ^ depth).
      + apply Z.mul_lt_mono_pos_r; lia.
      + rewrite <- Z.pow_add_r by lia. apply Z.pow_le_mono_r; lia. }
  rewrite Hshift. rewrite coords_loop_big_endian; [done|].
  apply Z.mul_nonneg_nonneg; lia.
Qed.

(** On [int64] arguments whose difference [maxPathBits - depth] does not
    wrap around, the error is returned exactly on the inputs the
    documentation rules out. *)
Lemma NewNodeIDForTreeCoords_error depth index maxPathBits :
  min_int <= depth <= max_int -> min_int <= index <= max_int ->
  min_int <= maxPathBits - depth <= max_int ->
  NewNodeIDForTreeCoords depth index maxPathBits
    = Some ({| Path := []; PrefixLenBits := 0 |}, Errorf depth index maxPathBits)
  <-> (depth < 0 \/ index < 0 \/ maxPathBits mod 8 <> 0 \/
       Len64 index > maxPathBits - depth).
Proof.
  intros Hd Hi Hs.
  assert (Hsub : maxPathBits -! depth = maxPathBits - depth).
  { unfold int_sub. by apply to_int_id. }
  assert (Hrem : Z.rem maxPathBits 8 = 0 <-> maxPathBits mod 8 = 0).
  { rewrite Z.rem_divide, Z.mod_divide by lia. done. }
  unfold NewNodeIDForTreeCoords. rewrite Hsub.
  destruct (Z.ltb_spec index 0) as [Hi0|Hi0]; cbn [orb]; [split; [lia|done]|].
  destruct (Z.ltb_spec depth 0) as [Hd0|Hd0]; cbn [orb]; [split; [lia|done]|].
  assert (Hu : to_uint64 index = index).
  { unfold to_uint64. apply Z.mod_small. unfold max_int in *. lia. }
  rewrite Hu.
  destruct (Z.ltb_spec (maxPathBits - depth) (Len64 index)) as [Hb|Hb];
    cbn [orb]; [split; [lia|done]|].
  destruct (Z.eqb_spec (Z.rem maxPathBits 8) 0) as [Hr|Hr]; cbn [negb].
  - apply Hrem in Hr. split; [|lia].
    destruct (make _); cbn [mbind option_bind]; [|done]. intros [= _ H].
  - split; [|done]. intros _. right. right. left. by rewrite <- Hrem.
Qed.

(** C6 (the code at the failing input): [depth = 64], [index = 1],
    [maxPathBits = 72] satisfy every stated precondition ([bitLength(1) =
    1 <= 72 - 64]), so the call succeeds; the identifier it returns has an
    all-zero [Path], whereas [index] shifted left by [depth] bits, written
    big-endian into 9 bytes, is [01 00 00 00 00 00 00 00 00]: the shift is
    done on a [uint64] and the bit is lost. *)
Theorem C6_tree_coords_shift_overflow :
  0 <= 64 /\ 0 <= 1 /\ 72 mod 8 = 0 /\ Len64 1 <= 72 - 64 /\
  NewNodeIDForTreeCoords 64 1 72
    = Some ({| Path := [0; 0; 0; 0; 0; 0; 0; 0; 0]; PrefixLenBits := 8 |},
            nil_error) /\
  big_endian 9 (1 * 2 ^ 64) = [1; 0; 0; 0; 0; 0; 0; 0; 0] /\
  NewNodeIDForTreeCoords 64 1 72
    <> Some ({| Path := big_endian 9 (1 * 2 ^ 64); PrefixLenBits := 72 - 64 |},
             nil_error).
Proof.
  split; [lia|]. split; [lia|]. split; [reflexivity|].
  split; [vm_compute; discriminate|]. split; [reflexivity|].
  split; [reflexivity|]. vm_compute. discriminate.
Qed.

(** * Further properties of the operations *)

(** ** [Bit]: bounds *)

Lemma to_int_spec z :
  exists k, to_int z = z + k * 2 ^ 64 /\ min_int <= to_int z <= max_int.
Proof.
  exists (- ((z + 2 ^ 63) / 2 ^ 64)). split; [|apply to_int_range].
  unfold to_int. rewrite (Z.mod_eq (z + 2 ^ 63) (2 ^ 64)) by lia. lia.
Qed.

Lemma Bit_out_of_range n i :
  8 * len (Path n) <= max_int -> min_int <= i <= max_int ->
  ~ (0 <= i < PathLenBits n) -> Bit n i = None.
Proof.
  intros Hal Hi Hout. pose proof (PathLenBits_exact n Hal) as Hpl.
  pose proof (len_nonneg (Path n)) as Hlen.
  unfold Bit. set (pl := PathLenBits n) in *.
  assert (E1 : pl -! 1 = pl - 1).
  { unfold int_sub. apply to_int_id. unfold min_int, max_int in *. lia. }
  rewrite E1. destruct (Z.ltb_spec (pl - 1) i) as [Hge|Hlt]; [done|].
  assert (Hneg : i < 0) by lia.
  unfold int_sub.
  destruct (to_int_spec (pl - i)) as (k1 & Ek1 & Hr1).
  destruct (to_int_spec (to_int (pl - i) - 1)) as (k2 & Ek2 & Hr2).
  set (y := to_int (to_int (pl - i) - 1)) in *.
  set (x := to_int (pl - i)) in *.
  pose proof (Z.quot_rem' y 8) as Hqr.
  unfold load.
  destruct (Z.ltb_spec (Z.quot y 8) 0) as [|Hq]; simpl; [done|].
  rewrite (lookup_ge_None_2 (Path n)); [done|].
  assert (0 <= y \/ - 8 < y < 0) as [Hy|Hy].
  { destruct (Z.le_gt_cases 0 y); [by left|right].
    pose proof (Z.rem_bound_pos_neg y 8 ltac:(lia) ltac:(lia)). lia. }
  - pose proof (Z.rem_bound_pos y 8 Hy ltac:(lia)).
    unfold min_int, max_int, len in *. lia.
  - unfold min_int, max_int, len in *. lia.
Qed.

(** X1: [Bit(i)] returns exactly for [0 <= i < PathLenBits()] and panics
    for every other [int]; when it returns, the result is 0 or 1, the bit
    found [PathLenBits() - 1 - i] positions after the most significant
    bit of [Path[0]]. *)
Theorem X1_Bit_bounds n i :
  8 * len (Path n) <= max_int -> min_int <= i <= max_int ->
  (is_Some (Bit n i) <-> 0 <= i < PathLenBits n) /\
  (0 <= i < PathLenBits n ->
   Bit n i = Some (Z.b2z (bitAt (Path n) (PathLenBits n - 1 - i)))).
Proof.
  intros Hal Hi. split; [|apply Bit_bitAt]. split.
  - intros [b Hb]. destruct (decide (0 <= i < PathLenBits n)) as [|Hout]; [done|].
    rewrite Bit_out_of_range in Hb by done. done.
  - intros Hin. rewrite Bit_bitAt by done. eauto.
Qed.

(** X1, witness. *)
Lemma X1_Bit_bounds_witness :
  is_Some (Bit {| Path := [0xFF; 0xFC]; PrefixLenBits := 14 |} 0) <->
  0 <= 0 < PathLenBits {| Path := [0xFF; 0xFC]; PrefixLenBits := 14 |}.
Proof.
  refine (proj1 (X1_Bit_bounds {| Path := [0xFF; 0xFC]; PrefixLenBits := 14 |} 0 _ _));
    vm_compute; try split; discriminate.
Defined.

(** ** [MaskLeft]: domain and composition *)

Lemma slice_to_None {A} (s : list A) hi :
  hi < 0 \/ len s < hi -> slice_to s hi = None.
Proof.
  intros H. unfold slice_to, slice.
  destruct (Z.leb_spec 0 hi); destruct (Z.leb_spec hi (len s)); simpl; try done; lia.
Qed.

Lemma MaskLeft_nonpos n d :
  d <= 0 ->
  MaskLeft n d = Some {| Path := replicate (length (Path n)) 0;
                         PrefixLenBits := Z.min d (PrefixLenBits n) |}.
Proof.
  intros Hd. unfold MaskLeft. rewrite make_len. simpl.
  rewrite (proj2 (Z.ltb_ge 0 d)) by lia. simpl. do 2 f_equal.
  destruct (Z.ltb_spec d (PrefixLenBits n)); lia.
Qed.

Lemma MaskLeft_too_deep n d :
  8 * len (Path n) <= max_int -> d <= max_int ->
  PathLenBits n < d -> MaskLeft n d = None.
Proof.
  intros Hal Hd Hlt. pose proof (PathLenBits_exact n Hal) as Hpl.
  pose proof (len_nonneg (Path n)) as Hlen.
  unfold MaskLeft. rewrite make_len. simpl.
  rewrite (proj2 (Z.ltb_lt 0 d)) by lia.
  rewrite slice_to_None; [done|].
  unfold bytesForBits, int_add. rewrite Z.shiftr_div_pow2 by lia.
  change (2 ^ 3) with 8.
  destruct (to_int_spec (d + 7)) as (k & Ek & Hr).
  set (x := to_int (d + 7)) in *.
  pose proof (Z.div_mod x 8 ltac:(lia)).
  pose proof (Z.mod_pos_bound x 8 ltac:(lia)).
  unfold min_int, max_int in *. lia.
Qed.

(** X2: [MaskLeft(depth)] returns exactly when [depth <=
    PathLenBits()]: a larger depth panics (the slice of [Path] is out of
    range), and a depth of zero or less returns an all-zero [Path] of the
    same length with [PrefixLenBits = min(depth, PrefixLenBits)]. *)
Theorem X2_MaskLeft_domain n d :
  8 * len (Path n) <= max_int -> min_int <= d <= max_int ->
  (is_Some (MaskLeft n d) <-> d <= PathLenBits n) /\
  (d <= 0 ->
   MaskLeft n d = Some {| Path := replicate (length (Path n)) 0;
                          PrefixLenBits := Z.min d (PrefixLenBits n) |}).
Proof.
  intros Hal Hd. split; [|apply MaskLeft_nonpos]. split.
  - intros [m Hm]. destruct (Z.le_gt_cases d (PathLenBits n)) as [|Hlt]; [done|].
    rewrite MaskLeft_too_deep in Hm by (done || lia). done.
  - intros Hle. destruct (Z.le_gt_cases d 0).
    + rewrite MaskLeft_nonpos by done. eauto.
    + rewrite MaskLeft_eq by lia. eauto.
Qed.

(** X2, witness. *)
Lemma X2_MaskLeft_domain_witness :
  is_Some (MaskLeft {| Path := [0xAB; 0xFF]; PrefixLenBits := 9 |} 17) <->
  17 <= PathLenBits {| Path := [0xAB; 0xFF]; PrefixLenBits := 9 |}.
Proof.
  refine (proj1 (X2_MaskLeft_domain {| Path := [0xAB; 0xFF]; PrefixLenBits := 9 |} 17 _ _));
    vm_compute; try split; discriminate.
Defined.

(** X3: masking composes: for a path of bytes and depths [0 <= d1, d2 <=
    PathLenBits()], [n.MaskLeft(d1).MaskLeft(d2)] is
    [n.MaskLeft(min(d1, d2))]. *)
Theorem X3_MaskLeft_compose n d1 d2 :
  Forall is_byte (Path n) ->
  0 <= d1 <= PathLenBits n -> 0 <= d2 <= PathLenBits n ->
  exists m m',
    MaskLeft n d1 = Some m /\ MaskLeft m d2 = Some m' /\
    MaskLeft n (Z.min d1 d2) = Some m'.
Proof.
  intros Hb H1 H2. eexists _, _. split; [by apply MaskLeft_eq|].
  split.
  - apply MaskLeft_eq. rewrite (PathLenBits_length _ n); [done|].
    simpl. apply length_imap.
  - rewrite MaskLeft_eq by lia. simpl. f_equal. apply NodeID_eq; simpl; [|lia].
    apply path_eq_bits.
    + by apply maskAt_bytes.
    + by apply maskAt_bytes, maskAt_bytes.
    + by rewrite !length_imap.
    + intros i Hi. rewrite !maskAt_bits by lia.
      destruct (Z.ltb_spec i (Z.min d1 d2)), (Z.ltb_spec i d1), (Z.ltb_spec i d2);
        simpl; try done; lia.
Qed.

(** X3, witness. *)
Lemma X3_MaskLeft_compose_witness :
  Forall is_byte [0xAB; 0xFF] /\
  exists m m',
    MaskLeft {| Path := [0xAB; 0xFF]; PrefixLenBits := 16 |} 13 = Some m /\
    MaskLeft m 5 = Some m' /\
    MaskLeft {| Path := [0xAB; 0xFF]; PrefixLenBits := 16 |} (Z.min 13 5) = Some m'.
Proof.
  assert (Hb : Forall is_byte [0xAB; 0xFF])
    by (repeat constructor; unfold is_byte; lia).
  split; [exact Hb|].
  refine (X3_MaskLeft_compose {| Path := [0xAB; 0xFF]; PrefixLenBits := 16 |}
            13 5 Hb _ _); vm_compute; split; discriminate.
Defined.

(** ** [Neighbor]: the other child of the same parent *)

Lemma flip_bit_is_byte k x : is_byte x -> is_byte (flip_bit k x).
Proof.
  intros [H0 H1]. unfold flip_bit.
  pose proof (Z.mod_pos_bound k 8 ltac:(lia)).
  set (e := 7 - k mod 8).
  assert (0 < 2 ^ e) by (apply Z.pow_pos_nonneg; lia).
  assert (0 <= Z.lxor x (2 ^ e)) by (apply Z.lxor_nonneg; lia).
  split; [done|].
  destruct (Z.eq_dec (Z.lxor x (2 ^ e)) 0) as [->|Hne]; [lia|].
  change 256 with (2 ^ 8). apply Z.log2_lt_pow2; [lia|].
  eapply Z.le_lt_trans; [apply Z.log2_lxor; lia|].
  apply Z.max_lub_lt.
  - destruct (Z.eq_dec x 0) as [->|]; [simpl; lia|].
    apply Z.log2_lt_pow2; lia.
  - rewrite Z.log2_pow2 by lia. lia.
Qed.

Lemma alter_flip_bytes k j l :
  Forall is_byte l -> Forall is_byte (alter (flip_bit k) j l).
Proof.
  intros Hl. apply Forall_lookup_2. intros i y.
  destruct (decide (j = i)) as [<-|Hne].
  - rewrite list_lookup_alter_eq. intros Hy.
    apply fmap_Some in Hy as (x & Hx & ->).
    apply flip_bit_is_byte. exact (Forall_lookup_1 _ _ _ _ Hl Hx).
  - rewrite list_lookup_alter_ne by done. intros Hy.
    exact (Forall_lookup_1 _ _ _ _ Hl Hy).
Qed.

(** X4: for a path of bytes and [1 <= d <= min(PrefixLenBits,
    PathLenBits())], [Neighbor(d)] is the other child of the same parent:
    masked to [d - 1] bits it is [n.MaskLeft(d - 1)], and it is not
    [Equivalent] to [n.MaskLeft(d)]. *)
Theorem X4_Neighbor_sibling n d :
  Forall is_byte (Path n) ->
  1 <= d <= Z.min (PrefixLenBits n) (PathLenBits n) ->
  exists s m parent,
    Neighbor n d = Some s /\ MaskLeft n d = Some m /\
    MaskLeft n (d - 1) = Some parent /\
    MaskLeft s (d - 1) = Some parent /\
    MaskLeft m (d - 1) = Some parent /\
    Equivalent s m = Some false.
Proof.
  intros Hb Hd. pose proof (PathLenBits_le n) as Hle.
  pose proof (Z.div_mod (d - 1) 8 ltac:(lia)).
  pose proof (Z.mod_pos_bound (d - 1) 8 ltac:(lia)).
  assert (Hlt : (Z.to_nat ((d - 1) / 8) < length (imap (maskAt d) (Path n)))%nat).
  { rewrite length_imap. unfold len in *. lia. }
  eexists _, _, _. split; [apply Neighbor_eq; lia|].
  split; [apply MaskLeft_eq; lia|]. split; [apply MaskLeft_eq; lia|].
  split; [|split].
  - rewrite MaskLeft_eq; simpl.
    + f_equal. apply NodeID_eq; simpl; [|lia]. apply path_eq_bits.
      * by apply maskAt_bytes, alter_flip_bytes, maskAt_bytes.
      * by apply maskAt_bytes.
      * by rewrite !length_imap, length_alter, length_imap.
      * intros i Hi. rewrite !maskAt_bits by lia.
        rewrite flip_bit_bits by (done || lia). rewrite maskAt_bits by lia.
        destruct (Z.ltb_spec i (d - 1)); simpl; [|done].
        rewrite (proj2 (Z.ltb_lt i d)) by lia.
        rewrite (proj2 (Z.eqb_neq i (d - 1))) by lia.
        by rewrite xorb_false_r.
    + rewrite (PathLenBits_length _ n); [lia|].
      simpl. by rewrite length_alter, length_imap.
  - rewrite MaskLeft_eq; simpl.
    + f_equal. apply NodeID_eq; simpl; [|lia]. apply path_eq_bits.
      * by apply maskAt_bytes, maskAt_bytes.
      * by apply maskAt_bytes.
      * by rewrite !length_imap.
      * intros i Hi. rewrite !maskAt_bits by lia.
        destruct (Z.ltb_spec i (d - 1)); simpl; [|done].
        by rewrite (proj2 (Z.ltb_lt i d)) by lia.
    + rewrite (PathLenBits_length _ n); [lia|]. simpl. apply length_imap.
  - rewrite Equivalent_eq; simpl.
    + f_equal. rewrite Z.min_l by lia. apply bool_decide_eq_false_2.
      intros [_ Hs].
      apply agree_significant in Hs.
      * specialize (Hs (d - 1) ltac:(lia)).
        rewrite flip_bit_bits in Hs by (done || lia).
        rewrite Z.eqb_refl in Hs. by destruct (bitAt _ _).
      * by apply alter_flip_bytes, maskAt_bytes.
      * by apply maskAt_bytes.
      * unfold len. rewrite length_alter, length_imap. fold (len (Path n)). lia.
      * unfold len. rewrite length_imap. fold (len (Path n)). lia.
    + unfold len. rewrite length_alter, length_imap. fold (len (Path n)). lia.
    + rewrite Z.min_l by lia. unfold len. rewrite length_imap.
      fold (len (Path n)). lia.
Qed.

(** X4, witness. *)
Lemma X4_Neighbor_sibling_witness :
  Forall is_byte [0xAB; 0xCD] /\
  exists s m parent,
    Neighbor {| Path := [0xAB; 0xCD]; PrefixLenBits := 12 |} 10 = Some s /\
    MaskLeft {| Path := [0xAB; 0xCD]; PrefixLenBits := 12 |} 10 = Some m /\
    MaskLeft s 9 = Some parent /\ MaskLeft m 9 = Some parent.
Proof.
  assert (Hb : Forall is_byte [0xAB; 0xCD])
    by (repeat constructor; unfold is_byte; lia).
  split; [exact Hb|].
  destruct (X4_Neighbor_sibling {| Path := [0xAB; 0xCD]; PrefixLenBits := 12 |} 10 Hb)
    as (s & m & parent & Hs & Hm & _ & H1 & H2 & _).
  - vm_compute. split; discriminate.
  - exists s, m, parent. repeat split; assumption.
Defined.

(** ** [Equivalent] as an equivalence, and the keys *)

(** X5: [Equivalent] is transitive on identifiers with [0 <= PrefixLenBits
    <= 8*len(Path)]. *)
Theorem X5_Equivalent_transitive n m k :
  0 <= PrefixLenBits n <= 8 * len (Path n) ->
  0 <= PrefixLenBits m <= 8 * len (Path m) ->
  0 <= PrefixLenBits k <= 8 * len (Path k) ->
  Equivalent n m = Some true -> Equivalent m k = Some true ->
  Equivalent n k = Some true.
Proof.
  intros Hn Hm Hk. rewrite !Equivalent_eq by done.
  intros [= H1] [= H2]. f_equal.
  apply bool_decide_eq_true in H1 as [E1 S1].
  apply bool_decide_eq_true in H2 as [E2 S2].
  apply bool_decide_eq_true_2. split; congruence.
Qed.

(** X5, witness. *)
Lemma X5_Equivalent_transitive_witness :
  Equivalent {| Path := [0xAB; 0xFF]; PrefixLenBits := 9 |}
             {| Path := [0xAB; 0xC3]; PrefixLenBits := 9 |} = Some true.
Proof.
  refine (X5_Equivalent_transitive
            {| Path := [0xAB; 0xFF]; PrefixLenBits := 9 |}
            {| Path := [0xAB; 0x80; 0x07]; PrefixLenBits := 9 |}
            {| Path := [0xAB; 0xC3]; PrefixLenBits := 9 |} _ _ _ _ _);
    try reflexivity; vm_compute; split; discriminate.
Defined.

(** X6: on identifiers of bytes with [0 <= PrefixLenBits <=
    8*len(Path)], two identifiers have the same [AsKey] exactly when
    [Equivalent] holds between them. *)
Theorem X6_AsKey_iff_Equivalent n m :
  Forall is_byte (Path n) -> Forall is_byte (Path m) ->
  0 <= PrefixLenBits n <= 8 * len (Path n) ->
  0 <= PrefixLenBits m <= 8 * len (Path m) ->
  exists kn km,
    AsKey n = Some kn /\ AsKey m = Some km /\
    (kn = km <-> Equivalent n m = Some true).
Proof.
  intros Hbn Hbm Hn Hm. eexists _, _.
  split; [apply AsKey_eq; (done || lia)|].
  split; [apply AsKey_eq; (done || lia)|].
  rewrite Equivalent_eq by done.
  assert (Hsig : forall (p : list Z) k,
            Forall is_byte p -> Forall is_byte (significant p k)).
  { intros p k Hp. unfold significant. apply Forall_app. split.
    - by apply Forall_take.
    - case_match; [|constructor].
      constructor; [apply land_is_byte, mask_of_is_byte | constructor]. }
  split.
  - intros Heq. apply colon_split in Heq as [Ek Eh]; [|apply Itoa_colon_free..].
    apply Itoa_inj in Ek. apply hex_string_inj in Eh; [|by apply Hsig..].
    f_equal. apply bool_decide_eq_true_2. split; [done|]. by rewrite Eh, Ek.
  - intros [= H]. apply bool_decide_eq_true in H as [E S].
    by rewrite <- E, S.
Qed.

(** X6, witness. *)
Lemma X6_AsKey_iff_Equivalent_witness :
  Forall is_byte [0xAB; 0xFF] /\ Forall is_byte [0xAB; 0x80; 0x07] /\
  exists kn km,
    AsKey {| Path := [0xAB; 0xFF]; PrefixLenBits := 9 |} = Some kn /\
    AsKey {| Path := [0xAB; 0x80; 0x07]; PrefixLenBits := 9 |} = Some km /\
    (kn = km <->
     Equivalent {| Path := [0xAB; 0xFF]; PrefixLenBits := 9 |}
                {| Path := [0xAB; 0x80; 0x07]; PrefixLenBits := 9 |} = Some true).
Proof.
  assert (Hn : Forall is_byte [0xAB; 0xFF])
    by (repeat constructor; unfold is_byte; lia).
  assert (Hm : Forall is_byte [0xAB; 0x80; 0x07])
    by (repeat constructor; unfold is_byte; lia).
  split; [exact Hn|]. split; [exact Hm|].
  refine (X6_AsKey_iff_Equivalent
            {| Path := [0xAB; 0xFF]; PrefixLenBits := 9 |}
            {| Path := [0xAB; 0x80; 0x07]; PrefixLenBits := 9 |} Hn Hm _ _);
    vm_compute; split; discriminate.
Defined.

(** ** [String] *)

Lemma down_range_eq hi lo :
  down_range hi lo = (fun j => hi - j) <$> seqZ 0 (hi - lo + 1).
Proof.
  unfold down_range. apply list_eq. intros j.
  rewrite list_lookup_fmap.
  destruct (Z.lt_ge_cases (Z.of_nat j) (hi - lo + 1)) as [Hj|Hj].
  - rewrite reverse_lookup by (rewrite length_seqZ; lia).
    rewrite length_seqZ, !lookup_seqZ_lt by lia. simpl. f_equal. lia.
  - rewrite lookup_seqZ_ge by lia. simpl.
    apply lookup_ge_None_2. rewrite length_reverse, length_seqZ. lia.
Qed.

Lemma String_loop_spec n idx r :
  Forall (fun i => 0 <= i < PathLenBits n) idx ->
  String_loop n idx r =
    Some (r ++ string_of_list_ascii
                 ((fun i => if bitAt (Path n) (PathLenBits n - 1 - i)
                            then "1"%char else "0"%char) <$> idx))%string.
Proof.
  intros H. revert r. induction H as [|i idx Hi _ IH]; intros r; simpl.
  - by rewrite append_empty_r.
  - rewrite Bit_bitAt by done. simpl. rewrite IH, append_assoc_s. simpl.
    by destruct (bitAt (Path n) (PathLenBits n - 1 - i)).
Qed.

Lemma String_loop_panic n idx r :
  Exists (fun i => Bit n i = None) idx -> String_loop n idx r = None.
Proof.
  intros H. revert r. induction H as [i idx Hi|i idx _ IH]; intros r; simpl.
  - by rewrite Hi.
  - destruct (Bit n i); simpl; [apply IH|done].
Qed.

Lemma bits_string_length p k :
  String.length (bits_string p k) = Z.to_nat k.
Proof.
  unfold bits_string.
  rewrite <- (length_seqZ 0 k), <- (length_fmap
     (fun i => if bitAt p i then "1"%char else "0"%char) (seqZ 0 k)).
  generalize ((fun i => if bitAt p i then "1"%char else "0"%char) <$> seqZ 0 k).
  intros l. induction l as [|c l IH]; simpl; [done|]. by rewrite IH.
Qed.

Lemma NodeID_String_eq n :
  0 <= PrefixLenBits n <= PathLenBits n ->
  NodeID_String n = Some (bits_string (Path n) (PrefixLenBits n)).
Proof.
  intros HP. pose proof (PathLenBits_max n) as Hmax.
  unfold NodeID_String. set (pl := PathLenBits n) in *.
  assert (E1 : pl -! 1 = pl - 1).
  { unfold int_sub. apply to_int_id. unfold min_int, max_int in *. lia. }
  assert (E2 : pl -! PrefixLenBits n = pl - PrefixLenBits n).
  { unfold int_sub. apply to_int_id. unfold min_int, max_int in *. lia. }
  rewrite E1, E2, down_range_eq.
  replace (pl - 1 - (pl - PrefixLenBits n) + 1) with (PrefixLenBits n) by lia.
  rewrite String_loop_spec.
  - simpl. unfold bits_string. do 2 f_equal.
    rewrite <- list_fmap_compose. apply list_fmap_ext.
    intros j i Hi. simpl. fold pl. by replace (pl - 1 - (pl - 1 - i)) with i by lia.
  - apply Forall_fmap, Forall_seqZ. intros j Hj. simpl. fold pl. lia.
Qed.

Lemma NodeID_String_panic n :
  8 * len (Path n) <= max_int ->
  PathLenBits n < PrefixLenBits n <= max_int ->
  NodeID_String n = None.
Proof.
  intros Hal HP. pose proof (PathLenBits_max n) as Hmax.
  pose proof (PathLenBits_exact n Hal) as Hpl.
  pose proof (len_nonneg (Path n)) as Hlen.
  unfold NodeID_String. set (pl := PathLenBits n) in *.
  assert (E1 : pl -! 1 = pl - 1).
  { unfold int_sub. apply to_int_id. unfold min_int, max_int in *. lia. }
  assert (E2 : pl -! PrefixLenBits n = pl - PrefixLenBits n).
  { unfold int_sub. apply to_int_id. unfold min_int, max_int in *. lia. }
  rewrite E1, E2, down_range_eq.
  apply String_loop_panic. apply Exists_exists. exists (- 1). split.
  - apply list_elem_of_fmap. exists pl. split; [lia|].
    apply elem_of_seqZ. lia.
  - apply Bit_out_of_range; [done| unfold min_int, max_int; lia | fold pl; lia].
Qed.

(** X7: [String()] panics when [PrefixLenBits > PathLenBits()] and
    otherwise, for [PrefixLenBits >= 0], returns exactly [PrefixLenBits]
    characters, ['0'] or ['1'], the [k]-th being the [k]-th bit of the
    path counted from the most significant end. *)
Theorem X7_String_bits n :
  8 * len (Path n) <= max_int -> 0 <= PrefixLenBits n <= max_int ->
  (is_Some (NodeID_String n) <-> PrefixLenBits n <= PathLenBits n) /\
  (PrefixLenBits n <= PathLenBits n ->
   NodeID_String n = Some (bits_string (Path n) (PrefixLenBits n)) /\
   Z.of_nat (String.length (bits_string (Path n) (PrefixLenBits n)))
     = PrefixLenBits n).
Proof.
  intros Hal HP. split.
  - split.
    + intros [s Hs].
      destruct (Z.le_gt_cases (PrefixLenBits n) (PathLenBits n)) as [|Hgt]; [done|].
      rewrite NodeID_String_panic in Hs by (done || lia). done.
    + intros Hle. rewrite NodeID_String_eq by lia. eauto.
  - intros Hle. split; [apply NodeID_String_eq; lia|].
    rewrite bits_string_length. lia.
Qed.

(** X7, witness. *)
Lemma X7_String_bits_witness :
  NodeID_String {| Path := [0xFF; 0xFC]; PrefixLenBits := 14 |}
    = Some (bits_string [0xFF; 0xFC] 14) /\
  bits_string [0xFF; 0xFC] 14 = "11111111111111"%string.
Proof.
  split; [|reflexivity].
  refine (proj1 (proj2 (X7_String_bits {| Path := [0xFF; 0xFC]; PrefixLenBits := 14 |}
                          _ _) _)); vm_compute; try split; discriminate.
Defined.

Lemma bits_string_inj p q k k' :
  0 <= k -> 0 <= k' ->
  bits_string p k = bits_string q k' -> k = k' /\ agree p q k.
Proof.
  intros Hk Hk' Heq.
  assert (k = k') as <-.
  { apply (f_equal String.length) in Heq.
    rewrite !bits_string_length in Heq. lia. }
  split; [done|]. intros i Hi.
  unfold bits_string in Heq.
  apply (f_equal list_ascii_of_string) in Heq.
  rewrite !list_ascii_of_string_of_list_ascii in Heq.
  apply (f_equal (fun l => l !! Z.to_nat i)) in Heq.
  rewrite !list_lookup_fmap, !lookup_seqZ_lt in Heq by lia. simpl in Heq.
  rewrite Z.add_0_l, Z2Nat.id in Heq by lia.
  destruct (bitAt p i), (bitAt q i); done.
Qed.

Lemma bits_string_agree p q k :
  agree p q k -> bits_string p k = bits_string q k.
Proof.
  intros Ha. unfold bits_string. f_equal. apply list_fmap_ext.
  intros j i Hi. apply lookup_seqZ in Hi as [-> Hj]. simpl.
  by rewrite Ha by lia.
Qed.

(** X8: on identifiers of bytes with [0 <= PrefixLenBits <=
    PathLenBits()], two identifiers have the same [String()] exactly when
    [Equivalent] holds between them. *)
Theorem X8_String_iff_Equivalent n m :
  Forall is_byte (Path n) -> Forall is_byte (Path m) ->
  0 <= PrefixLenBits n <= PathLenBits n ->
  0 <= PrefixLenBits m <= PathLenBits m ->
  exists sn sm,
    NodeID_String n = Some sn /\ NodeID_String m = Some sm /\
    (sn = sm <-> Equivalent n m = Some true).
Proof.
  intros Hbn Hbm Hn Hm.
  pose proof (PathLenBits_le n). pose proof (PathLenBits_le m).
  eexists _, _. split; [by apply NodeID_String_eq|].
  split; [by apply NodeID_String_eq|].
  rewrite Equivalent_eq by lia. split.
  - intros Heq. apply bits_string_inj in Heq as [E Ha]; [|lia..].
    f_equal. apply bool_decide_eq_true_2. split; [done|].
    apply agree_significant; [done..|lia|lia|done].
  - intros [= Hd]. apply bool_decide_eq_true in Hd as [E S].
    rewrite <- E. apply bits_string_agree.
    apply agree_significant; [done..|lia|lia|done].
Qed.

(** X8, witness. *)
Lemma X8_String_iff_Equivalent_witness :
  Forall is_byte [0xAB; 0xFF] /\ Forall is_byte [0xAB; 0x80; 0x07] /\
  exists sn sm,
    NodeID_String {| Path := [0xAB; 0xFF]; PrefixLenBits := 9 |} = Some sn /\
    NodeID_String {| Path := [0xAB; 0x80; 0x07]; PrefixLenBits := 9 |} = Some sm /\
    (sn = sm <->
     Equivalent {| Path := [0xAB; 0xFF]; PrefixLenBits := 9 |}
                {| Path := [0xAB; 0x80; 0x07]; PrefixLenBits := 9 |} = Some true).
Proof.
  assert (Hn : Forall is_byte [0xAB; 0xFF])
    by (repeat constructor; unfold is_byte; lia).
  assert (Hm : Forall is_byte [0xAB; 0x80; 0x07])
    by (repeat constructor; unfold is_byte; lia).
  split; [exact Hn|]. split; [exact Hm|].
  refine (X8_String_iff_Equivalent
            {| Path := [0xAB; 0xFF]; PrefixLenBits := 9 |}
            {| Path := [0xAB; 0x80; 0x07]; PrefixLenBits := 9 |} Hn Hm _ _);
    vm_compute; split; discriminate.
Defined.

(** ** [Split], [Prefix], [Suffix] and [PrefixAsKey] *)

Lemma Suffix_eq_gen n pb sb :
  8 * len (Path n) <= max_int ->
  0 <= pb -> 8 * pb < PrefixLenBits n <= 8 * len (Path n) ->
  PrefixLenBits n - 8 * pb <= sb ->
  Suffix n pb sb =
    Some {| bits := to_byte (PrefixLenBits n - 8 * pb);
            path := alter (fun x => Z.land x (mask_of (PrefixLenBits n mod 8)))
                      (Z.to_nat ((PrefixLenBits n - 8 * pb - 1) / 8))
                      (take (Z.to_nat ((PrefixLenBits n - 8 * pb + 7) / 8))
                         (drop (Z.to_nat pb) (Path n))) |}.
Proof.
  intros Hal Hpb HP Hsb. pose proof (len_nonneg (Path n)) as Hlen.
  unfold Suffix. zb.
  assert (Hb : PrefixLenBits n -! pb *! 8 = PrefixLenBits n - 8 * pb).
  { unfold int_sub, int_mul.
    rewrite (to_int_id (pb * 8)) by (unfold min_int, max_int in *; lia).
    rewrite to_int_id by (unfold min_int, max_int in *; lia). lia. }
  rewrite Hb. set (b := PrefixLenBits n - 8 * pb) in *. zb.
  rewrite bytesForBits_div by (unfold max_int in *; lia).
  assert (Hb1 : b -! 1 = b - 1).
  { unfold int_sub. apply to_int_id. unfold min_int, max_int in *. lia. }
  rewrite Hb1. rewrite Z.quot_div_nonneg, Z.rem_mod_nonneg by lia.
  pose proof (Z.div_mod (b - 1) 8 ltac:(lia)) as Hdm.
  pose proof (Z.mod_pos_bound (b - 1) 8 ltac:(lia)) as Hmod.
  pose proof (Z.div_pos (b - 1) 8 ltac:(lia) ltac:(lia)) as Hdiv.
  assert (Hsb' : (b + 7) / 8 = (b - 1) / 8 + 1).
  { symmetry. apply Z.div_unique with ((b - 1) mod 8); lia. }
  rewrite Hsb'. set (q := (b - 1) / 8) in *.
  assert (Hml : (b - 1) mod 8 +! 1 = (b - 1) mod 8 + 1).
  { unfold int_add. apply to_int_id. unfold min_int, max_int. lia. }
  rewrite Hml. rewrite suffix_mask by lia.
  assert (Hmm : ((b - 1) mod 8 + 1) mod 8 = PrefixLenBits n mod 8).
  { rewrite Z.add_mod_idemp_l by lia. replace (b - 1 + 1) with b by lia.
    unfold b. replace (PrefixLenBits n - 8 * pb)
      with (PrefixLenBits n + (- pb) * 8) by lia.
    apply Z.mod_add. lia. }
  rewrite Hmm.
  rewrite make_Some by lia. simpl.
  assert (Hps : pb +! (q + 1) = pb + (q + 1)).
  { unfold int_add. apply to_int_id. unfold min_int, max_int in *. lia. }
  rewrite Hps. rewrite slice_Some by lia. simpl.
  replace (pb + (q + 1) - pb) with (q + 1) by lia.
  rewrite copy_same_length.
  2:{ rewrite length_replicate, length_take, length_drop. unfold len in *. lia. }
  set (src := take (Z.to_nat (q + 1)) (drop (Z.to_nat pb) (Path n))).
  assert (Hsl : length src = Z.to_nat (q + 1)).
  { unfold src. rewrite length_take, length_drop. unfold len in *. lia. }
  rewrite load_nat by lia.
  assert (Hx : (Z.to_nat q < length src)%nat) by lia.
  destruct (lookup_lt_is_Some_2 _ _ Hx) as [x Ex]. rewrite Ex. simpl.
  rewrite store_Some by (unfold len; lia). simpl.
  unfold NewSuffix. do 2 f_equal.
  by apply (insert_as_alter (fun x => Z.land x (mask_of (PrefixLenBits n mod 8)))).
Qed.

Lemma land_byte_full x : is_byte x -> Z.land x (mask_of 0) = x.
Proof.
  intros [H0 H1]. change (mask_of 0) with (Z.ones 8).
  rewrite Z.land_ones by lia. apply Z.mod_small. change (2 ^ 8) with 256. lia.
Qed.

(** The bytes of the suffix are the significant bytes after the prefix. *)
Lemma suffix_path_significant p pb k :
  Forall is_byte p -> 0 <= pb -> 8 * pb < k <= 8 * len p ->
  alter (fun x => Z.land x (mask_of (k mod 8)))
        (Z.to_nat ((k - 8 * pb - 1) / 8))
        (take (Z.to_nat ((k - 8 * pb + 7) / 8)) (drop (Z.to_nat pb) p))
  = drop (Z.to_nat pb) (significant p k).
Proof.
  intros Hp Hpb Hk. rewrite significant_pos by lia.
  set (b := k - 8 * pb).
  pose proof (Z.div_mod (b - 1) 8 ltac:(lia)) as Hdm.
  pose proof (Z.mod_pos_bound (b - 1) 8 ltac:(lia)) as Hmod.
  pose proof (Z.div_pos (b - 1) 8 ltac:(lia) ltac:(lia)) as Hdiv.
  assert (Hsb' : (b + 7) / 8 = (b - 1) / 8 + 1).
  { symmetry. apply Z.div_unique with ((b - 1) mod 8); lia. }
  rewrite Hsb'. set (q := (b - 1) / 8) in *.
  pose proof (Z.div_mod k 8 ltac:(lia)) as Hkdm.
  pose proof (Z.mod_pos_bound k 8 ltac:(lia)) as Hkmod.
  set (a := k / 8) in *. set (r := k mod 8) in *.
  assert (Hcases : (r = 0 /\ a = pb + q + 1) \/ (0 < r /\ a = pb + q)).
  { unfold b in *. destruct (Z.eq_dec r 0); [left|right]; lia. }
  assert (Hx : (Z.to_nat pb + Z.to_nat q < length p)%nat) by (unfold len in *; lia).
  destruct (lookup_lt_is_Some_2 _ _ Hx) as [x Ex].
  assert (Hxb : is_byte x) by exact (Forall_lookup_1 _ _ _ _ Hp Ex).
  apply list_eq. intros j.
  destruct (decide (Z.to_nat q = j)) as [<-|Hne].
  - rewrite list_lookup_alter_eq, lookup_take_lt, lookup_drop, Ex by lia. simpl.
    rewrite lookup_drop.
    destruct Hcases as [[Hr Ha]|[Hr Ha]].
    + rewrite Hr. rewrite land_byte_full by done.
      rewrite lookup_app_l by (rewrite length_take; unfold len in *; lia).
      rewrite lookup_take_lt by lia. by rewrite Ex.
    + rewrite (proj2 (Z.ltb_lt 0 r)) by lia.
      rewrite lookup_app_r by (rewrite length_take; unfold len in *; lia).
      rewrite length_take.
      replace (Z.to_nat pb + Z.to_nat q - Z.to_nat a `min` length p)%nat
        with 0%nat by (unfold len in *; lia).
      simpl. rewrite Ha. replace (Z.to_nat (pb + q)) with (Z.to_nat pb + Z.to_nat q)%nat by lia.
      by rewrite Ex.
  - rewrite list_lookup_alter_ne by done. rewrite lookup_drop.
    destruct (decide (j < Z.to_nat q)%nat) as [Hj|Hj].
    + rewrite lookup_take_lt, lookup_drop by lia.
      rewrite lookup_app_l by (rewrite length_take; unfold len in *; lia).
      by rewrite lookup_take_lt by lia.
    + rewrite lookup_take_ge by lia. symmetry. apply lookup_ge_None_2.
      rewrite length_app, length_take.
      destruct Hcases as [[Hr Ha]|[Hr Ha]].
      * rewrite Hr. simpl. unfold len in *. lia.
      * rewrite (proj2 (Z.ltb_lt 0 r)) by lia. simpl. unfold len in *. lia.
Qed.

Lemma take_significant p pb k :
  0 <= pb -> 8 * pb < k <= 8 * len p ->
  take (Z.to_nat pb) (significant p k) = take (Z.to_nat pb) p.
Proof.
  intros Hpb Hk. rewrite significant_pos by lia.
  pose proof (Z.div_mod k 8 ltac:(lia)).
  pose proof (Z.mod_pos_bound k 8 ltac:(lia)).
  rewrite take_app_le by (rewrite length_take; unfold len in *; lia).
  rewrite take_take. f_equal. lia.
Qed.

Lemma Split_eq n pb sb :
  Forall is_byte (Path n) -> 8 * len (Path n) <= max_int ->
  0 <= pb -> 8 * pb < PrefixLenBits n <= 8 * len (Path n) ->
  PrefixLenBits n - 8 * pb <= sb ->
  Split n pb sb =
    Some (take (Z.to_nat pb) (significant (Path n) (PrefixLenBits n)),
          {| bits := to_byte (PrefixLenBits n - 8 * pb);
             path := drop (Z.to_nat pb)
                       (significant (Path n) (PrefixLenBits n)) |}).
Proof.
  intros Hb Hal Hpb HP Hsb. unfold Split.
  rewrite (proj2 (Z.eqb_neq (PrefixLenBits n) 0)) by lia.
  rewrite Prefix_eq by lia. simpl.
  rewrite Suffix_eq_gen by done. simpl.
  rewrite suffix_path_significant by done.
  by rewrite take_significant by lia.
Qed.

(** X9: for an identifier of bytes, [0 <= prefixBytes],
    [8*prefixBytes < PrefixLenBits <= 8*len(Path)] and a number of bits
    after the prefix, [PrefixLenBits - 8*prefixBytes], of at most
    [suffixBits] and at most 255 (what the suffix's [byte] can count),
    [Split] cuts the significant bytes of the identifier (the full bytes,
    then the partial byte under its mask) at [prefixBytes]: the prefix is
    the first [prefixBytes] bytes, the suffix holds the remaining ones and
    the bit count [PrefixLenBits - 8*prefixBytes]. *)
Theorem X9_Split_significant n prefixBytes suffixBits :
  Forall is_byte (Path n) -> 8 * len (Path n) <= max_int ->
  0 <= prefixBytes ->
  8 * prefixBytes < PrefixLenBits n <= 8 * len (Path n) ->
  PrefixLenBits n - 8 * prefixBytes <= Z.min suffixBits 255 ->
  exists prefix sfx,
    Split n prefixBytes suffixBits = Some (prefix, sfx) /\
    prefix = take (Z.to_nat prefixBytes) (Path n) /\
    bits sfx = PrefixLenBits n - 8 * prefixBytes /\
    prefix ++ path sfx = significant (Path n) (PrefixLenBits n) /\
    len (path sfx) = (PrefixLenBits n - 8 * prefixBytes + 7) / 8.
Proof.
  intros Hb Hal Hpb HP Hsb. eexists _, _.
  split; [apply Split_eq; (done || lia)|]. simpl.
  split; [apply take_significant; lia|].
  split; [unfold to_byte; apply Z.mod_small; change (2 ^ 8) with 256; lia|].
  split; [apply take_drop|].
  rewrite <- suffix_path_significant by (done || lia).
  unfold len. rewrite length_alter, length_take, length_drop.
  set (b := PrefixLenBits n - 8 * prefixBytes).
  pose proof (Z.div_mod (b + 7) 8 ltac:(lia)).
  pose proof (Z.mod_pos_bound (b + 7) 8 ltac:(lia)).
  unfold len, b in *. lia.
Qed.

(** X9, witness. *)
Lemma X9_Split_significant_witness :
  Forall is_byte [0xAB; 0xFF; 0x12] /\
  exists prefix sfx,
    Split {| Path := [0xAB; 0xFF; 0x12]; PrefixLenBits := 10 |} 1 8
      = Some (prefix, sfx) /\
    prefix = [0xAB] /\ bits sfx = 2.
Proof.
  assert (Hb : Forall is_byte [0xAB; 0xFF; 0x12])
    by (repeat constructor; unfold is_byte; lia).
  split; [exact Hb|].
  destruct (X9_Split_significant
              {| Path := [0xAB; 0xFF; 0x12]; PrefixLenBits := 10 |} 1 8 Hb)
    as (prefix & sfx & Hs & Hp & Hbits & _).
  - vm_compute. discriminate.
  - vm_compute. discriminate.
  - vm_compute. split; [reflexivity | discriminate].
  - vm_compute. discriminate.
  - exists prefix, sfx. split; [exact Hs|]. split; [exact Hp | exact Hbits].
Defined.

(** X10: equivalent identifiers are stored alike, and only they: for two
    identifiers of bytes that can be split at [prefixBytes] (as in X9, with
    at most 255 bits after the prefix), [Split] returns the same prefix
    and suffix for both exactly when [Equivalent] holds between them. *)
Theorem X10_Split_iff_Equivalent n m prefixBytes suffixBits :
  Forall is_byte (Path n) -> Forall is_byte (Path m) ->
  8 * len (Path n) <= max_int -> 8 * len (Path m) <= max_int ->
  0 <= prefixBytes ->
  8 * prefixBytes < PrefixLenBits n <= 8 * len (Path n) ->
  8 * prefixBytes < PrefixLenBits m <= 8 * len (Path m) ->
  PrefixLenBits n - 8 * prefixBytes <= Z.min suffixBits 255 ->
  PrefixLenBits m - 8 * prefixBytes <= Z.min suffixBits 255 ->
  is_Some (Split n prefixBytes suffixBits) /\
  (Split n prefixBytes suffixBits = Split m prefixBytes suffixBits <->
   Equivalent n m = Some true).
Proof.
  intros Hbn Hbm Haln Halm Hpb Hn Hm Hsn Hsm.
  rewrite !Split_eq by (done || lia). split; [eauto|].
  rewrite Equivalent_eq by lia. unfold to_byte.
  rewrite !Z.mod_small by (change (2 ^ 8) with 256; lia).
  split.
  - intros [= Ht Hbits Hd]. f_equal. apply bool_decide_eq_true_2.
    assert (E : PrefixLenBits n = PrefixLenBits m) by lia.
    split; [done|]. rewrite E.
    rewrite <- (take_drop (Z.to_nat prefixBytes) (significant (Path n) _)).
    rewrite <- (take_drop (Z.to_nat prefixBytes) (significant (Path m) _)).
    rewrite <- E at 1 2. by rewrite Ht, Hd.
  - intros [= Hd]. apply bool_decide_eq_true in Hd as [E S].
    by rewrite <- E, S.
Qed.

(** X10, witness. *)
Lemma X10_Split_iff_Equivalent_witness :
  Forall is_byte [0xAB; 0xFF] /\ Forall is_byte [0xAB; 0x80; 0x07] /\
  (Split {| Path := [0xAB; 0xFF]; PrefixLenBits := 9 |} 1 8
   = Split {| Path := [0xAB; 0x80; 0x07]; PrefixLenBits := 9 |} 1 8 <->
   Equivalent {| Path := [0xAB; 0xFF]; PrefixLenBits := 9 |}
              {| Path := [0xAB; 0x80; 0x07]; PrefixLenBits := 9 |} = Some true).
Proof.
  assert (Hn : Forall is_byte [0xAB; 0xFF])
    by (repeat constructor; unfold is_byte; lia).
  assert (Hm : Forall is_byte [0xAB; 0x80; 0x07])
    by (repeat constructor; unfold is_byte; lia).
  split; [exact Hn|]. split; [exact Hm|].
  refine (proj2 (X10_Split_iff_Equivalent
            {| Path := [0xAB; 0xFF]; PrefixLenBits := 9 |}
            {| Path := [0xAB; 0x80; 0x07]; PrefixLenBits := 9 |} 1 8
            Hn Hm _ _ _ _ _ _ _)); vm_compute; try split;
    first [reflexivity | discriminate].
Defined.

Lemma slice_to_inv {A} (s : list A) hi r :
  slice_to s hi = Some r -> 0 <= hi <= len s /\ r = take (Z.to_nat hi) s.
Proof.
  intros H. destruct (decide (0 <= hi <= len s)) as [Hin|Hout].
  - rewrite slice_to_Some in H by done. by injection H as <-.
  - rewrite slice_to_None in H by lia. done.
Qed.

Lemma Prefix_cases n pb :
  Prefix n pb =
    if PrefixLenBits n =? 0 then Some []
    else if (0 <=? pb) && (pb <=? len (Path n))
         then Some (take (Z.to_nat pb) (Path n)) else None.
Proof.
  unfold Prefix. destruct (Z.eqb_spec (PrefixLenBits n) 0) as [|Hne]; [done|].
  destruct (Z.leb_spec 0 pb); destruct (Z.leb_spec pb (len (Path n))); simpl.
  - rewrite make_Some, slice_to_Some by lia. simpl. f_equal.
    apply copy_same_length. rewrite length_replicate, length_take.
    unfold len in *. lia.
  - rewrite make_Some by lia. simpl. by rewrite slice_to_None by lia.
  - unfold make. by rewrite (proj2 (Z.ltb_lt pb 0)) by lia.
  - unfold make. by rewrite (proj2 (Z.ltb_lt pb 0)) by lia.
Qed.

(** X11: on an identifier with [0 <= PrefixLenBits <= 8*len(Path)],
    [Split(prefixBytes, suffixBits)] returns exactly when [PrefixLenBits =
    0] (the root: empty prefix, empty suffix), or [prefixBytes >= 0] and
    the number of bits after the prefix, [PrefixLenBits - 8*prefixBytes],
    is positive and at most [suffixBits]; in every other case it
    panics. *)
Theorem X11_Split_domain n prefixBytes suffixBits :
  8 * len (Path n) <= max_int ->
  0 <= PrefixLenBits n <= 8 * len (Path n) ->
  (is_Some (Split n prefixBytes suffixBits) <->
   PrefixLenBits n = 0 \/
   (0 <= prefixBytes /\
    0 < PrefixLenBits n - 8 * prefixBytes <= suffixBits)) /\
  (PrefixLenBits n = 0 ->
   Split n prefixBytes suffixBits = Some ([], EmptySuffix)).
Proof.
  intros Hal HP. split.
  2:{ intros Hz. unfold Split. by rewrite Hz. }
  split.
  - intros [[p s] Hs]. unfold Split in Hs.
    destruct (Z.eqb_spec (PrefixLenBits n) 0) as [|Hne]; [by left|]. right.
    rewrite Prefix_cases in Hs.
    rewrite (proj2 (Z.eqb_neq (PrefixLenBits n) 0)) in Hs by done.
    destruct (Z.leb_spec 0 prefixBytes) as [Hpb|]; [|done].
    destruct (Z.leb_spec prefixBytes (len (Path n))) as [Hpl|]; [|done].
    cbn [andb mbind option_bind] in Hs.
    destruct (Suffix n prefixBytes suffixBits) as [s'|] eqn:Es; [|done].
    unfold Suffix in Es.
    rewrite (proj2 (Z.eqb_neq (PrefixLenBits n) 0)) in Es by done.
    assert (Hb : PrefixLenBits n -! prefixBytes *! 8
                 = PrefixLenBits n - 8 * prefixBytes).
    { unfold int_sub, int_mul.
      rewrite (to_int_id (prefixBytes * 8)) by (unfold min_int, max_int in *; lia).
      rewrite to_int_id by (unfold min_int, max_int in *; lia). lia. }
    rewrite Hb in Es.
    destruct (Z.ltb_spec suffixBits (PrefixLenBits n - 8 * prefixBytes)); [done|].
    destruct (Z.leb_spec (PrefixLenBits n - 8 * prefixBytes) 0); [done|]. lia.
  - intros [Hz|(Hpb & Hb)].
    + unfold Split. rewrite Hz. simpl. eauto.
    + unfold Split.
      rewrite (proj2 (Z.eqb_neq (PrefixLenBits n) 0)) by lia.
      rewrite Prefix_eq by lia. cbn [mbind option_bind].
      rewrite Suffix_eq_gen by lia. cbn [mbind option_bind]. eauto.
Qed.

(** X11, witness. *)
Lemma X11_Split_domain_witness :
  is_Some (Split {| Path := [0xAB; 0xFF]; PrefixLenBits := 8 |} 1 8) <->
  8 = 0 \/ (0 <= 1 /\ 0 < 8 - 8 * 1 <= 8).
Proof.
  refine (proj1 (X11_Split_domain {| Path := [0xAB; 0xFF]; PrefixLenBits := 8 |}
                   1 8 _ _)); vm_compute; try split; discriminate.
Defined.

Lemma string_of_bytes_inj a b :
  Forall is_byte a -> Forall is_byte b ->
  string_of_bytes a = string_of_bytes b -> a = b.
Proof.
  intros Ha. revert b. induction Ha as [|x a Hx _ IH]; intros b Hb Heq.
  - destruct b; [done|discriminate].
  - destruct Hb as [|y b Hy Hb]; [discriminate|].
    unfold string_of_bytes in Heq. simpl in Heq. injection Heq as Ec Er.
    f_equal; [|by apply IH].
    apply (f_equal N_of_ascii) in Ec.
    unfold is_byte in *.
    rewrite !N_ascii_embedding in Ec by lia. lia.
Qed.

(** X12: [PrefixAsKey(prefixBytes)] is the string of the bytes that
    [Prefix(prefixBytes)] returns, and panics exactly when [Prefix]
    does; so on identifiers of bytes two prefix keys are equal exactly
    when the prefixes are. *)
Theorem X12_PrefixAsKey n m prefixBytes :
  Forall is_byte (Path n) -> Forall is_byte (Path m) ->
  PrefixAsKey n prefixBytes = string_of_bytes <$> Prefix n prefixBytes /\
  (PrefixAsKey n prefixBytes = PrefixAsKey m prefixBytes <->
   Prefix n prefixBytes = Prefix m prefixBytes).
Proof.
  intros Hn Hm.
  assert (Heq : forall k, PrefixAsKey k prefixBytes
                          = string_of_bytes <$> Prefix k prefixBytes).
  { intros k. rewrite Prefix_cases. unfold PrefixAsKey.
    destruct (PrefixLenBits k =? 0); [done|].
    destruct (Z.leb_spec 0 prefixBytes);
      destruct (Z.leb_spec prefixBytes (len (Path k))); simpl.
    - by rewrite slice_to_Some by lia.
    - by rewrite slice_to_None by lia.
    - by rewrite slice_to_None by lia.
    - by rewrite slice_to_None by lia. }
  split; [apply Heq|]. rewrite !Heq. split; [|by intros ->].
  assert (Hbytes : forall k p, Forall is_byte (Path k) ->
            Prefix k prefixBytes = Some p -> Forall is_byte p).
  { intros k p Hk. rewrite Prefix_cases.
    destruct (PrefixLenBits k =? 0); [by intros [= <-]|].
    destruct ((0 <=? prefixBytes) && (prefixBytes <=? len (Path k))); [|done].
    intros [= <-]. by apply Forall_take. }
  destruct (Prefix n prefixBytes) as [a|] eqn:Ea;
    destruct (Prefix m prefixBytes) as [b|] eqn:Eb; simpl; try done.
  intros [= E]. f_equal. apply string_of_bytes_inj; eauto.
Qed.

(** X12, witness. *)
Lemma X12_PrefixAsKey_witness :
  Forall is_byte [0xAB; 0xFF] /\ Forall is_byte [0xAB; 0x80; 0x07] /\
  PrefixAsKey {| Path := [0xAB; 0xFF]; PrefixLenBits := 9 |} 1
  = string_of_bytes <$> Prefix {| Path := [0xAB; 0xFF]; PrefixLenBits := 9 |} 1.
Proof.
  assert (Hn : Forall is_byte [0xAB; 0xFF])
    by (repeat constructor; unfold is_byte; lia).
  assert (Hm : Forall is_byte [0xAB; 0x80; 0x07])
    by (repeat constructor; unfold is_byte; lia).
  split; [exact Hn|]. split; [exact Hm|].
  exact (proj1 (X12_PrefixAsKey
                  {| Path := [0xAB; 0xFF]; PrefixLenBits := 9 |}
                  {| Path := [0xAB; 0x80; 0x07]; PrefixLenBits := 9 |} 1 Hn Hm)).
Defined.

(** ** [NewNodeIDFromPrefixSuffix]: domain and buffer *)

Lemma slice_from_inv {A} (s : list A) lo r :
  slice_from s lo = Some r -> 0 <= lo <= len s.
Proof.
  unfold slice_from, slice.
  destruct (Z.leb_spec 0 lo); destruct (Z.leb_spec lo (len s)); simpl; try done.
Qed.

(** X13: [NewNodeIDFromPrefixSuffix] returns exactly when [maxPathBits >
    -8] and the prefix has at most [maxPathBits/8] bytes, and panics
    otherwise.  When it returns, [Path] is the first [maxPathBits/8] bytes
    of the prefix followed by the suffix bytes and zeros: a suffix that
    does not fit is cut, a shorter one is padded with zero bytes. *)
Theorem X13_FromPrefixSuffix_domain prefix sfx maxPathBits :
  (is_Some (NewNodeIDFromPrefixSuffix prefix sfx maxPathBits) <->
   - 8 < maxPathBits /\ len prefix <= Z.quot maxPathBits 8) /\
  (forall n, NewNodeIDFromPrefixSuffix prefix sfx maxPathBits = Some n ->
     Path n = take (Z.to_nat (Z.quot maxPathBits 8))
                (prefix ++ path sfx ++
                 replicate (Z.to_nat (Z.quot maxPathBits 8)) 0)).
Proof.
  assert (Hq : 0 <= Z.quot maxPathBits 8 <-> - 8 < maxPathBits).
  { pose proof (Z.quot_rem' maxPathBits 8).
    destruct (Z.le_gt_cases 0 maxPathBits) as [Hm|Hm].
    - pose proof (Z.quot_pos maxPathBits 8 Hm ltac:(lia)). lia.
    - pose proof (Z.rem_bound_pos_neg maxPathBits 8 ltac:(lia) ltac:(lia)).
      pose proof (Z.quot_opp_l (- maxPathBits) 8 ltac:(lia)) as Ho.
      rewrite Z.opp_involutive in Ho.
      pose proof (Z.quot_pos (- maxPathBits) 8 ltac:(lia) ltac:(lia)). lia. }
  pose proof (len_nonneg prefix) as Hlp.
  assert (Heq : 0 <= Z.quot maxPathBits 8 -> len prefix <= Z.quot maxPathBits 8 ->
    NewNodeIDFromPrefixSuffix prefix sfx maxPathBits =
      Some {| Path := prefix ++
                copy (replicate (Z.to_nat (Z.quot maxPathBits 8) - length prefix) 0)
                     (path sfx);
              PrefixLenBits := len prefix *! 8 +! bits sfx |}).
  { intros H0 Hp. unfold NewNodeIDFromPrefixSuffix.
    rewrite make_Some by lia. cbn [mbind option_bind].
    rewrite copy_zeros_prefix by (unfold len in *; lia).
    unfold copy_from. rewrite slice_from_Some.
    2:{ unfold len in *. rewrite length_app, length_replicate. lia. }
    cbn [mbind option_bind]. unfold len. rewrite Nat2Z.id.
    by rewrite take_app_length, drop_app_length. }
  assert (Hinv : forall n,
    NewNodeIDFromPrefixSuffix prefix sfx maxPathBits = Some n ->
    0 <= Z.quot maxPathBits 8 /\ len prefix <= Z.quot maxPathBits 8).
  { intros n. unfold NewNodeIDFromPrefixSuffix.
    destruct (make (Z.quot maxPathBits 8)) as [p|] eqn:Ep;
      cbn [mbind option_bind]; [|done].
    apply make_inv in Ep as [H0 ->].
    unfold copy_from.
    destruct (slice_from _ _) as [tl|] eqn:Es; cbn [mbind option_bind]; [|done].
    intros _. apply slice_from_inv in Es.
    unfold len in *. rewrite length_copy, length_replicate in Es. lia. }
  split.
  - split.
    + intros [n Hn]. apply Hinv in Hn. lia.
    + intros [H1 H2]. rewrite Heq by lia. eauto.
  - intros n Hn. destruct (Hinv n Hn) as [H0 Hp].
    rewrite Heq in Hn by done. injection Hn as <-. simpl.
    set (L := Z.to_nat (Z.quot maxPathBits 8)).
    rewrite take_app_ge by (unfold len in *; lia). f_equal.
    unfold copy. rewrite length_replicate, drop_replicate.
    rewrite take_app. f_equal. rewrite take_replicate. f_equal.
    unfold len in *. lia.
Qed.

(** X13, witness: a one-bit suffix under a one-byte prefix, in three bytes. *)
Lemma X13_FromPrefixSuffix_domain_witness :
  Path {| Path := [0xAB; 0x80; 0x00]; PrefixLenBits := 9 |}
  = take (Z.to_nat (Z.quot 24 8))
      ([0xAB] ++ path (NewSuffix 1 [0x80]) ++ replicate (Z.to_nat (Z.quot 24 8)) 0).
Proof.
  exact (proj2 (X13_FromPrefixSuffix_domain [0xAB] (NewSuffix 1 [0x80]) 24)
           {| Path := [0xAB; 0x80; 0x00]; PrefixLenBits := 9 |} eq_refl).
Defined.

(** ** Tree coordinates: the log's numbering *)

Lemma big_endian_length k v : length (big_endian k v) = k.
Proof. unfold big_endian. by rewrite length_fmap, length_seq. Qed.

Lemma big_endian_lookup k v (j : nat) :
  (j < k)%nat ->
  big_endian k v !! j = Some ((v / 256 ^ Z.of_nat (k - 1 - j)) mod 256).
Proof.
  intros Hj. unfold big_endian.
  by rewrite list_lookup_fmap, lookup_seq_lt.
Qed.

Lemma big_endian_bytes k v : Forall is_byte (big_endian k v).
Proof.
  apply Forall_lookup_2. intros j x Hx.
  pose proof (lookup_lt_Some _ _ _ Hx) as Hj. rewrite big_endian_length in Hj.
  rewrite big_endian_lookup in Hx by done. injection Hx as <-.
  unfold is_byte. apply Z.mod_pos_bound. lia.
Qed.

Lemma big_endian_bits k v i :
  0 <= i < 8 * Z.of_nat k ->
  bitAt (big_endian k v) i = Z.testbit v (8 * Z.of_nat k - 1 - i).
Proof.
  intros Hi. destruct (bit_position i ltac:(lia)) as (q & c & -> & Hq & Hc).
  rewrite bitAt_byte by lia.
  rewrite big_endian_lookup by lia. simpl.
  change 256 with (2 ^ 8) at 2. rewrite Z.mod_pow2_bits_low by lia.
  change 256 with (2 ^ 8). rewrite <- Z.pow_mul_r by lia.
  rewrite Z.div_pow2_bits by lia. f_equal. lia.
Qed.

Lemma Len64_le x t : 0 <= x -> 0 <= t -> Len64 x <= t <-> x < 2 ^ t.
Proof.
  intros Hx Ht. unfold Len64. destruct (Z.eqb_spec x 0) as [->|Hne].
  - split; [|lia]. intros _. apply Z.pow_pos_nonneg; lia.
  - rewrite Z.log2_lt_pow2 by lia. lia.
Qed.

(** X14: on arguments the documentation allows ([depth >= 0], [index >=
    0], [maxPathBits] a multiple of 8, [bitLength(index) <= maxPathBits -
    depth]) and whose shifted index fits 64 bits ([bitLength(index) +
    depth <= 64], which always holds for [maxPathBits <= 64]),
    [NewNodeIDForTreeCoords] returns without error the identifier whose
    [Path] is [index << depth] written big-endian, right-aligned, into
    [maxPathBits/8] bytes, with [PrefixLenBits = maxPathBits - depth]. *)
Theorem X14_TreeCoords_result depth index maxPathBits :
  0 <= depth <= max_int -> 0 <= index <= max_int -> maxPathBits <= max_int ->
  maxPathBits mod 8 = 0 ->
  Len64 index <= maxPathBits - depth ->
  Len64 index + depth <= 64 ->
  exists n,
    NewNodeIDForTreeCoords depth index maxPathBits = Some (n, nil_error) /\
    PrefixLenBits n = maxPathBits - depth /\
    len (Path n) = maxPathBits / 8 /\
    Path n = big_endian (Z.to_nat (maxPathBits / 8)) (index * 2 ^ depth) /\
    (forall i, 0 <= i < maxPathBits ->
       bitAt (Path n) i = Z.testbit index (maxPathBits - 1 - i - depth)).
Proof.
  intros Hd Hi Hm Hm8 Hbl Hfit.
  pose proof (Len64_nonneg index).
  pose proof (Z.div_mod maxPathBits 8 ltac:(lia)) as Hdm.
  eexists. split; [by apply NewNodeIDForTreeCoords_fits|]. simpl.
  split; [done|]. split; [|split; [done|]].
  - unfold len. rewrite big_endian_length. lia.
  - intros i Hi'. rewrite big_endian_bits by lia.
    rewrite Z.mul_pow2_bits by lia. f_equal. lia.
Qed.

(** X14, witness: the rightmost node at level 2 of a 16-level tree. *)
Lemma X14_TreeCoords_result_witness :
  exists n,
    NewNodeIDForTreeCoords 2 16383 16 = Some (n, nil_error) /\
    PrefixLenBits n = 16 - 2.
Proof.
  destruct (X14_TreeCoords_result 2 16383 16) as (n & Hn & HP & _).
  - vm_compute. split; discriminate.
  - vm_compute. split; discriminate.
  - vm_compute. discriminate.
  - reflexivity.
  - vm_compute. discriminate.
  - vm_compute. discriminate.
  - exists n. split; [exact Hn | exact HP].
Defined.

(** X15: on [int64] arguments for which [maxPathBits - depth] does not
    wrap around, [NewNodeIDForTreeCoords] returns its error (with the zero
    identifier) exactly when [depth < 0], [index < 0], [maxPathBits] is
    not a multiple of 8, or [index] needs more than [maxPathBits - depth]
    bits. *)
Theorem X15_TreeCoords_error depth index maxPathBits :
  min_int <= depth <= max_int -> min_int <= index <= max_int ->
  min_int <= maxPathBits - depth <= max_int ->
  NewNodeIDForTreeCoords depth index maxPathBits
    = Some ({| Path := []; PrefixLenBits := 0 |}, Errorf depth index maxPathBits)
  <-> (depth < 0 \/ index < 0 \/ maxPathBits mod 8 <> 0 \/
       Len64 index > maxPathBits - depth).
Proof. apply NewNodeIDForTreeCoords_error. Qed.

(** X15, witness: an index of 9 bits in an 8-bit tree. *)
Lemma X15_TreeCoords_error_witness :
  NewNodeIDForTreeCoords 0 256 8
    = Some ({| Path := []; PrefixLenBits := 0 |}, Errorf 0 256 8)
  <-> (0 < 0 \/ 256 < 0 \/ 8 mod 8 <> 0 \/ Len64 256 > 8 - 0).
Proof.
  apply (X15_TreeCoords_error 0 256 8); vm_compute; split; discriminate.
Defined.

Lemma TreeCoords_fits_64 depth index maxPathBits :
  0 <= depth -> 0 <= index <= max_int -> maxPathBits <= 64 ->
  maxPathBits mod 8 = 0 -> Len64 index <= maxPathBits - depth ->
  NewNodeIDForTreeCoords depth index maxPathBits =
    Some ({| Path := big_endian (Z.to_nat (maxPathBits / 8)) (index * 2 ^ depth);
             PrefixLenBits := maxPathBits - depth |}, nil_error).
Proof.
  intros Hd Hi Hm Hm8 Hbl. pose proof (Len64_nonneg index).
  apply NewNodeIDForTreeCoords_fits; unfold max_int in *; lia.
Qed.

Lemma coords_PathLenBits k v P :
  8 * Z.of_nat k <= max_int ->
  PathLenBits {| Path := big_endian k v; PrefixLenBits := P |} = 8 * Z.of_nat k.
Proof.
  intros H. rewrite PathLenBits_exact; simpl; unfold len;
    rewrite big_endian_length; lia.
Qed.

(** X16: the identifier [NewNodeIDForTreeCoords] returns for a tree of at
    most 64 levels is zero padded on the right by [depth] places: every
    bit from [PrefixLenBits] on is zero, and [MaskLeft(PrefixLenBits)]
    returns the identifier unchanged. *)
Theorem X16_TreeCoords_canonical depth index maxPathBits :
  0 <= depth -> 0 <= index <= max_int -> maxPathBits <= 64 ->
  maxPathBits mod 8 = 0 -> Len64 index <= maxPathBits - depth ->
  exists n,
    NewNodeIDForTreeCoords depth index maxPathBits = Some (n, nil_error) /\
    zero_from (Path n) (PrefixLenBits n) /\
    MaskLeft n (PrefixLenBits n) = Some n.
Proof.
  intros Hd Hi Hm Hm8 Hbl. pose proof (Len64_nonneg index).
  pose proof (Z.div_mod maxPathBits 8 ltac:(lia)) as Hdm.
  eexists. split; [by apply TreeCoords_fits_64|]. simpl.
  set (L := Z.to_nat (maxPathBits / 8)).
  assert (HL : 8 * Z.of_nat L = maxPathBits) by lia.
  assert (Hz : zero_from (big_endian L (index * 2 ^ depth)) (maxPathBits - depth)).
  { intros i Hi'. destruct (Z.lt_ge_cases i maxPathBits).
    - rewrite big_endian_bits by lia. apply Z.mul_pow2_bits_low. lia.
    - apply bitAt_outside. unfold len. rewrite big_endian_length. lia. }
  split; [done|].
  rewrite MaskLeft_eq.
  - simpl. f_equal. apply NodeID_eq; simpl; [|lia].
    apply masked_fixpoint; [apply big_endian_bytes|lia|done].
  - rewrite coords_PathLenBits by (unfold max_int; lia). simpl. lia.
Qed.

(** X16, witness. *)
Lemma X16_TreeCoords_canonical_witness :
  exists n,
    NewNodeIDForTreeCoords 2 16383 16 = Some (n, nil_error) /\
    MaskLeft n (PrefixLenBits n) = Some n.
Proof.
  destruct (X16_TreeCoords_canonical 2 16383 16) as (n & Hn & _ & Hm).
  - vm_compute. discriminate.
  - vm_compute. split; discriminate.
  - vm_compute. discriminate.
  - reflexivity.
  - vm_compute. discriminate.
  - exists n. split; [exact Hn | exact Hm].
Defined.

Lemma lxor_lt_pow2 a b t :
  0 <= a < 2 ^ t -> 0 <= b < 2 ^ t -> 0 <= Z.lxor a b < 2 ^ t.
Proof.
  intros Ha Hb.
  assert (0 <= Z.lxor a b) by (apply Z.lxor_nonneg; lia).
  split; [done|].
  assert (0 <= t).
  { destruct (Z.lt_ge_cases t 0) as [Hneg|]; [|done].
    rewrite Z.pow_neg_r in Ha by done. lia. }
  destruct (Z.eq_dec (Z.lxor a b) 0) as [->|Hne]; [lia|].
  apply Z.log2_lt_pow2; [lia|].
  eapply Z.le_lt_trans; [apply Z.log2_lxor; lia|].
  apply Z.max_lub_lt.
  - destruct (Z.eq_dec a 0) as [->|].
    + simpl. destruct (Z.eq_dec t 0) as [->|]; [|lia].
      change (2 ^ 0) with 1 in *. assert (b = 0) by lia. subst.
      by rewrite Z.lxor_0_r in Hne.
    + apply Z.log2_lt_pow2; lia.
  - destruct (Z.eq_dec b 0) as [->|].
    + simpl. destruct (Z.eq_dec t 0) as [->|]; [|lia].
      change (2 ^ 0) with 1 in *. assert (a = 0) by lia. subst.
      by rewrite Z.lxor_0_r in Hne.
    + apply Z.log2_lt_pow2; lia.
Qed.

(** X17: moving up a log tree is masking.  For a node [(depth, index)] of
    a tree of at most 64 levels and [0 <= k <= maxPathBits - depth], the
    identifier of the node masked to [k] bits fewer is the identifier of
    its ancestor [k] levels up, [(depth + k, index >> k)]. *)
Theorem X17_TreeCoords_ancestor depth index maxPathBits k :
  0 <= depth -> 0 <= index <= max_int -> maxPathBits <= 64 ->
  maxPathBits mod 8 = 0 -> Len64 index <= maxPathBits - depth ->
  0 <= k <= maxPathBits - depth ->
  exists n a,
    NewNodeIDForTreeCoords depth index maxPathBits = Some (n, nil_error) /\
    NewNodeIDForTreeCoords (depth + k) (Z.shiftr index k) maxPathBits
      = Some (a, nil_error) /\
    MaskLeft n (PrefixLenBits n - k) = Some a.
Proof.
  intros Hd Hi Hm Hm8 Hbl Hk. pose proof (Len64_nonneg index).
  pose proof (Z.div_mod maxPathBits 8 ltac:(lia)) as Hdm.
  assert (Hpow : 0 < 2 ^ k) by (apply Z.pow_pos_nonneg; lia).
  assert (Hidx : 0 <= Z.shiftr index k <= max_int).
  { rewrite Z.shiftr_div_pow2 by lia. split; [apply Z.div_pos; lia|].
    apply Z.le_trans with index; [|lia].
    apply Z.div_le_upper_bound; [lia|]. nia. }
  assert (Hlen : Len64 (Z.shiftr index k) <= maxPathBits - (depth + k)).
  { apply Len64_le; [lia..|]. apply Len64_le in Hbl; [|lia..].
    rewrite Z.shiftr_div_pow2 by lia.
    apply Z.div_lt_upper_bound; [done|].
    rewrite <- Z.pow_add_r by lia.
    by replace (k + (maxPathBits - (depth + k))) with (maxPathBits - depth) by lia. }
  eexists _, _. split; [by apply TreeCoords_fits_64|].
  split; [apply TreeCoords_fits_64; (done || lia)|]. simpl.
  set (L := Z.to_nat (maxPathBits / 8)).
  assert (HL : 8 * Z.of_nat L = maxPathBits) by lia.
  rewrite MaskLeft_eq.
  2:{ rewrite coords_PathLenBits by (unfold max_int; lia). simpl. lia. }
  simpl. f_equal. apply NodeID_eq; simpl; [|lia].
  apply path_eq_bits.
  - apply maskAt_bytes, big_endian_bytes.
  - apply big_endian_bytes.
  - by rewrite length_imap, !big_endian_length.
  - intros i Hi'. unfold len in Hi'. rewrite length_imap, big_endian_length in Hi'.
    rewrite maskAt_bits by lia. rewrite !big_endian_bits by lia.
    rewrite !Z.mul_pow2_bits by lia.
    destruct (Z.ltb_spec i (maxPathBits - depth - k)); simpl.
    + rewrite Z.shiftr_spec by lia. f_equal. lia.
    + symmetry. apply Z.testbit_neg_r. lia.
Qed.

(** X17, witness: leaf 95 of an 8-level tree and its ancestor two levels
    up, index 23. *)
Lemma X17_TreeCoords_ancestor_witness :
  exists n a,
    NewNodeIDForTreeCoords 0 95 8 = Some (n, nil_error) /\
    NewNodeIDForTreeCoords (0 + 2) (Z.shiftr 95 2) 8 = Some (a, nil_error) /\
    MaskLeft n (PrefixLenBits n - 2) = Some a.
Proof.
  apply (X17_TreeCoords_ancestor 0 95 8 2); try reflexivity;
    vm_compute; try split; discriminate.
Defined.

(** X18: the sibling of a log node is the node with the last index bit
    flipped.  For a node [(depth, index)] below the root of a tree of at
    most 64 levels, [Neighbor(PrefixLenBits)] of its identifier is the
    identifier of [(depth, index xor 1)]. *)
Theorem X18_TreeCoords_sibling depth index maxPathBits :
  0 <= depth -> 0 <= index <= max_int -> maxPathBits <= 64 ->
  maxPathBits mod 8 = 0 -> Len64 index <= maxPathBits - depth ->
  1 <= maxPathBits - depth ->
  exists n s,
    NewNodeIDForTreeCoords depth index maxPathBits = Some (n, nil_error) /\
    NewNodeIDForTreeCoords depth (Z.lxor index 1) maxPathBits
      = Some (s, nil_error) /\
    Neighbor n (PrefixLenBits n) = Some s.
Proof.
  intros Hd Hi Hm Hm8 Hbl HP. pose proof (Len64_nonneg index).
  pose proof (Z.div_mod maxPathBits 8 ltac:(lia)) as Hdm.
  assert (Hx63 : 0 <= Z.lxor index 1 < 2 ^ 63).
  { apply lxor_lt_pow2; unfold max_int in *; lia. }
  assert (Hlen : Len64 (Z.lxor index 1) <= maxPathBits - depth).
  { apply Len64_le; [lia..|]. apply Len64_le in Hbl; [|lia..].
    apply lxor_lt_pow2; [lia|]. split; [lia|].
    apply Z.pow_gt_1; lia. }
  eexists _, _. split; [by apply TreeCoords_fits_64|].
  split; [apply TreeCoords_fits_64; (done || unfold max_int; lia)|]. simpl.
  set (L := Z.to_nat (maxPathBits / 8)).
  assert (HL : 8 * Z.of_nat L = maxPathBits) by lia.
  set (P := maxPathBits - depth) in *.
  pose proof (Z.div_mod (P - 1) 8 ltac:(lia)).
  pose proof (Z.mod_pos_bound (P - 1) 8 ltac:(lia)).
  rewrite Neighbor_eq; simpl.
  2:{ rewrite coords_PathLenBits by (unfold max_int; lia). lia. }
  2: lia.
  f_equal. apply NodeID_eq; simpl; [|done].
  assert (Hlt : (Z.to_nat ((P - 1) / 8)
                 < length (imap (maskAt P) (big_endian L (index * 2 ^ depth))))%nat).
  { rewrite length_imap, big_endian_length. lia. }
  apply path_eq_bits.
  - apply alter_flip_bytes, maskAt_bytes, big_endian_bytes.
  - apply big_endian_bytes.
  - by rewrite length_alter, length_imap, !big_endian_length.
  - intros i Hi'. unfold len in Hi'.
    rewrite length_alter, length_imap, big_endian_length in Hi'.
    rewrite flip_bit_bits by (done || lia).
    rewrite maskAt_bits by lia. rewrite !big_endian_bits by lia.
    rewrite !Z.mul_pow2_bits by lia. rewrite Z.lxor_spec.
    destruct (Z.ltb_spec i P); simpl.
    + rewrite (Z.pow2_bits_eqb 0) by lia. f_equal.
      destruct (Z.eqb_spec i (P - 1)); symmetry;
        [apply Z.eqb_eq | apply Z.eqb_neq]; lia.
    + rewrite !Z.testbit_neg_r by lia.
      by rewrite (proj2 (Z.eqb_neq i (P - 1))) by lia.
Qed.

(** X18, witness: the sibling of leaf 95 of an 8-level tree is leaf 94. *)
Lemma X18_TreeCoords_sibling_witness :
  exists n s,
    NewNodeIDForTreeCoords 0 95 8 = Some (n, nil_error) /\
    NewNodeIDForTreeCoords 0 (Z.lxor 95 1) 8 = Some (s, nil_error) /\
    Neighbor n (PrefixLenBits n) = Some s.
Proof.
  apply (X18_TreeCoords_sibling 0 95 8); try reflexivity;
    vm_compute; try split; discriminate.
Defined.

(** ** [CoordString] *)

Lemma big_endian_S k v :
  big_endian (S k) v = (v / 256 ^ Z.of_nat k) mod 256 :: big_endian k v.
Proof.
  apply list_eq. intros [|j].
  - rewrite big_endian_lookup by lia.
    replace (S k - 1 - 0)%nat with k by lia. done.
  - change ((?x :: ?l) !! S j) with (l !! j).
    destruct (decide (j < k)%nat).
    + rewrite !big_endian_lookup by lia.
      replace (S k - 1 - S j)%nat with (k - 1 - j)%nat by lia. done.
    + rewrite !lookup_ge_None_2; [done|rewrite big_endian_length; lia..].
Qed.

Lemma be_value_acc a l :
  foldl (fun acc b => acc * 256 + b) a l = a * 256 ^ len l + be_value l.
Proof.
  revert a. unfold be_value.
  induction l as [|x l IH]; intros a; simpl.
  - unfold len. simpl. lia.
  - rewrite IH, (IH (0 * 256 + x)).
    unfold len. simpl length. rewrite Nat2Z.inj_succ, Z.pow_succ_r by lia. lia.
Qed.

Lemma be_value_big_endian k v :
  be_value (big_endian k v) = v mod 256 ^ Z.of_nat k.
Proof.
  induction k as [|k IH].
  - simpl. by rewrite Z.mod_1_r.
  - rewrite big_endian_S. unfold be_value. simpl foldl.
    rewrite be_value_acc, IH. unfold len. rewrite big_endian_length.
    rewrite Nat2Z.inj_succ, Z.pow_succ_r by lia.
    assert (0 < 256 ^ Z.of_nat k) by (apply Z.pow_pos_nonneg; lia).
    rewrite (Z.mul_comm 256), Z.rem_mul_r by lia. lia.
Qed.

Lemma coord_fold_value l a :
  Forall is_byte l ->
  foldl (fun i p => to_uint64 (shl_uint64 i (to_uint64 8) + to_uint64 p))
        (a mod 2 ^ 64) l
  = (foldl (fun acc b => acc * 256 + b) a l) mod 2 ^ 64.
Proof.
  intros Hl. revert a. induction Hl as [|x l Hx _ IH]; intros a; simpl; [done|].
  rewrite <- IH. f_equal.
  unfold shl_uint64, to_uint64. change (8 mod 2 ^ 64) with 8.
  change (64 <=? 8) with false. cbv iota.
  rewrite Z.shiftl_mul_pow2 by lia. change (2 ^ 8) with 256.
  unfold is_byte in Hx. rewrite (Z.mod_small x) by lia.
  rewrite Z.mul_mod_idemp_l by lia. rewrite Z.add_mod_idemp_l by lia. done.
Qed.

(** X19: [CoordString] reads back the coordinates: on the identifier
    [NewNodeIDForTreeCoords] returns for a node [(depth, index)] of a tree
    of at most 64 levels, it is ["[d:<depth>, i:<index>]"]. *)
Theorem X19_CoordString_roundtrip depth index maxPathBits :
  0 <= depth -> 0 <= index <= max_int -> maxPathBits <= 64 ->
  maxPathBits mod 8 = 0 -> Len64 index <= maxPathBits - depth ->
  exists n,
    NewNodeIDForTreeCoords depth index maxPathBits = Some (n, nil_error) /\
    CoordString n
    = ("[d:" ++ Itoa depth ++ ", i:" ++ Itoa index ++ "]")%string.
Proof.
  intros Hd Hi Hm Hm8 Hbl. pose proof (Len64_nonneg index) as Hl0.
  pose proof (Z.div_mod maxPathBits 8 ltac:(lia)) as Hdm.
  eexists. split; [by apply TreeCoords_fits_64|].
  unfold CoordString.
  set (L := Z.to_nat (maxPathBits / 8)).
  assert (HL : 8 * Z.of_nat L = maxPathBits) by lia.
  rewrite coords_PathLenBits by (unfold max_int; lia). cbn [Path PrefixLenBits].
  rewrite HL.
  assert (Ed : to_uint64 (maxPathBits -! (maxPathBits - depth)) = depth).
  { unfold int_sub. rewrite to_int_id by (unfold min_int, max_int; lia).
    replace (maxPathBits - (maxPathBits - depth)) with depth by lia.
    unfold to_uint64. apply Z.mod_small. lia. }
  rewrite Ed.
  assert (Hv : 0 <= index * 2 ^ depth < 2 ^ maxPathBits).
  { assert (0 <= maxPathBits - depth) by lia.
    apply Len64_le in Hbl; [|lia..].
    assert (0 < 2 ^ depth) by (apply Z.pow_pos_nonneg; lia).
    split; [nia|].
    replace maxPathBits with ((maxPathBits - depth) + depth) at 1 by lia.
    rewrite Z.pow_add_r by lia. nia. }
  assert (Hpow : 256 ^ Z.of_nat L = 2 ^ maxPathBits).
  { change 256 with (2 ^ 8). rewrite <- Z.pow_mul_r by lia. f_equal. lia. }
  assert (Ei : foldl (fun i p => to_uint64 (shl_uint64 i (to_uint64 8) + to_uint64 p))
                 (to_uint64 0) (big_endian L (index * 2 ^ depth))
               = index * 2 ^ depth).
  { change (to_uint64 0) with (0 mod 2 ^ 64).
    rewrite coord_fold_value by apply big_endian_bytes.
    fold (be_value (big_endian L (index * 2 ^ depth))).
    rewrite be_value_big_endian, Hpow.
    rewrite (Z.mod_small _ (2 ^ maxPathBits)) by lia.
    apply Z.mod_small. split; [lia|].
    apply Z.lt_le_trans with (2 ^ maxPathBits); [lia|].
    apply Z.pow_le_mono_r; lia. }
  rewrite Ei.
  assert (Es : shr_uint64 (index * 2 ^ depth) depth = index).
  { unfold shr_uint64. destruct (Z.leb_spec 64 depth) as [Hge|Hlt].
    - assert (Len64 index = 0) as E0 by lia.
      pose proof (Len64_bound index ltac:(lia)) as Hb. rewrite E0 in Hb.
      change (2 ^ 0) with 1 in Hb. lia.
    - rewrite Z.shiftr_div_pow2 by lia. apply Z.div_mul.
      apply Z.pow_nonzero; lia. }
  by rewrite Es.
Qed.

(** X19, witness. *)
Lemma X19_CoordString_roundtrip_witness :
  exists n,
    NewNodeIDForTreeCoords 2 16383 16 = Some (n, nil_error) /\
    CoordString n = ("[d:" ++ Itoa 2 ++ ", i:" ++ Itoa 16383 ++ "]")%string.
Proof.
  apply (X19_CoordString_roundtrip 2 16383 16); try reflexivity;
    vm_compute; try split; discriminate.
Defined.

(** ** [NewNodeIDFromBigInt]: the bytes of the index *)

Lemma word_byte_low d V e :
  0 <= e <= 7 ->
  ((d + 2 ^ 64 * V) / 256 ^ e) mod 256 = (d / 256 ^ e) mod 256.
Proof.
  intros He.
  assert (0 < 256 ^ e) by (apply Z.pow_pos_nonneg; lia).
  replace (2 ^ 64) with (256 ^ e * (256 ^ (7 - e) * 256)).
  - replace (d + 256 ^ e * (256 ^ (7 - e) * 256) * V)
      with (d + (256 ^ (7 - e) * 256 * V) * 256 ^ e) by lia.
    rewrite Z.div_add by lia.
    replace (d / 256 ^ e + 256 ^ (7 - e) * 256 * V)
      with (d / 256 ^ e + (256 ^ (7 - e) * V) * 256) by lia.
    apply Z.mod_add. lia.
  - rewrite Z.mul_assoc, <- Z.pow_add_r by lia.
    replace (e + (7 - e)) with 7 by lia. reflexivity.
Qed.

Lemma word_byte_high d V e :
  0 <= d < 2 ^ 64 -> 8 <= e ->
  (d + 2 ^ 64 * V) / 256 ^ e = V / 256 ^ (e - 8).
Proof.
  intros Hd He.
  assert (0 < 256 ^ (e - 8)) by (apply Z.pow_pos_nonneg; lia).
  replace (256 ^ e) with (2 ^ 64 * 256 ^ (e - 8)).
  - rewrite <- Z.div_div by lia. f_equal.
    rewrite Z.add_comm, Z.mul_comm, Z.div_add_l by lia.
    rewrite Z.div_small by lia. lia.
  - change (2 ^ 64) with (256 ^ 8). rewrite <- Z.pow_add_r by lia.
    f_equal. lia.
Qed.

Lemma word_loop_spec c d i p :
  0 <= d -> 0 <= i <= len p -> len p <= max_int ->
  (word_loop c d i p).2 = negb (Z.of_nat c <=? i) /\
  ((Z.of_nat c <= i) -> (word_loop c d i p).1.1 = i - Z.of_nat c) /\
  length (word_loop c d i p).1.2 = length p /\
  forall j : nat,
    (word_loop c d i p).1.2 !! j =
      if decide (i - Z.of_nat c <= Z.of_nat j < i)
      then Some ((d / 256 ^ (i - 1 - Z.of_nat j)) mod 256)
      else p !! j.
Proof.
  revert d i p. induction c as [|c IH]; intros d i p Hd Hi Hmax.
  - cbn [word_loop fst snd]. split; [symmetry; apply negb_false_iff, Z.leb_le; lia|].
    split; [lia|]. split; [done|]. intros j. by rewrite decide_False by lia.
  - cbn [word_loop].
    assert (E : i -! 1 = i - 1).
    { unfold int_sub. apply to_int_id. unfold min_int, max_int in *. lia. }
    rewrite E. destruct (Z.ltb_spec (i - 1) 0) as [Hz|Hpos].
    + cbn [fst snd]. split; [symmetry; apply negb_true_iff, Z.leb_gt; lia|].
      split; [lia|]. split; [done|]. intros j. by rewrite decide_False by lia.
    + destruct (IH (Z.shiftr d 8) (i - 1) (<[Z.to_nat (i - 1) := to_byte d]> p))
        as (Hb & Hi' & Hlen & Hlk).
      * rewrite Z.shiftr_div_pow2 by lia. apply Z.div_pos; lia.
      * unfold len in *. rewrite length_insert. lia.
      * unfold len in *. by rewrite length_insert.
      * split; [|split; [|split]].
        -- rewrite Hb. f_equal.
           destruct (Z.leb_spec (Z.of_nat c) (i - 1));
             destruct (Z.leb_spec (Z.of_nat (S c)) i); (done || lia).
        -- intros Hc. rewrite Hi' by lia. lia.
        -- by rewrite Hlen, length_insert.
        -- intros j. rewrite Hlk.
           rewrite Z.shiftr_div_pow2 by lia. change (2 ^ 8) with 256.
           destruct (decide (i - 1 - Z.of_nat c <= Z.of_nat j < i - 1)) as [Hin|Hout].
           ++ rewrite decide_True by lia. f_equal.
              rewrite Z.div_div by lia.
              replace (i - 1 - Z.of_nat j) with (Z.succ (i - 1 - 1 - Z.of_nat j)) by lia.
              by rewrite Z.pow_succ_r by lia.
           ++ destruct (decide (Z.of_nat j = i - 1)) as [Ej|Ej].
              ** rewrite decide_True by lia.
                 replace j with (Z.to_nat (i - 1)) by lia.
                 rewrite list_lookup_insert_eq by (unfold len in *; lia).
                 rewrite Z2Nat.id by lia.
                 replace (i - 1 - (i - 1)) with 0 by lia.
                 change (256 ^ 0) with 1. by rewrite Z.div_1_r.
              ** rewrite decide_False by lia.
                 apply list_lookup_insert_ne. lia.
Qed.

Lemma words_loop_spec ws i p :
  Forall (fun w => 0 <= w < 2 ^ 64) ws ->
  0 <= i <= len p -> len p <= max_int ->
  (forall j : nat, Z.of_nat j < i -> p !! j = Some 0) ->
  forall j : nat,
    words_loop ws i p !! j =
      if decide (Z.of_nat j < i)
      then Some ((le_value ws / 256 ^ (i - 1 - Z.of_nat j)) mod 256)
      else p !! j.
Proof.
  intros Hws. revert i p. induction Hws as [|d ws Hd _ IH]; intros i p Hi Hmax Hz j.
  - cbn [words_loop le_value foldr]. case_decide; [|done].
    rewrite Hz by done. by rewrite Z.div_0_l, Z.mod_0_l by (try apply Z.pow_nonzero; lia).
  - cbn [words_loop]. cbn [le_value foldr]. fold (le_value ws).
    destruct (word_loop_spec 8 d i p ltac:(lia) Hi Hmax) as (Hb & Hi' & Hlen & Hlk).
    destruct (word_loop 8 d i p) as [[i' p'] brk]. cbn [fst snd] in *.
    change (Z.of_nat 8) with 8 in *.
    destruct brk.
    + symmetry in Hb. apply negb_true_iff, Z.leb_gt in Hb.
      rewrite Hlk. destruct (decide (Z.of_nat j < i)).
      * rewrite decide_True by lia. f_equal. symmetry.
        apply word_byte_low. lia.
      * by rewrite decide_False by lia.
    + symmetry in Hb. apply negb_false_iff, Z.leb_le in Hb.
      rewrite IH.
      * rewrite Hi' by done.
        destruct (decide (Z.of_nat j < i - 8)).
        -- rewrite decide_True by lia. f_equal.
           rewrite word_byte_high by lia. do 3 f_equal. lia.
        -- rewrite Hlk. destruct (decide (Z.of_nat j < i)).
           ++ rewrite decide_True by lia. f_equal. symmetry.
              apply word_byte_low. lia.
           ++ by rewrite decide_False by lia.
      * rewrite Hi' by done. unfold len in *. lia.
      * unfold len in *. lia.
      * intros j' Hj'. rewrite Hi' in Hj' by done.
        rewrite Hlk, decide_False by lia. apply Hz. lia.
Qed.

Lemma NewNodeIDFromBigInt_eq depth index totalDepth :
  Forall (fun w => 0 <= w < 2 ^ 64) (Bits index) ->
  0 < totalDepth <= max_int -> totalDepth mod 8 = 0 ->
  NewNodeIDFromBigInt depth index totalDepth =
    Some {| Path := big_endian (Z.to_nat (totalDepth / 8)) (le_value (Bits index));
            PrefixLenBits := depth |}.
Proof.
  intros Hws Ht Hm8. unfold NewNodeIDFromBigInt.
  rewrite Z.rem_mod_nonneg by lia. rewrite Hm8. cbn [Z.eqb negb].
  rewrite (proj2 (Z.eqb_neq totalDepth 0)) by lia.
  rewrite Z.quot_div_nonneg by lia.
  pose proof (Z.div_mod totalDepth 8 ltac:(lia)) as Hdm.
  rewrite make_Some by lia. cbn [mbind option_bind].
  set (L := Z.to_nat (totalDepth / 8)).
  do 2 f_equal. apply list_eq. intros j.
  rewrite words_loop_spec.
  - unfold len. rewrite length_replicate.
    destruct (decide (Z.of_nat j < Z.of_nat L)).
    + rewrite big_endian_lookup by lia. do 4 f_equal. lia.
    + rewrite lookup_ge_None_2 by (rewrite length_replicate; lia).
      symmetry. apply lookup_ge_None_2. rewrite big_endian_length. lia.
  - done.
  - unfold len. rewrite length_replicate. lia.
  - unfold len. rewrite length_replicate. unfold max_int in *. lia.
  - intros j' Hj'. apply lookup_replicate_2.
    unfold len in Hj'. rewrite length_replicate in Hj'. lia.
Qed.

(** X20: [NewNodeIDFromBigInt] writes the magnitude of the index
    big-endian, right-aligned (least significant byte last), into a buffer
    of [totalDepth/8] bytes, dropping the bytes that do not fit, and it
    takes [PrefixLenBits = depth] as given; bit [i] of the path is bit
    [totalDepth - 1 - i] of the index. *)
Theorem X20_FromBigInt_bytes depth index totalDepth :
  Forall (fun w => 0 <= w < 2 ^ 64) (Bits index) ->
  0 < totalDepth <= max_int -> totalDepth mod 8 = 0 ->
  exists n,
    NewNodeIDFromBigInt depth index totalDepth = Some n /\
    PrefixLenBits n = depth /\
    Path n = big_endian (Z.to_nat (totalDepth / 8)) (le_value (Bits index)) /\
    (forall i, 0 <= i < totalDepth ->
       bitAt (Path n) i = Z.testbit (le_value (Bits index)) (totalDepth - 1 - i)).
Proof.
  intros Hws Ht Hm8. eexists. split; [by apply NewNodeIDFromBigInt_eq|].
  simpl. split; [done|]. split; [done|].
  pose proof (Z.div_mod totalDepth 8 ltac:(lia)) as Hdm.
  intros i Hi. rewrite big_endian_bits by lia. f_equal. lia.
Qed.

(** X20, witness: the index [2^64 + 0x0102] in a tree of 80 levels. *)
Lemma X20_FromBigInt_bytes_witness :
  exists n,
    NewNodeIDFromBigInt 9 (mkBigInt false [0x0102; 1]) 80 = Some n /\
    Path n = big_endian (Z.to_nat (80 / 8)) (le_value [0x0102; 1]).
Proof.
  destruct (X20_FromBigInt_bytes 9 (mkBigInt false [0x0102; 1]) 80)
    as (n & Hn & _ & Hp & _).
  - repeat constructor; (discriminate || reflexivity).
  - vm_compute. split; [reflexivity | discriminate].
  - reflexivity.
  - exists n. split; [exact Hn | exact Hp].
Defined.

(** ** [NewNodeIDFromPrefix]: domain, buffer and coordinates *)

Lemma FromPrefixSuffix_buffer prefix sfx maxPathBits :
  0 <= Z.quot maxPathBits 8 -> len prefix <= Z.quot maxPathBits 8 ->
  NewNodeIDFromPrefixSuffix prefix sfx maxPathBits =
    Some {| Path := take (Z.to_nat (Z.quot maxPathBits 8))
                      (prefix ++ path sfx ++
                       replicate (Z.to_nat (Z.quot maxPathBits 8)) 0);
            PrefixLenBits := len prefix *! 8 +! bits sfx |}.
Proof.
  intros H0 Hp. pose proof (len_nonneg prefix) as Hlp.
  unfold NewNodeIDFromPrefixSuffix.
  rewrite make_Some by lia. cbn [mbind option_bind].
  rewrite copy_zeros_prefix by (unfold len in *; lia).
  unfold copy_from. rewrite slice_from_Some.
  2:{ unfold len in *. rewrite length_app, length_replicate. lia. }
  cbn [mbind option_bind]. unfold len. rewrite Nat2Z.id.
  rewrite take_app_length, drop_app_length. do 2 f_equal.
  set (L := Z.to_nat (Z.quot maxPathBits 8)).
  rewrite take_app_ge by (unfold len in *; lia). f_equal.
  unfold copy. rewrite length_replicate, drop_replicate.
  rewrite take_app. f_equal. rewrite take_replicate. f_equal.
  unfold len in *. lia.
Qed.

Lemma put_uint64_be_eq x : put_uint64_be x = big_endian 8 x.
Proof.
  unfold put_uint64_be, big_endian, to_byte.
  cbn [fmap list_fmap seq]. by rewrite !Z.shiftr_div_pow2 by lia.
Qed.

Lemma byte_of_mod v e k :
  0 <= e < k ->
  ((v mod 256 ^ k) / 256 ^ e) mod 256 = (v / 256 ^ e) mod 256.
Proof.
  intros He.
  assert (0 < 256 ^ e) by (apply Z.pow_pos_nonneg; lia).
  assert (0 < 256 ^ k) by (apply Z.pow_pos_nonneg; lia).
  rewrite (Z.div_mod v (256 ^ k)) at 2 by lia.
  replace (256 ^ k) with (256 ^ (k - e - 1) * 256 * 256 ^ e) at 2.
  - replace (256 ^ (k - e - 1) * 256 * 256 ^ e * (v / 256 ^ k) + v mod 256 ^ k)
      with (v mod 256 ^ k + (256 ^ (k - e - 1) * 256 * (v / 256 ^ k)) * 256 ^ e)
      by lia.
    rewrite Z.div_add by lia.
    replace (256 ^ (k - e - 1) * 256 * (v / 256 ^ k))
      with (256 ^ (k - e - 1) * (v / 256 ^ k) * 256) by lia.
    by rewrite Z.mod_add by lia.
  - rewrite <- (Z.pow_1_r 256) at 2. rewrite <- !Z.pow_add_r by lia.
    f_equal. lia.
Qed.

Lemma big_endian_mod64 (s : nat) x :
  (s <= 8)%nat -> big_endian s (x mod 2 ^ 64) = big_endian s x.
Proof.
  intros Hs. apply list_eq. intros j.
  destruct (decide (j < s)%nat).
  - rewrite !big_endian_lookup by done. f_equal.
    change (2 ^ 64) with (256 ^ 8). apply byte_of_mod. lia.
  - rewrite !lookup_ge_None_2; [done|rewrite big_endian_length; lia..].
Qed.

Lemma drop_big_endian (s : nat) v :
  (s <= 8)%nat -> drop (8 - s) (big_endian 8 v) = big_endian s v.
Proof.
  intros Hs. apply list_eq. intros j. rewrite lookup_drop.
  destruct (decide (j < s)%nat).
  - rewrite !big_endian_lookup by lia. do 4 f_equal. lia.
  - rewrite !lookup_ge_None_2; [done|rewrite big_endian_length; lia..].
Qed.

Lemma to_uint64_to_int x : to_uint64 (to_int x) = to_uint64 x.
Proof.
  destruct (to_int_spec x) as (k & -> & _). unfold to_uint64.
  apply Z.mod_add. lia.
Qed.

(** The bytes [NewNodeIDFromPrefix] takes from [subIndex]. *)
Lemma sub_index_bytes depth index subDepth (s : nat) :
  0 <= depth <= max_int -> 0 <= subDepth <= 64 -> (s <= 8)%nat ->
  big_endian s (to_uint64 (shl_int64 index (to_uint64 (subDepth -! depth)))) =
  big_endian s (if depth <=? subDepth then index * 2 ^ (subDepth - depth) else 0).
Proof.
  intros Hd Hs Hs8.
  assert (E : subDepth -! depth = subDepth - depth).
  { unfold int_sub. apply to_int_id. unfold min_int, max_int in *. lia. }
  rewrite E. unfold shl_int64, to_uint64 at 2.
  destruct (Z.leb_spec depth subDepth) as [Hle|Hgt].
  - rewrite (Z.mod_small (subDepth - depth)) by lia.
    destruct (Z.leb_spec 64 (subDepth - depth)) as [H64|H64].
    + replace (subDepth - depth) with 64 by lia.
      rewrite <- (big_endian_mod64 s (index * 2 ^ 64)) by done.
      by rewrite Z.mod_mul by lia.
    + rewrite to_uint64_to_int. unfold to_uint64.
      rewrite big_endian_mod64 by done.
      rewrite (Z.mod_small (subDepth - depth)) by lia.
      by rewrite Z.shiftl_mul_pow2 by lia.
  - replace ((subDepth - depth) mod 2 ^ 64) with (subDepth - depth + 2 ^ 64).
    + rewrite (proj2 (Z.leb_le 64 _)) by (unfold max_int in *; lia). done.
    + apply Z.mod_unique with (-1); unfold max_int in *; lia.
Qed.

Lemma NewNodeIDFromPrefix_eq prefix depth index subDepth totalDepth :
  Z.rem totalDepth 8 = 0 -> Z.rem subDepth 8 = 0 -> 0 <= depth ->
  0 <= subDepth <= 64 ->
  NewNodeIDFromPrefix prefix depth index subDepth totalDepth =
  NewNodeIDFromPrefixSuffix prefix
    {| bits := depth;
       path := big_endian (Z.to_nat (Z.quot subDepth 8))
                 (to_uint64 (shl_int64 index (to_uint64 (subDepth -! depth)))) |}
    totalDepth.
Proof.
  intros Ht Hs Hd Hsd. pose proof (quot8_exact _ Hs) as Hq.
  unfold NewNodeIDFromPrefix, NewNodeIDFromPrefixSuffix.
  rewrite Ht, Hs. cbn [Z.eqb Z.ltb Z.compare negb orb].
  rewrite (proj2 (Z.ltb_ge depth 0)) by lia.
  assert (Eu : Z.quot 64 8 -! Z.quot subDepth 8 = 8 - Z.quot subDepth 8).
  { change (Z.quot 64 8) with 8. unfold int_sub. apply to_int_id.
    unfold min_int, max_int. lia. }
  rewrite Eu, put_uint64_be_eq.
  rewrite slice_from_Some by (unfold len; rewrite big_endian_length; lia).
  replace (Z.to_nat (8 - Z.quot subDepth 8))
    with (8 - Z.to_nat (Z.quot subDepth 8))%nat by lia.
  rewrite drop_big_endian by lia.
  by destruct (make (Z.quot totalDepth 8)).
Qed.

Lemma NewNodeIDFromPrefix_inv prefix depth index subDepth totalDepth n :
  min_int <= subDepth <= max_int ->
  NewNodeIDFromPrefix prefix depth index subDepth totalDepth = Some n ->
  Z.rem totalDepth 8 = 0 /\ Z.rem subDepth 8 = 0 /\ 0 <= depth /\
  0 <= totalDepth /\ 0 <= subDepth <= 64 /\ 8 * len prefix <= totalDepth.
Proof.
  intros Hint. unfold NewNodeIDFromPrefix.
  destruct (Z.eqb_spec (Z.rem totalDepth 8) 0) as [Ht|]; simpl; [|done].
  destruct (Z.rem totalDepth 8 <? 0); [done|].
  destruct (Z.eqb_spec (Z.rem subDepth 8) 0) as [Hs|]; simpl; [|done].
  destruct (Z.rem subDepth 8 <? 0); [done|].
  destruct (Z.ltb_spec depth 0) as [|Hd]; [done|].
  destruct (make (Z.quot totalDepth 8)) as [p|] eqn:Ep;
    cbn [mbind option_bind]; [|done].
  apply make_inv in Ep as [Hq ->].
  destruct (slice_from _ _) as [src|] eqn:Es; cbn [mbind option_bind]; [|done].
  apply slice_from_inv in Es.
  unfold copy_from.
  destruct (slice_from (copy _ _) _) as [tl|] eqn:Ec;
    cbn [mbind option_bind]; [|done].
  apply slice_from_inv in Ec. intros _.
  pose proof (quot8_exact _ Ht). pose proof (quot8_exact _ Hs).
  assert (Eu : Z.quot 64 8 -! Z.quot subDepth 8 = 8 - Z.quot subDepth 8).
  { change (Z.quot 64 8) with 8. unfold int_sub. apply to_int_id.
    unfold min_int, max_int in *. lia. }
  rewrite Eu in Es. unfold len in Es at 1. cbn in Es.
  unfold len in Ec. rewrite length_copy, length_replicate in Ec. unfold len.
  lia.
Qed.

Lemma bitAt_app_l p q i :
  0 <= i < 8 * len p -> bitAt (p ++ q) i = bitAt p i.
Proof.
  intros Hi. destruct (bit_position i ltac:(lia)) as (a & c & -> & Ha & Hc).
  rewrite !bitAt_byte by lia.
  by rewrite lookup_app_l by (unfold len in *; lia).
Qed.

Lemma bitAt_app_r p q t :
  0 <= t -> bitAt (p ++ q) (8 * len p + t) = bitAt q t.
Proof.
  intros Ht. destruct (bit_position t Ht) as (a & c & -> & Ha & Hc).
  replace (8 * len p + (8 * a + c)) with (8 * (len p + a) + c) by lia.
  pose proof (len_nonneg p).
  rewrite !bitAt_byte by lia.
  rewrite lookup_app_r by (unfold len in *; lia).
  do 3 f_equal. unfold len. lia.
Qed.

Lemma bitAt_zeros k i : bitAt (replicate k 0) i = false.
Proof.
  unfold bitAt. destruct (replicate k 0 !! _) as [x|] eqn:E; simpl.
  - apply lookup_replicate in E as [-> _]. apply Z.bits_0.
  - apply Z.bits_0.
Qed.

(** X21: [NewNodeIDFromPrefix] returns exactly when [totalDepth] and
    [subDepth] are multiples of 8, [depth] and [totalDepth] are not
    negative, [subDepth] is between 0 and 64, and the prefix has at most
    [totalDepth/8] bytes; on every other input it panics.  A [depth]
    larger than [subDepth] and a subtree that reaches beyond [totalDepth]
    are both accepted. *)
Theorem X21_FromPrefix_domain prefix depth index subDepth totalDepth :
  min_int <= subDepth <= max_int ->
  is_Some (NewNodeIDFromPrefix prefix depth index subDepth totalDepth) <->
  Z.rem totalDepth 8 = 0 /\ Z.rem subDepth 8 = 0 /\ 0 <= depth /\
  0 <= totalDepth /\ 0 <= subDepth <= 64 /\ 8 * len prefix <= totalDepth.
Proof.
  intros Hint. split.
  - intros [n Hn]. by eapply NewNodeIDFromPrefix_inv.
  - intros (Ht & Hs & Hd & Ht0 & Hs0 & Hp).
    rewrite NewNodeIDFromPrefix_eq by done.
    pose proof (quot8_exact _ Ht).
    rewrite FromPrefixSuffix_buffer by lia. eauto.
Qed.

(** X21, witness: a two-byte subtree under a one-byte prefix. *)
Lemma X21_FromPrefix_domain_witness :
  is_Some (NewNodeIDFromPrefix [0xAB] 9 5 16 32) <->
  Z.rem 32 8 = 0 /\ Z.rem 16 8 = 0 /\ 0 <= 9 /\
  0 <= 32 /\ 0 <= 16 <= 64 /\ 8 * len [0xAB] <= 32.
Proof.
  apply (X21_FromPrefix_domain [0xAB] 9 5 16 32).
  vm_compute. split; discriminate.
Defined.

Lemma NewNodeIDFromPrefix_buffer prefix depth index subDepth totalDepth :
  Z.rem totalDepth 8 = 0 -> Z.rem subDepth 8 = 0 -> 0 <= depth <= max_int ->
  0 <= totalDepth -> 0 <= subDepth <= 64 -> 8 * len prefix <= totalDepth ->
  NewNodeIDFromPrefix prefix depth index subDepth totalDepth =
    Some {| Path :=
              take (Z.to_nat (totalDepth / 8))
                (prefix ++
                 big_endian (Z.to_nat (subDepth / 8))
                   (if depth <=? subDepth
                    then index * 2 ^ (subDepth - depth) else 0) ++
                 replicate (Z.to_nat (totalDepth / 8)) 0);
            PrefixLenBits := len prefix *! 8 +! depth |}.
Proof.
  intros Ht Hs Hd Ht0 Hs0 Hp.
  rewrite NewNodeIDFromPrefix_eq by (done || lia).
  pose proof (quot8_exact _ Ht). pose proof (quot8_exact _ Hs).
  rewrite FromPrefixSuffix_buffer by lia. cbn [path bits].
  rewrite !Z.quot_div_nonneg by lia.
  rewrite sub_index_bytes; [done..|].
  rewrite <- Z.quot_div_nonneg by lia. lia.
Qed.


(** X22: on accepted arguments [NewNodeIDFromPrefix] sets [PrefixLenBits]
    to [len(prefix)*8 + depth] and fills [Path] with the prefix, then the
    low [subDepth/8] bytes of [index << (subDepth - depth)] in big-endian
    order, then zero bytes, cut to [totalDepth/8] bytes.  With [depth >
    subDepth] the index is shifted out entirely and the subtree bytes are
    zero. *)
Theorem X22_FromPrefix_bytes prefix depth index subDepth totalDepth :
  Z.rem totalDepth 8 = 0 -> Z.rem subDepth 8 = 0 -> 0 <= depth <= max_int ->
  0 <= totalDepth -> 0 <= subDepth <= 64 -> 8 * len prefix <= totalDepth ->
  NewNodeIDFromPrefix prefix depth index subDepth totalDepth =
    Some {| Path :=
              take (Z.to_nat (totalDepth / 8))
                (prefix ++
                 big_endian (Z.to_nat (subDepth / 8))
                   (if depth <=? subDepth
                    then index * 2 ^ (subDepth - depth) else 0) ++
                 replicate (Z.to_nat (totalDepth / 8)) 0);
            PrefixLenBits := len prefix *! 8 +! depth |}.
Proof.
  intros. by apply NewNodeIDFromPrefix_buffer.
Qed.

(** X22, witness: node 5 at depth 9 of a 16-level subtree under prefix
    [0xAB], in a 32-level tree. *)
Lemma X22_FromPrefix_bytes_witness :
  NewNodeIDFromPrefix [0xAB] 9 5 16 32 =
    Some {| Path :=
              take (Z.to_nat (32 / 8))
                ([0xAB] ++
                 big_endian (Z.to_nat (16 / 8))
                   (if 9 <=? 16 then 5 * 2 ^ (16 - 9) else 0) ++
                 replicate (Z.to_nat (32 / 8)) 0);
            PrefixLenBits := len [0xAB] *! 8 +! 9 |}.
Proof.
  apply (X22_FromPrefix_bytes [0xAB] 9 5 16 32);
    vm_compute; try split; first [reflexivity | discriminate].
Defined.

(** X23: for a node that fits ([0 <= index < 2^depth], [depth <=
    subDepth], the subtree inside the tree), [NewNodeIDFromPrefix] returns
    the identifier whose first [len(prefix)] bytes are the prefix, whose
    next [depth] bits are [index] written most significant bit first, and
    whose remaining bits are zero; [Prefix] gives the prefix back and
    [MaskLeft(PrefixLenBits)] leaves the identifier unchanged. *)
Theorem X23_FromPrefix_coords prefix depth index subDepth totalDepth :
  Forall is_byte prefix ->
  totalDepth mod 8 = 0 -> subDepth mod 8 = 0 ->
  0 <= depth <= subDepth -> subDepth <= 64 ->
  0 <= index < 2 ^ depth ->
  8 * len prefix + subDepth <= totalDepth <= max_int ->
  exists n,
    NewNodeIDFromPrefix prefix depth index subDepth totalDepth = Some n /\
    PrefixLenBits n = 8 * len prefix + depth /\
    Prefix n (len prefix) = Some prefix /\
    (forall t, 0 <= t < depth ->
       bitAt (Path n) (8 * len prefix + t) = Z.testbit index (depth - 1 - t)) /\
    zero_from (Path n) (PrefixLenBits n) /\
    MaskLeft n (PrefixLenBits n) = Some n.
Proof.
  intros Hpb Ht Hs Hd Hs64 Hi Hfit. pose proof (len_nonneg prefix) as Hlp.
  pose proof (Z.div_mod totalDepth 8 ltac:(lia)) as Htd.
  pose proof (Z.div_mod subDepth 8 ltac:(lia)) as Hsd.
  eexists. split.
  { apply NewNodeIDFromPrefix_buffer; rewrite ?Z.rem_mod_nonneg; lia. }
  rewrite (proj2 (Z.leb_le depth subDepth)) by lia.
  set (L := Z.to_nat (totalDepth / 8)).
  set (s := Z.to_nat (subDepth / 8)).
  set (v := index * 2 ^ (subDepth - depth)).
  set (p := take L (prefix ++ big_endian s v ++ replicate L 0)).
  assert (HP : len prefix *! 8 +! depth = 8 * len prefix + depth).
  { unfold int_add, int_mul.
    rewrite (to_int_id (len prefix * 8)) by (unfold min_int, max_int in *; lia).
    rewrite to_int_id; unfold min_int, max_int in *; lia. }
  assert (Hlen : length p = L).
  { unfold p. rewrite length_take, !length_app, length_replicate. lia. }
  assert (Hbytes : Forall is_byte p).
  { unfold p. apply Forall_take. apply Forall_app. split; [done|].
    apply Forall_app. split; [apply big_endian_bytes|].
    apply Forall_replicate. unfold is_byte. lia. }
  assert (Hbit : forall i, 0 <= i < totalDepth ->
            bitAt p i = bitAt (prefix ++ big_endian s v ++ replicate L 0) i).
  { intros i Hi'. unfold p.
    replace L with (Z.to_nat (Z.of_nat L)) at 1 by lia.
    apply bitAt_take. lia. }
  assert (Hsub : forall t, 0 <= t < subDepth ->
            bitAt p (8 * len prefix + t) =
            Z.testbit v (subDepth - 1 - t)).
  { intros t Ht'. rewrite Hbit by lia. rewrite bitAt_app_r by lia.
    rewrite bitAt_app_l by (unfold len; rewrite big_endian_length; lia).
    rewrite big_endian_bits by lia. f_equal. lia. }
  assert (Hz : zero_from p (8 * len prefix + depth)).
  { intros i Hi'. destruct (Z.lt_ge_cases i totalDepth) as [Hlt|Hge].
    - destruct (Z.lt_ge_cases i (8 * len prefix + subDepth)) as [Hin|Hout].
      + replace i with (8 * len prefix + (i - 8 * len prefix)) by lia.
        rewrite Hsub by lia. apply Z.mul_pow2_bits_low. lia.
      + rewrite Hbit by lia.
        replace i with (8 * len prefix + (i - 8 * len prefix)) by lia.
        rewrite bitAt_app_r by lia.
        replace (i - 8 * len prefix)
          with (8 * len (big_endian s v) + (i - 8 * len prefix - subDepth))
          by (unfold len; rewrite big_endian_length; lia).
        rewrite bitAt_app_r by lia. apply bitAt_zeros.
    - apply bitAt_outside. unfold len. lia. }
  cbn [Path PrefixLenBits]. rewrite HP.
  split; [done|]. split; [|split; [|split; [done|]]].
  - rewrite Prefix_cases. cbn [Path PrefixLenBits].
    destruct (Z.eqb_spec (8 * len prefix + depth) 0) as [E0|_].
    + destruct prefix; [done|]. unfold len in E0. simpl in E0. lia.
    + rewrite (proj2 (Z.leb_le 0 _)) by lia.
      rewrite (proj2 (Z.leb_le (len prefix) _)) by (unfold len in *; lia).
      simpl. f_equal. unfold p. rewrite take_take.
      unfold len. rewrite Nat2Z.id.
      replace (length prefix `min` L)%nat with (length prefix)
        by (unfold len in *; lia).
      by rewrite take_app_length.
  - intros t Ht'. rewrite Hsub by lia. unfold v.
    rewrite Z.mul_pow2_bits by lia. f_equal. lia.
  - rewrite MaskLeft_eq.
    + cbn [Path PrefixLenBits]. f_equal. apply NodeID_eq; simpl; [|lia].
      apply masked_fixpoint; [done|lia|done].
    + rewrite PathLenBits_exact; cbn [Path]; unfold len in *; lia.
Qed.

(** X23, witness: node 5 at depth 9 of a 16-level subtree under prefix
    [0xAB], in a 32-level tree. *)
Lemma X23_FromPrefix_coords_witness :
  exists n,
    NewNodeIDFromPrefix [0xAB] 9 5 16 32 = Some n /\
    Prefix n (len [0xAB]) = Some [0xAB] /\
    MaskLeft n (PrefixLenBits n) = Some n.
Proof.
  destruct (X23_FromPrefix_coords [0xAB] 9 5 16 32)
    as (n & Hn & _ & Hp & _ & _ & Hm).
  - repeat constructor; discriminate || reflexivity.
  - reflexivity.
  - reflexivity.
  - vm_compute. split; discriminate.
  - vm_compute. discriminate.
  - vm_compute. split; [discriminate | reflexivity].
  - vm_compute. split; discriminate.
  - exists n. split; [exact Hn|]. split; [exact Hp | exact Hm].
Defined.

(** X24: the two coordinate constructors agree.  In a tree of
    [m <= 64] levels, the node [index] at [depth] levels below the root,
    built by [NewNodeIDFromPrefix] with an empty prefix and the whole tree
    as the subtree, is the node [NewNodeIDForTreeCoords] builds for the
    same [index] at height [m - depth], and no error is reported. *)
Theorem X24_FromPrefix_TreeCoords depth index m :
  m mod 8 = 0 -> 0 <= depth <= m -> m <= 64 ->
  0 <= index < 2 ^ depth -> index <= max_int ->
  NewNodeIDForTreeCoords (m - depth) index m =
    (fun n => (n, nil_error)) <$> NewNodeIDFromPrefix [] depth index m m.
Proof.
  intros Hm8 Hd Hm Hi Himax.
  pose proof (Z.div_mod m 8 ltac:(lia)) as Hdm.
  rewrite TreeCoords_fits_64; [|lia|lia|lia|done|].
  2:{ apply Len64_le; [lia|lia|]. replace (m - (m - depth)) with depth by lia. apply Hi. }
  assert (Hr : Z.rem m 8 = 0) by (rewrite Z.rem_mod_nonneg; lia).
  rewrite NewNodeIDFromPrefix_buffer;
    [|done|done|unfold max_int; lia|lia|lia|change (len []) with 0; lia].
  cbn [fmap option_fmap option_map]. do 2 f_equal.
  apply NodeID_eq; cbn [Path PrefixLenBits].
  - rewrite (proj2 (Z.leb_le depth m)) by lia. cbn [app].
    rewrite take_app_length'; [done|]. by rewrite big_endian_length.
  - unfold int_add, int_mul. change (len [] * 8) with 0.
    rewrite (to_int_id 0) by (unfold min_int, max_int; lia).
    rewrite to_int_id by (unfold min_int, max_int; lia). lia.
Qed.

(** X24, witness: node 5 at depth 9 of a 16-level tree. *)
Lemma X24_FromPrefix_TreeCoords_witness :
  NewNodeIDForTreeCoords (16 - 9) 5 16 =
    (fun n => (n, nil_error)) <$> NewNodeIDFromPrefix [] 9 5 16 16.
Proof.
  apply (X24_FromPrefix_TreeCoords 9 5 16).
  - reflexivity.
  - vm_compute. split; discriminate.
  - vm_compute. discriminate.
  - vm_compute. split; [discriminate | reflexivity].
  - vm_compute. discriminate.
Defined.

(** ** [BigInt] and [NewNodeIDFromBigInt]: the round trip *)

Lemma be_value_cons x l : be_value (x :: l) = x * 256 ^ len l + be_value l.
Proof. unfold be_value at 1. simpl foldl. rewrite be_value_acc. lia. Qed.

Lemma be_value_bound p : Forall is_byte p -> 0 <= be_value p < 256 ^ len p.
Proof.
  induction 1 as [|x l Hx _ IH].
  - unfold be_value, len. simpl. lia.
  - rewrite be_value_cons. unfold len in *. simpl length.
    rewrite Nat2Z.inj_succ, Z.pow_succ_r by lia. unfold is_byte in Hx. nia.
Qed.

Lemma big_endian_congr k v w :
  v mod 256 ^ Z.of_nat k = w mod 256 ^ Z.of_nat k ->
  big_endian k v = big_endian k w.
Proof.
  intros E. apply list_eq. intros j.
  destruct (decide (j < k)%nat).
  - rewrite !big_endian_lookup by done. f_equal.
    rewrite <- (byte_of_mod v _ (Z.of_nat k)) by lia.
    rewrite <- (byte_of_mod w _ (Z.of_nat k)) by lia.
    by rewrite E.
  - rewrite !lookup_ge_None_2; [done|rewrite big_endian_length; lia..].
Qed.

Lemma big_endian_be_value p :
  Forall is_byte p -> big_endian (length p) (be_value p) = p.
Proof.
  induction 1 as [|x l Hx Hl IH]; [done|].
  simpl length. rewrite big_endian_S, be_value_cons.
  pose proof (be_value_bound l Hl) as Hb. unfold len in *.
  assert (0 < 256 ^ Z.of_nat (length l)) by (apply Z.pow_pos_nonneg; lia).
  f_equal.
  - rewrite Z.div_add_l by lia. rewrite (Z.div_small (be_value l)) by lia.
    unfold is_byte in Hx. rewrite Z.add_0_r. apply Z.mod_small. lia.
  - etrans; [|exact IH]. apply big_endian_congr.
    rewrite Z.add_comm. apply Z.mod_add. lia.
Qed.

Lemma le_value_norm ws : le_value (norm ws) = le_value ws.
Proof.
  induction ws as [|w ws IH]; [done|].
  cbn [norm]. unfold le_value in *. cbn [foldr]. rewrite <- IH.
  destruct (norm ws) as [|w' ws']; [|done].
  destruct (Z.eqb_spec w 0) as [->|]; simpl; lia.
Qed.

Lemma norm_Forall (P : Z -> Prop) ws : Forall P ws -> Forall P (norm ws).
Proof.
  induction 1 as [|w ws Hw _ IH]; [constructor|].
  cbn [norm]. destruct (norm ws) as [|w' ws'].
  - destruct (w =? 0); by repeat constructor.
  - by constructor.
Qed.

Lemma le_words_S k v :
  le_words (S k) v = v mod 2 ^ 64 :: le_words k (v / 2 ^ 64).
Proof.
  unfold le_words. cbn [seq fmap list_fmap]. f_equal.
  - change (64 * Z.of_nat 0) with 0. by rewrite Z.div_1_r.
  - rewrite <- fmap_S_seq, <- list_fmap_compose.
    apply list_fmap_ext. intros _ j _. simpl. f_equal.
    rewrite Z.div_div by (try apply Z.pow_pos_nonneg; lia).
    f_equal. rewrite <- Z.pow_add_r by lia. f_equal. lia.
Qed.

Lemma le_value_le_words k v :
  le_value (le_words k v) = v mod 2 ^ (64 * Z.of_nat k).
Proof.
  revert v. induction k as [|k IH]; intros v.
  - simpl. by rewrite Z.mod_1_r.
  - rewrite le_words_S. unfold le_value in *. cbn [foldr]. rewrite IH.
    replace (64 * Z.of_nat (S k)) with (64 + 64 * Z.of_nat k) by lia.
    rewrite Z.pow_add_r by lia.
    rewrite Z.rem_mul_r; [done|lia|apply Z.pow_pos_nonneg; lia].
Qed.

Lemma le_words_range k v : Forall (fun w => 0 <= w < 2 ^ 64) (le_words k v).
Proof.
  unfold le_words. apply Forall_fmap, Forall_forall. intros j _. simpl.
  apply Z.mod_pos_bound. lia.
Qed.

(** X25: [BigInt] followed by [NewNodeIDFromBigInt] gives the identifier
    back.  For a non-empty path, the integer [n.BigInt()] with [depth =
    n.PrefixLenBits] and [totalDepth = n.PathLenBits()] rebuilds exactly
    [n], leading zero bytes included. *)
Theorem X25_BigInt_roundtrip n :
  Forall is_byte (Path n) -> 0 < len (Path n) -> 8 * len (Path n) <= max_int ->
  NewNodeIDFromBigInt (PrefixLenBits n) (BigInt n) (PathLenBits n) = Some n.
Proof.
  intros Hb Hl Hmax. destruct n as [p P]. cbn [Path PrefixLenBits] in *.
  rewrite PathLenBits_exact by done. cbn [Path].
  rewrite NewNodeIDFromBigInt_eq.
  - f_equal. apply NodeID_eq; cbn [Path PrefixLenBits]; [|done].
    unfold BigInt, SetBytes, Bits. cbn [abs Path].
    rewrite le_value_norm, le_value_le_words.
    pose proof (be_value_bound p Hb) as Hv.
    replace (Z.to_nat (8 * len p / 8)) with (length p).
    2:{ rewrite Z.mul_comm, Z.div_mul by lia. unfold len. lia. }
    rewrite Z.mod_small; [by apply big_endian_be_value|].
    split; [lia|]. eapply Z.lt_le_trans; [apply Hv|].
    change 256 with (2 ^ 8). rewrite <- Z.pow_mul_r by lia.
    apply Z.pow_le_mono_r; [lia|].
    pose proof (Z.div_mod (len p + 7) 8 ltac:(lia)).
    pose proof (Z.mod_pos_bound (len p + 7) 8 ltac:(lia)).
    rewrite Z2Nat.id by (apply Z.div_pos; lia). lia.
  - unfold BigInt, SetBytes, Bits. cbn [abs].
    apply norm_Forall, le_words_range.
  - lia.
  - rewrite Z.mul_comm. apply Z.mod_mul. lia.
Qed.

(** X25, witness: a nine-byte path, whose integer takes two words, with a
    leading zero byte. *)
Lemma X25_BigInt_roundtrip_witness :
  NewNodeIDFromBigInt 70
    (BigInt {| Path := [0; 1; 2; 3; 4; 5; 6; 7; 0x80]; PrefixLenBits := 70 |})
    (PathLenBits {| Path := [0; 1; 2; 3; 4; 5; 6; 7; 0x80]; PrefixLenBits := 70 |})
  = Some {| Path := [0; 1; 2; 3; 4; 5; 6; 7; 0x80]; PrefixLenBits := 70 |}.
Proof.
  apply (X25_BigInt_roundtrip
           {| Path := [0; 1; 2; 3; 4; 5; 6; 7; 0x80]; PrefixLenBits := 70 |}).
  - repeat constructor; discriminate || reflexivity.
  - reflexivity.
  - vm_compute. discriminate.
Defined.

(** * The constructors: what they check and what they return *)

Lemma quot8_nonneg m : 0 <= Z.quot m 8 <-> - 8 < m.
Proof.
  pose proof (Z.quot_rem' m 8).
  destruct (Z.le_gt_cases 0 m) as [Hm|Hm].
  - pose proof (Z.quot_pos m 8 Hm ltac:(lia)). lia.
  - pose proof (Z.rem_bound_pos_neg m 8 ltac:(lia) ltac:(lia)).
    pose proof (Z.quot_opp_l (- m) 8 ltac:(lia)) as Ho.
    rewrite Z.opp_involutive in Ho.
    pose proof (Z.quot_pos (- m) 8 ltac:(lia) ltac:(lia)). lia.
Qed.

Lemma NewNodeIDFromBigInt_domain depth index totalDepth :
  is_Some (NewNodeIDFromBigInt depth index totalDepth) <->
  Z.rem totalDepth 8 = 0 /\ 0 < totalDepth.
Proof.
  unfold NewNodeIDFromBigInt.
  destruct (Z.eqb_spec (Z.rem totalDepth 8) 0) as [Hr|Hr]; cbn [negb].
  - pose proof (quot8_exact _ Hr).
    destruct (Z.eqb_spec totalDepth 0) as [H0|H0].
    + split; [by intros [? ?] | lia].
    + unfold make. destruct (Z.ltb_spec (Z.quot totalDepth 8) 0);
        cbn [mbind option_bind].
      * split; [by intros [? ?] | lia].
      * split; [lia | eauto].
  - split; [by intros [? ?] | tauto].
Qed.

Lemma NewNodeIDFromPrefixSuffix_domain prefix sfx maxPathBits :
  is_Some (NewNodeIDFromPrefixSuffix prefix sfx maxPathBits) <->
  - 8 < maxPathBits /\ len prefix <= Z.quot maxPathBits 8.
Proof.
  rewrite <- quot8_nonneg. split.
  - intros [n Hn]. revert Hn. unfold NewNodeIDFromPrefixSuffix.
    destruct (make (Z.quot maxPathBits 8)) as [p|] eqn:Ep;
      cbn [mbind option_bind]; [|done].
    apply make_inv in Ep as [H0 ->]. unfold copy_from.
    destruct (slice_from _ _) as [tl|] eqn:Es; cbn [mbind option_bind]; [|done].
    intros _. apply slice_from_inv in Es.
    unfold len in *. rewrite length_copy, length_replicate in Es. lia.
  - intros [H0 Hp]. rewrite FromPrefixSuffix_buffer by done. eauto.
Qed.

Lemma NewNodeIDFromPrefix_domain prefix depth index subDepth totalDepth :
  min_int <= subDepth <= max_int ->
  is_Some (NewNodeIDFromPrefix prefix depth index subDepth totalDepth) <->
  Z.rem totalDepth 8 = 0 /\ Z.rem subDepth 8 = 0 /\ 0 <= depth /\
  0 <= totalDepth /\ 0 <= subDepth <= 64 /\ 8 * len prefix <= totalDepth.
Proof.
  intros Hint. split.
  - intros [n Hn]. by eapply NewNodeIDFromPrefix_inv.
  - intros (Ht & Hs & Hd & Ht0 & Hs0 & Hp).
    rewrite NewNodeIDFromPrefix_eq by done.
    pose proof (quot8_exact _ Ht).
    rewrite FromPrefixSuffix_buffer by lia. eauto.
Qed.

(** [NewNodeIDForTreeCoords] never panics where [maxPathBits - depth] does
    not wrap around: it returns an identifier without error, or the zero
    identifier with its error. *)
Lemma NewNodeIDForTreeCoords_cases depth index maxPathBits :
  min_int <= depth <= max_int -> min_int <= index <= max_int ->
  min_int <= maxPathBits - depth <= max_int ->
  (exists n, NewNodeIDForTreeCoords depth index maxPathBits = Some (n, nil_error)) \/
  NewNodeIDForTreeCoords depth index maxPathBits
    = Some ({| Path := []; PrefixLenBits := 0 |}, Errorf depth index maxPathBits).
Proof.
  intros Hd Hi Hs.
  assert (Hsub : maxPathBits -! depth = maxPathBits - depth).
  { unfold int_sub. by apply to_int_id. }
  unfold NewNodeIDForTreeCoords. rewrite Hsub.
  destruct ((index <? 0) || (depth <? 0)
            || (maxPathBits - depth <? Len64 (to_uint64 index))
            || negb (Z.rem maxPathBits 8 =? 0)) eqn:G; [by right|left].
  apply orb_false_iff in G as [G G4]. apply orb_false_iff in G as [G G3].
  apply orb_false_iff in G as [G1 G2].
  apply Z.ltb_ge in G2, G3. apply negb_false_iff, Z.eqb_eq in G4.
  pose proof (Len64_nonneg (to_uint64 index)).
  pose proof (quot8_exact _ G4).
  rewrite make_Some by lia. cbn [mbind option_bind]. eauto.
Qed.

(** C2 (amended): what each constructor checks, and what it returns.
    [NewNodeIDFromHash] has no precondition and always returns an
    identifier with [PrefixLenBits <= 8*len(Path)].
    [NewNodeIDForTreeCoords] keeps the invariant whenever it returns; where
    [maxPathBits - depth] does not wrap around it always returns, and it
    reports its error exactly when [depth < 0], [index < 0], [maxPathBits]
    is not a multiple of 8 or [index] needs more than [maxPathBits - depth]
    bits.  The other three panic on exactly these violations and on no
    other: [NewNodeIDFromBigInt] unless [totalDepth] is a positive multiple
    of 8; [NewNodeIDFromPrefix] unless [totalDepth] and [subDepth] are
    multiples of 8, [depth >= 0], [totalDepth >= 0], [0 <= subDepth <= 64]
    and the prefix has at most [totalDepth/8] bytes;
    [NewNodeIDFromPrefixSuffix] unless [maxPathBits > -8] and the prefix has
    at most [maxPathBits/8] bytes.  None of the three compares the
    significant length with the buffer: whenever they return, the buffer
    has [totalDepth/8] ([maxPathBits/8]) bytes and [PrefixLenBits] is
    [depth], [8*len(prefix) + depth] and [8*len(prefix) + suffix.bits] as
    given by the caller, and each of them returns an identifier with
    [PrefixLenBits > 8*len(Path)] on some accepted input. *)
Theorem C2_constructors_invariant :
  (forall h,
     PrefixLenBits (NewNodeIDFromHash h) <= 8 * len (Path (NewNodeIDFromHash h))) /\
  (forall depth index maxPathBits n e,
     min_int <= depth <= max_int -> min_int <= maxPathBits <= max_int ->
     NewNodeIDForTreeCoords depth index maxPathBits = Some (n, e) ->
     0 <= PrefixLenBits n <= 8 * len (Path n)) /\
  (forall depth index totalDepth n,
     NewNodeIDFromBigInt depth index totalDepth = Some n ->
     8 * len (Path n) = totalDepth /\ PrefixLenBits n = depth) /\
  (forall prefix depth index subDepth totalDepth n,
     NewNodeIDFromPrefix prefix depth index subDepth totalDepth = Some n ->
     8 * len (Path n) = totalDepth /\
     PrefixLenBits n = len prefix *! 8 +! depth) /\
  (forall prefix sfx maxPathBits n,
     NewNodeIDFromPrefixSuffix prefix sfx maxPathBits = Some n ->
     len (Path n) = Z.quot maxPathBits 8 /\
     PrefixLenBits n = len prefix *! 8 +! bits sfx) /\
  (forall depth index maxPathBits,
     min_int <= depth <= max_int -> min_int <= index <= max_int ->
     min_int <= maxPathBits - depth <= max_int ->
     exists n e,
       NewNodeIDForTreeCoords depth index maxPathBits = Some (n, e) /\
       (e <> nil_error <->
        depth < 0 \/ index < 0 \/ maxPathBits mod 8 <> 0 \/
        Len64 index > maxPathBits - depth)) /\
  (forall depth index totalDepth,
     is_Some (NewNodeIDFromBigInt depth index totalDepth) <->
     Z.rem totalDepth 8 = 0 /\ 0 < totalDepth) /\
  (forall prefix depth index subDepth totalDepth,
     min_int <= subDepth <= max_int ->
     is_Some (NewNodeIDFromPrefix prefix depth index subDepth totalDepth) <->
     Z.rem totalDepth 8 = 0 /\ Z.rem subDepth 8 = 0 /\ 0 <= depth /\
     0 <= totalDepth /\ 0 <= subDepth <= 64 /\ 8 * len prefix <= totalDepth) /\
  (forall prefix sfx maxPathBits,
     is_Some (NewNodeIDFromPrefixSuffix prefix sfx maxPathBits) <->
     - 8 < maxPathBits /\ len prefix <= Z.quot maxPathBits 8) /\
  (exists n, NewNodeIDFromBigInt 9 (mkBigInt false []) 8 = Some n /\
             8 * len (Path n) < PrefixLenBits n) /\
  (exists n, NewNodeIDFromPrefix [] 9 0 8 8 = Some n /\
             8 * len (Path n) < PrefixLenBits n) /\
  (exists n, NewNodeIDFromPrefixSuffix [] (NewSuffix 9 [0; 0]) 8 = Some n /\
             8 * len (Path n) < PrefixLenBits n).
Proof.
  split; [exact NewNodeIDFromHash_invariant|].
  split; [exact NewNodeIDForTreeCoords_invariant|].
  split; [exact NewNodeIDFromBigInt_shape|].
  split; [exact NewNodeIDFromPrefix_shape|].
  split; [exact NewNodeIDFromPrefixSuffix_shape|].
  split.
  { intros depth index maxPathBits Hd Hi Hs.
    pose proof (NewNodeIDForTreeCoords_error depth index maxPathBits Hd Hi Hs)
      as Herr.
    destruct (NewNodeIDForTreeCoords_cases depth index maxPathBits Hd Hi Hs)
      as [[n E]|E].
    - exists n, nil_error. split; [done|]. split; [done|].
      intros Hc. apply Herr in Hc. congruence.
    - eexists _, _. split; [exact E|]. split; [|done].
      intros _. by apply Herr. }
  split; [exact NewNodeIDFromBigInt_domain|].
  split; [exact NewNodeIDFromPrefix_domain|].
  split; [exact NewNodeIDFromPrefixSuffix_domain|].
  split; [|split]; eexists; (split; [reflexivity|]); vm_compute; reflexivity.
Qed.

(** C2, witness: each constructor that can be called with a consistent
    depth returns, and the theorem gives the invariant of the result. *)
Lemma C2_constructors_invariant_witness :
  0 <= PrefixLenBits {| Path := [0xFF; 0xFC]; PrefixLenBits := 14 |}
    <= 8 * len (Path {| Path := [0xFF; 0xFC]; PrefixLenBits := 14 |}) /\
  8 * len (Path {| Path := [0x00; 0x05]; PrefixLenBits := 3 |}) = 16 /\
  (exists n e, NewNodeIDForTreeCoords 2 16383 16 = Some (n, e)) /\
  is_Some (NewNodeIDFromPrefix [0xAB] 9 5 16 32).
Proof.
  destruct C2_constructors_invariant
    as (_ & Hc & Hb & _ & _ & Hce & _ & Hp & _).
  split; [|split; [|split]].
  - refine (Hc 2 16383 16 _ nil_error _ _ _).
    + vm_compute. split; discriminate.
    + vm_compute. split; discriminate.
    + reflexivity.
  - refine (proj1 (Hb 3 (mkBigInt false [5]) 16 _ _)). reflexivity.
  - destruct (Hce 2 16383 16) as (n & e & E & _).
    + vm_compute. split; discriminate.
    + vm_compute. split; discriminate.
    + vm_compute. split; discriminate.
    + exists n, e. exact E.
  - apply (Hp [0xAB] 9 5 16 32).
    + vm_compute. split; discriminate.
    + vm_compute. repeat split; discriminate.
Defined.

(** C2, counterexample to the claim as stated: [NewNodeIDFromBigInt] with
    [depth = 9] in a tree of [totalDepth = 8] returns a one-byte identifier
    of nine significant bits. *)
Lemma C2_constructors_invariant_counterexample :
  NewNodeIDFromBigInt 9 (mkBigInt false []) 8
    = Some {| Path := [0x00]; PrefixLenBits := 9 |} /\
  ~ (PrefixLenBits {| Path := [0x00]; PrefixLenBits := 9 |}
     <= 8 * len (Path {| Path := [0x00]; PrefixLenBits := 9 |})).
Proof. split; [reflexivity|]. vm_compute. intros H. by apply H. Qed.
